(** * A shallow embedding of the Raft core of SumiMakito/raft

    The development follows the Go sources:
    - [rpc.go]: the RPC handler ([AppendEntries], [RequestVote], [ApplyLog]);
    - the server file: [appendLogs], [commitAndApply], the candidate loop,
      [startElection], [Apply], [Leader], [Serve];
    - the gRPC transport: [GRPCTransport.ApplyLog];
    - the key-value state machine of the [kv] command: [Snapshot], [Restore],
      [KVSMSnapshot.Write].

    Go's [uint64] is modelled as [N] with the wrap-around of every addition
    written out; a Go panic or nil dereference is an explicit [Crashes]
    outcome of a small state-and-crash monad. *)

From Stdlib Require Import NArith ZArith Lia List Bool Strings.Byte String.
From stdpp Require Import base tactics option list gmap strings.

Local Open Scope string_scope.
Local Open Scope list_scope.
Local Open Scope N_scope.

(** ** Machine integers *)

Definition uint64_modulus : N := 2 ^ 64.

(** Addition on Go's [uint64]. *)
Definition u64_add (a b : N) : N := (a + b) mod uint64_modulus.

(** ** Protocol buffers ([pb] package) *)

Module Peer.
Record t := mk { Id : string; Endpoint : string }.
End Peer.

Inductive LogType := LogType_COMMAND | LogType_CONFIGURATION.

Module LogBody.
Record t := mk { Type_ : LogType; Data : list byte }.
(** [Copy] clones the record; values are immutable here. *)
Definition Copy (b : t) : t := mk (Type_ b) (Data b).
End LogBody.

Module LogMeta.
Record t := mk { Index : N; Term : N }.
Definition Copy (m : t) : t := mk (Index m) (Term m).
End LogMeta.

Module Log.
Record t := mk { Meta : LogMeta.t; Body : LogBody.t }.
End Log.

Module Config.
Record t := mk { Peers : list Peer.t }.
End Config.

Module Configuration.
Record t := mk { Current : Config.t; Next : option Config.t }.
End Configuration.

Module AppendEntriesRequest.
Record t := mk {
  Term : N;
  LeaderId : string;
  PrevLogIndex : N;
  PrevLogTerm : N;
  Entries : list Log.t;
  LeaderCommit : N }.
End AppendEntriesRequest.

Module AppendEntriesResponse.
Record t := mk { ServerId : string; Term : N; Success : bool }.
End AppendEntriesResponse.

Module RequestVoteRequest.
Record t := mk {
  Term : N;
  CandidateId : string;
  LastLogIndex : N;
  LastLogTerm : N }.
End RequestVoteRequest.

Module RequestVoteResponse.
Record t := mk { ServerId : string; Term : N; Granted : bool }.
End RequestVoteResponse.

Module ApplyLogRequest.
Record t := mk { Body : LogBody.t }.
End ApplyLogRequest.

(** The [oneof Response] of [pb.ApplyLogResponse]; the field holds nil
    when unset. *)
Inductive isApplyLogResponse_Response :=
  | ApplyLogResponse_Meta (Meta : LogMeta.t)
  | ApplyLogResponse_Error (Error : string).

Module ApplyLogResponse.
Record t := mk { Response : option isApplyLogResponse_Response }.
End ApplyLogResponse.

(** ** Errors, panics *)

(** Modelled from the spec: the package's error values are declared outside
    the given sources; the spec names the error a non-leader answers with
    [NonLeader] and the one of an expired context a deadline error.  Their
    texts are fixed strings. *)
Inductive error :=
  | ErrNonLeader
  | ErrDeadlineExceeded
  | errors_New (text : string).

Definition Error (e : error) : string :=
  match e with
  | ErrNonLeader => "non-leader"
  | ErrDeadlineExceeded => "deadline exceeded"
  | errors_New text => text
  end.

(** How a Go call can end abnormally. *)
Inductive Fault :=
  | NilDereference
  | IndexOutOfRange
  | Panicw (msg : string).

Inductive Outcome (A : Type) :=
  | Returns (a : A)
  | Crashes (f : Fault).
Arguments Returns {A} a.
Arguments Crashes {A} f.

(** State passing with crashes: the receiver [*Server] is the state. *)
Definition M (S A : Type) : Type := S → Outcome (A * S).

Definition ret {S A} (a : A) : M S A := λ s, Returns (a, s).
Definition bind {S A B} (m : M S A) (k : A → M S B) : M S B :=
  λ s, match m s with
       | Returns (a, s') => k a s'
       | Crashes f => Crashes f
       end.
Definition get {S} : M S S := λ s, Returns (s, s).
Definition gets {S A} (f : S → A) : M S A := λ s, Returns (f s, s).
Definition modify {S} (f : S → S) : M S unit := λ s, Returns (tt, f s).
Definition crash {S A} (f : Fault) : M S A := λ _, Crashes f.

Notation "'let*' x ':=' m 'in' k" := (bind m (λ x, k))
  (at level 10, x pattern, m at level 100, k at level 200).
Notation "'exec' m 'in' k" := (bind m (λ _, k))
  (at level 10, m at level 100, k at level 200).

(** ** Cluster configuration *)

(** Modelled from the spec: the sentinel peer [nilPeer] stands for "no
    leader known"; it is declared outside the given sources.  It carries
    the empty id. *)
Definition nilPeer : Peer.t := Peer.mk "" "".

(** Modelled from the spec: a peer set of a configuration.  [Contains] is
    membership by id and [Quorum] the strict majority of the set
    ("Quorum: strict majority of a peer set"). *)
Module config.
Record t := mk { Peers : list Peer.t }.

Definition Contains (c : t) (id : string) : bool :=
  existsb (λ p, String.eqb (Peer.Id p) id) (Peers c).

Definition Quorum (c : t) : nat := (length (Peers c) / 2 + 1)%nat.
End config.

(** Modelled from the spec: a configuration is a pair (current, next?) and
    carries the log index at which it was appended; with [next] present it
    is joint. *)
Module configuration.
Record t := mk { Current : config.t; Next : option config.t; logIndex : N }.

Definition CurrentConfig (c : t) : config.t := Current c.
Definition NextConfig (c : t) : config.t :=
  match Next c with Some n => n | None => config.mk [] end.
Definition Joint (c : t) : bool :=
  match Next c with Some _ => true | None => false end.
Definition LogIndex (c : t) : N := logIndex c.

(** The union of the current and the next set, current first. *)
Definition Peers (c : t) : list Peer.t :=
  config.Peers (Current c) ++
  List.filter (λ p, negb (config.Contains (Current c) (Peer.Id p)))
         (config.Peers (NextConfig c)).

(** The peer with the given id, or [nilPeer]. *)
Definition Peer (c : t) (id : string) : Peer.t :=
  match List.find (λ p, String.eqb (Peer.Id p) id) (Peers c) with
  | Some p => p
  | None => nilPeer
  end.
End configuration.

Definition newConfig (c : Config.t) : config.t := config.mk (Config.Peers c).

Definition newConfiguration (c : Configuration.t) (logIndex : N) : configuration.t :=
  configuration.mk (newConfig (Configuration.Current c))
                   (newConfig <$> Configuration.Next c) logIndex.


(** Go's [(value, error)] results. *)
Inductive result (A : Type) :=
  | Ok (a : A)
  | Err (e : error).
Arguments Ok {A} a.
Arguments Err {A} e.

(** ** Server state *)

(** Modelled from the spec: the role type is declared outside the given
    sources.  Roles are ordered with [Follower] lowest ("ordered so that
    stepdown is always to a lower role"). *)
Inductive ServerRole := Follower | Candidate | Leader.

Definition ServerRole_rank (r : ServerRole) : N :=
  match r with Follower => 0 | Candidate => 1 | Leader => 2 end.

Definition ServerRole_eqb (a b : ServerRole) : bool :=
  ServerRole_rank a =? ServerRole_rank b.

Module voteSummary.
Record t := mk { term : N; candidate : string }.
End voteSummary.

(** Modelled from the spec: the in-memory server state and the commit state
    (with their getters and setters below) are declared outside the given
    sources; the fields are those of the spec's data model and of
    [Server.States]. *)
Module serverState.
Record t := mk {
  stateRole : ServerRole;
  stateCurrentTerm : N;
  stateLastVoteSummary : voteSummary.t;
  stateFirstLogIndex : N;
  stateLastLogIndex : N }.
End serverState.

Module commitState.
Record t := mk {
  stateCommitIndex : N;
  stateLastApplied : LogMeta.t }.
End commitState.

(** The channels the modelled code sends on, as queues (oldest first): the
    values sent and not yet received.  The capacities (16 and 64) are not
    modelled: a send never blocks. *)
Module serverChannels.
Record t := mk {
  commitCh : list N;
  logOpsCh : list (list LogBody.t) }.
End serverChannels.

Module configurationStore.
Record t := mk {
  committed : configuration.t;
  latest : configuration.t }.
End configurationStore.

Module Server.
Record t := mk {
  id : string;
  serveFlag : N;
  clusterLeader : option Peer.t;
  state : serverState.t;
  commit : commitState.t;
  channels : serverChannels.t;
  confStore : configurationStore.t;
  (** the commands handed to the application state machine, in order *)
  stateMachine : list (list byte);
  (** the log backend's entries, in order *)
  logStore : list Log.t;
  (** the endpoint of the transport, [trans.Endpoint()] *)
  trans : string;
  flagReselectLoop : N }.

Definition with_serveFlag (v : N) (s : t) : t :=
  mk (id s) v (clusterLeader s) (state s) (commit s) (channels s)
     (confStore s) (stateMachine s) (logStore s) (trans s) (flagReselectLoop s).
Definition with_clusterLeader (v : option Peer.t) (s : t) : t :=
  mk (id s) (serveFlag s) v (state s) (commit s) (channels s)
     (confStore s) (stateMachine s) (logStore s) (trans s) (flagReselectLoop s).
Definition with_state (v : serverState.t) (s : t) : t :=
  mk (id s) (serveFlag s) (clusterLeader s) v (commit s) (channels s)
     (confStore s) (stateMachine s) (logStore s) (trans s) (flagReselectLoop s).
Definition with_commit (v : commitState.t) (s : t) : t :=
  mk (id s) (serveFlag s) (clusterLeader s) (state s) v (channels s)
     (confStore s) (stateMachine s) (logStore s) (trans s) (flagReselectLoop s).
Definition with_channels (v : serverChannels.t) (s : t) : t :=
  mk (id s) (serveFlag s) (clusterLeader s) (state s) (commit s) v
     (confStore s) (stateMachine s) (logStore s) (trans s) (flagReselectLoop s).
Definition with_confStore (v : configurationStore.t) (s : t) : t :=
  mk (id s) (serveFlag s) (clusterLeader s) (state s) (commit s) (channels s)
     v (stateMachine s) (logStore s) (trans s) (flagReselectLoop s).
Definition with_stateMachine (v : list (list byte)) (s : t) : t :=
  mk (id s) (serveFlag s) (clusterLeader s) (state s) (commit s) (channels s)
     (confStore s) v (logStore s) (trans s) (flagReselectLoop s).
Definition with_logStore (v : list Log.t) (s : t) : t :=
  mk (id s) (serveFlag s) (clusterLeader s) (state s) (commit s) (channels s)
     (confStore s) (stateMachine s) v (trans s) (flagReselectLoop s).
Definition with_flagReselectLoop (v : N) (s : t) : t :=
  mk (id s) (serveFlag s) (clusterLeader s) (state s) (commit s) (channels s)
     (confStore s) (stateMachine s) (logStore s) (trans s) v.
End Server.

(** *** Getters and setters of the server and commit state *)

Definition role (s : Server.t) : ServerRole := serverState.stateRole (Server.state s).
Definition currentTerm (s : Server.t) : N := serverState.stateCurrentTerm (Server.state s).
Definition lastVoteSummary (s : Server.t) : voteSummary.t :=
  serverState.stateLastVoteSummary (Server.state s).
Definition firstLogIndex (s : Server.t) : N := serverState.stateFirstLogIndex (Server.state s).
Definition lastLogIndex (s : Server.t) : N := serverState.stateLastLogIndex (Server.state s).
Definition commitIndex (s : Server.t) : N := commitState.stateCommitIndex (Server.commit s).
Definition lastApplied (s : Server.t) : LogMeta.t := commitState.stateLastApplied (Server.commit s).

Definition setRole (r : ServerRole) (s : Server.t) : Server.t :=
  let st := Server.state s in
  Server.with_state
    (serverState.mk r (serverState.stateCurrentTerm st) (serverState.stateLastVoteSummary st)
       (serverState.stateFirstLogIndex st) (serverState.stateLastLogIndex st)) s.

Definition setCurrentTerm (term : N) (s : Server.t) : Server.t :=
  let st := Server.state s in
  Server.with_state
    (serverState.mk (serverState.stateRole st) term (serverState.stateLastVoteSummary st)
       (serverState.stateFirstLogIndex st) (serverState.stateLastLogIndex st)) s.

Definition setLastVoteSummary (term : N) (candidate : string) (s : Server.t) : Server.t :=
  let st := Server.state s in
  Server.with_state
    (serverState.mk (serverState.stateRole st) (serverState.stateCurrentTerm st)
       (voteSummary.mk term candidate)
       (serverState.stateFirstLogIndex st) (serverState.stateLastLogIndex st)) s.

Definition setFirstLogIndex (index : N) (s : Server.t) : Server.t :=
  let st := Server.state s in
  Server.with_state
    (serverState.mk (serverState.stateRole st) (serverState.stateCurrentTerm st)
       (serverState.stateLastVoteSummary st) index (serverState.stateLastLogIndex st)) s.

Definition setLastLogIndex (index : N) (s : Server.t) : Server.t :=
  let st := Server.state s in
  Server.with_state
    (serverState.mk (serverState.stateRole st) (serverState.stateCurrentTerm st)
       (serverState.stateLastVoteSummary st) (serverState.stateFirstLogIndex st) index) s.

Definition setCommitIndex (index : N) (s : Server.t) : Server.t :=
  Server.with_commit
    (commitState.mk index (commitState.stateLastApplied (Server.commit s))) s.

Definition setLastApplied (index term : N) (s : Server.t) : Server.t :=
  Server.with_commit
    (commitState.mk (commitState.stateCommitIndex (Server.commit s)) (LogMeta.mk index term)) s.

(** [Server.Leader]: the stored leader, or [nilPeer] when none is stored. *)
Definition Leader_ (s : Server.t) : Peer.t :=
  match Server.clusterLeader s with
  | Some v => v
  | None => nilPeer
  end.

(** [Server.setLeader]; the handlers pass the peer a configuration lookup
    returned, never a nil pointer. *)
Definition setLeader (leader : Peer.t) (s : Server.t) : Server.t :=
  Server.with_clusterLeader (Some leader) s.

(** *** The log store

    Modelled from the spec: the log backend and its proxy are declared
    outside the given sources.  The store holds the entries in order, each
    with its own (index, term); [DeleteAfter] truncates "the suffix starting
    at that index". *)
Module logStore.
Definition indexOf (e : Log.t) : N := LogMeta.Index (Log.Meta e).
Definition termOf (e : Log.t) : N := LogMeta.Term (Log.Meta e).

Definition Entry (store : list Log.t) (index : N) : option Log.t :=
  List.find (λ e, indexOf e =? index) store.
Definition LastEntry (store : list Log.t) : option Log.t := last store.
Definition FirstIndex (store : list Log.t) : N :=
  match store with e :: _ => indexOf e | [] => 0 end.
Definition LastIndex (store : list Log.t) : N :=
  match last store with Some e => indexOf e | None => 0 end.
Definition LastTermIndex (store : list Log.t) : N * N :=
  match last store with Some e => (termOf e, indexOf e) | None => (0, 0) end.
Definition AppendLogs (store logs : list Log.t) : list Log.t := store ++ logs.
Definition DeleteAfter (store : list Log.t) (firstIndex : N) : list Log.t :=
  List.filter (λ e, indexOf e <? firstIndex) store.
End logStore.

(** [h.server.logStore.DeleteAfter(firstCleanUpIndex)]: the store is
    truncated; the first and last log index the server holds are not
    touched (only [appendLogs] refreshes them). *)
Definition logStore_DeleteAfter (firstIndex : N) (s : Server.t) : Server.t :=
  Server.with_logStore (logStore.DeleteAfter (Server.logStore s) firstIndex) s.

(** *** Small server operations *)

Definition alterCommitIndex (commitIndex : N) (s : Server.t) : Server.t :=
  let ch := Server.channels s in
  Server.with_channels
    (serverChannels.mk (serverChannels.commitCh ch ++ [commitIndex])
                       (serverChannels.logOpsCh ch)) s.

(** [commitIndex := <-s.commitCh]: the oldest value of the queue and the
    server without it; [None] when the queue is empty. *)
Definition takeCommitCh (s : Server.t) : option (N * Server.t) :=
  let ch := Server.channels s in
  match serverChannels.commitCh ch with
  | [] => None
  | commitIndex :: rest =>
      Some (commitIndex,
            Server.with_channels (serverChannels.mk rest (serverChannels.logOpsCh ch)) s)
  end.

(** [s.logOpsCh <- appendOp] for an append operation with the given
    bodies. *)
Definition submitAppendOp (bodies : list LogBody.t) (s : Server.t) : Server.t :=
  let ch := Server.channels s in
  Server.with_channels
    (serverChannels.mk (serverChannels.commitCh ch)
                       (serverChannels.logOpsCh ch ++ [bodies])) s.

(** [t := <-s.logOpsCh] for the oldest append operation of the queue. *)
Definition takeLogOpsCh (s : Server.t) : option (list LogBody.t * Server.t) :=
  let ch := Server.channels s in
  match serverChannels.logOpsCh ch with
  | [] => None
  | bodies :: rest =>
      Some (bodies,
            Server.with_channels (serverChannels.mk (serverChannels.commitCh ch) rest) s)
  end.

Definition confStore_SetLatest (c : configuration.t) (s : Server.t) : Server.t :=
  Server.with_confStore
    (configurationStore.mk (configurationStore.committed (Server.confStore s)) c) s.

Definition confStore_SetCommitted (c : configuration.t) (s : Server.t) : Server.t :=
  Server.with_confStore
    (configurationStore.mk c (configurationStore.latest (Server.confStore s))) s.

Definition confStore_Latest (s : Server.t) : configuration.t :=
  configurationStore.latest (Server.confStore s).

Definition alterConfiguration (c : configuration.t) (s : Server.t) : Server.t :=
  confStore_SetLatest c s.

Definition alterLeader (leader : Peer.t) (s : Server.t) : Server.t := setLeader leader s.
Definition alterRole (r : ServerRole) (s : Server.t) : Server.t := setRole r s.
Definition alterTerm (term : N) (s : Server.t) : Server.t := setCurrentTerm term s.

Definition reselectLoop (s : Server.t) : Server.t := Server.with_flagReselectLoop 1 s.
Definition resetReselectLoop (s : Server.t) : Server.t := Server.with_flagReselectLoop 0 s.
Definition shouldReselectLoop (s : Server.t) : bool := negb (Server.flagReselectLoop s =? 0).

(** [stepdownFollower] converts the server into a follower. *)
Definition stepdownFollower (leader : Peer.t) : M Server.t unit :=
  let* r := gets role in
  if ServerRole_rank r <? ServerRole_rank Follower
  then crash (Panicw "stepdownFollower() requires the server to have a role which is higher than follower")
  else exec modify (setLeader leader) in modify (setRole Follower).

(** ** The server: log append, commit and apply *)

Section Raft.

(** [proto.Unmarshal] and [proto.Marshal] on [pb.Configuration]: the
    protobuf wire codec is an external library. *)
Context (proto_Unmarshal : list byte → result Configuration.t).
Context (proto_Marshal : Configuration.t → result (list byte)).

(** The array index of the last configuration body, [len(logs)] when there
    is none (the [for i, body := range bodies] loop of [appendLogs]). *)
Fixpoint lastConfArrayIndex_from (i : nat) (logs : list Log.t) (acc : nat) : nat :=
  match logs with
  | [] => acc
  | log :: rest =>
      lastConfArrayIndex_from (S i) rest
        (match LogBody.Type_ (Log.Body log) with
         | LogType_CONFIGURATION => i
         | LogType_COMMAND => acc
         end)
  end.

(** The entries [appendLogs] builds: the i-th body gets the index
    [lastLogIndex + 1 + uint64(i)] and the server's current term. *)
Definition newLogs (lastLogIndex term : N) (bodies : list LogBody.t) : list Log.t :=
  imap (λ i body,
          Log.mk (LogMeta.mk (u64_add (u64_add lastLogIndex 1) (N.of_nat i)) term)
                 (LogBody.Copy body))
       bodies.

(** [appendLogs] submits the logs to the log store and updates the index
    states. *)
Definition appendLogs (bodies : list LogBody.t) : M Server.t (result (list LogMeta.t)) :=
  let* lastLogIndex := gets lastLogIndex in
  let* term := gets currentTerm in
  let logs := newLogs lastLogIndex term bodies in
  let logMeta := Log.Meta <$> logs in
  let lastConfArrayIndex := lastConfArrayIndex_from 0 logs (length logs) in
  let decoded : result (option configuration.t) :=
    match logs !! lastConfArrayIndex with
    | Some log =>
        match proto_Unmarshal (LogBody.Data (Log.Body log)) with
        | Err err => Err err
        | Ok pbConfiguration =>
            Ok (Some (newConfiguration pbConfiguration (LogMeta.Index (Log.Meta log))))
        end
    | None => Ok None
    end in
  match decoded with
  | Err err => ret (Err err)
  | Ok conf =>
      exec modify (λ s, Server.with_logStore (logStore.AppendLogs (Server.logStore s) logs) s) in
      exec modify (λ s, setFirstLogIndex (logStore.FirstIndex (Server.logStore s)) s) in
      exec modify (λ s, setLastLogIndex (logStore.LastIndex (Server.logStore s)) s) in
      match conf with
      | Some c =>
          exec modify (alterConfiguration c) in
          exec modify reselectLoop in
          ret (Ok logMeta)
      | None => ret (Ok logMeta)
      end
  end.

(** Modelled from the spec: [CommitTransition] of the configuration store
    (declared outside the given sources) "appends a final entry whose
    configuration has next = none and current = previous next"; the append
    is submitted on the log-ops queue. *)
Definition confStore_CommitTransition : M Server.t (result unit) :=
  let* latest := gets confStore_Latest in
  match proto_Marshal
          (Configuration.mk
             (Config.mk (config.Peers (configuration.NextConfig latest))) None) with
  | Err err => ret (Err err)
  | Ok data =>
      exec modify (λ s,
        let ch := Server.channels s in
        Server.with_channels
          (serverChannels.mk (serverChannels.commitCh ch)
             (serverChannels.logOpsCh ch ++ [[LogBody.mk LogType_CONFIGURATION data]])) s) in
      ret (Ok tt)
  end.

(** The [for i := firstIndex; i <= commitIndex; i++] loop of
    [commitAndApply].  The counter is a [uint64], so the loop is run on
    fuel; [None] is "fuel exhausted". *)
Fixpoint applyLoop (fuel : nat) (i commitIndex commitTerm : N)
    (lastConfigurationLog : option Log.t) (s : Server.t)
    : option (Outcome ((N * option Log.t) * Server.t)) :=
  match fuel with
  | O => None
  | S fuel' =>
      if i <=? commitIndex then
        match logStore.Entry (Server.logStore s) i with
        | None => Some (Crashes (Panicw "one or more log gaps are detected"))
        | Some log =>
            let commitTerm' :=
              if i =? commitIndex then LogMeta.Term (Log.Meta log) else commitTerm in
            match LogBody.Type_ (Log.Body log) with
            | LogType_COMMAND =>
                applyLoop fuel' (u64_add i 1) commitIndex commitTerm' lastConfigurationLog
                  (Server.with_stateMachine
                     (Server.stateMachine s ++ [LogBody.Data (Log.Body log)]) s)
            | LogType_CONFIGURATION =>
                applyLoop fuel' (u64_add i 1) commitIndex commitTerm' (Some log) s
            end
        end
      else Some (Returns ((commitTerm, lastConfigurationLog), s))
  end.

(** What [commitAndApply] does with the last configuration entry applied. *)
Definition commitConfiguration (log : Log.t) : M Server.t unit :=
  let* latest := gets confStore_Latest in
  let* _ :=
    (if configuration.Joint latest
        && (configuration.LogIndex latest =? LogMeta.Index (Log.Meta log))
     then
       let* r := confStore_CommitTransition in
       match r with
       | Err err => crash (Panicw (Error err))
       | Ok _ => ret tt
       end
     else ret tt) in
  let pbConfiguration :=
    match proto_Unmarshal (LogBody.Data (Log.Body log)) with
    | Ok c => c
    | Err _ => Configuration.mk (Config.mk []) None
    end in
  modify (confStore_SetCommitted
            (newConfiguration pbConfiguration (LogMeta.Index (Log.Meta log)))).

Definition commitAndApply (fuel : nat) (commitIndex : N) (s : Server.t)
    : option (Outcome (unit * Server.t)) :=
  let commitIndex :=
    if lastLogIndex s <? commitIndex then lastLogIndex s else commitIndex in
  let lastApplied := lastApplied s in
  if LogMeta.Index lastApplied =? commitIndex then Some (Returns (tt, s))
  else if commitIndex <? LogMeta.Index lastApplied
  then Some (Crashes (Panicw "confusing condition: lastAppliedIndex > commitIndex"))
  else
    let s := setCommitIndex commitIndex s in
    let firstIndex := u64_add (LogMeta.Index lastApplied) 1 in
    match applyLoop fuel firstIndex commitIndex 0 None s with
    | None => None
    | Some (Crashes f) => Some (Crashes f)
    | Some (Returns ((commitTerm, lastConfigurationLog), s)) =>
        Some ((exec (match lastConfigurationLog with
                     | Some log => commitConfiguration log
                     | None => ret tt
                     end) in
               modify (setLastApplied commitIndex commitTerm)) s)
    end.

(** ** The RPC handler ([rpc.go]) *)

(** The conflict scan of [AppendEntries]: the [for i, e := range
    request.Entries] loop inside [if request.Entries[0].Meta.Index <=
    lastLogIndex].  It returns [(firstAppendArrayIndex, firstCleanUpIndex)];
    reading the term of a missing local entry dereferences nil. *)
Fixpoint scanConflicts (store : list Log.t) (lastLogIndex : N)
    (entries : list Log.t) (i : nat) : Outcome (nat * N) :=
  match entries with
  | [] => Returns (i, 0)
  | e :: rest =>
      if lastLogIndex <? logStore.indexOf e then Returns (i, 0)
      else
        match logStore.Entry store (logStore.indexOf e) with
        | None => Crashes NilDereference
        | Some log =>
            if negb (logStore.termOf log =? logStore.termOf e)
            then Returns (i, logStore.indexOf log)
            else scanConflicts store lastLogIndex rest (S i)
        end
  end.

(** The body of [if len(request.Entries) > 0]. *)
Definition appendRequestEntries (entries : list Log.t) : M Server.t unit :=
  let* lastLogIndex := gets lastLogIndex in
  let* firstAppendArrayIndex :=
    (match entries with
     | e0 :: _ =>
         if logStore.indexOf e0 <=? lastLogIndex then
           let* store := gets Server.logStore in
           match scanConflicts store lastLogIndex entries 0 with
           | Crashes f => crash f
           | Returns (firstAppendArrayIndex, firstCleanUpIndex) =>
               exec (if 0 <? firstCleanUpIndex
                     then modify (logStore_DeleteAfter firstCleanUpIndex)
                     else ret tt) in
               ret firstAppendArrayIndex
           end
         else ret 0%nat
     | [] => ret 0%nat
     end) in
  let bodies := (λ e, LogBody.Copy (Log.Body e)) <$> drop firstAppendArrayIndex entries in
  let* _ := appendLogs bodies in
  ret tt.

Definition AppendEntries (request : AppendEntriesRequest.t)
    : M Server.t AppendEntriesResponse.t :=
  let* id := gets Server.id in
  let* term := gets currentTerm in
  let response := AppendEntriesResponse.mk id term false in
  if AppendEntriesRequest.Term request <? term then ret response
  else
    let* leader := gets Leader_ in
    exec (if negb (String.eqb (Peer.Id leader) (AppendEntriesRequest.LeaderId request))
          then
            let* latest := gets confStore_Latest in
            modify (alterLeader
                      (configuration.Peer latest (AppendEntriesRequest.LeaderId request)))
          else ret tt) in
    let* term := gets currentTerm in
    let* response :=
      (if term <? AppendEntriesRequest.Term request then
         let* r := gets role in
         exec (if negb (ServerRole_eqb r Follower) then
                 let* latest := gets confStore_Latest in
                 stepdownFollower
                   (configuration.Peer latest (AppendEntriesRequest.LeaderId request))
               else ret tt) in
         exec modify (alterTerm (AppendEntriesRequest.Term request)) in
         let* term := gets currentTerm in
         ret (AppendEntriesResponse.mk id term false)
       else ret response) in
    let* store := gets Server.logStore in
    let prevLogMismatch :=
      if 0 <? AppendEntriesRequest.PrevLogIndex request then
        match logStore.Entry store (AppendEntriesRequest.PrevLogIndex request) with
        | None => true
        | Some requestPrevLog =>
            negb (AppendEntriesRequest.PrevLogTerm request =? logStore.termOf requestPrevLog)
        end
      else false in
    if prevLogMismatch then ret response
    else
      exec (if (0 <? length (AppendEntriesRequest.Entries request))%nat
            then appendRequestEntries (AppendEntriesRequest.Entries request)
            else ret tt) in
      let* commitIndex := gets commitIndex in
      exec (if commitIndex <? AppendEntriesRequest.LeaderCommit request
            then modify (alterCommitIndex (AppendEntriesRequest.LeaderCommit request))
            else ret tt) in
      ret (AppendEntriesResponse.mk (AppendEntriesResponse.ServerId response)
             (AppendEntriesResponse.Term response) true).

Definition RequestVote (request : RequestVoteRequest.t)
    : M Server.t RequestVoteResponse.t :=
  let* id := gets Server.id in
  let* term := gets currentTerm in
  let response := RequestVoteResponse.mk id term false in
  if RequestVoteRequest.Term request <? term then ret response
  else
    (* Check if our server has voted in current term. *)
    let* lastVoteSummary := gets lastVoteSummary in
    if term <=? voteSummary.term lastVoteSummary then
      if String.eqb (voteSummary.candidate lastVoteSummary)
                    (RequestVoteRequest.CandidateId request)
      then ret (RequestVoteResponse.mk id term true)
      else ret response
    else
      let* response :=
        (if term <? RequestVoteRequest.Term request then
           let* r := gets role in
           exec (if negb (ServerRole_eqb r Follower)
                 then stepdownFollower nilPeer
                 else ret tt) in
           exec modify (alterTerm (RequestVoteRequest.Term request)) in
           let* term := gets currentTerm in
           ret (RequestVoteResponse.mk id term false)
         else ret response) in
      let* store := gets Server.logStore in
      let '(lastTerm, lastIndex) := logStore.LastTermIndex store in
      if RequestVoteRequest.LastLogTerm request <? lastTerm then ret response
      else if (RequestVoteRequest.LastLogTerm request =? lastTerm)
              && (RequestVoteRequest.LastLogIndex request <? lastIndex)
      then ret response
      else
        let* term := gets currentTerm in
        exec modify (setLastVoteSummary term (RequestVoteRequest.CandidateId request)) in
        ret (RequestVoteResponse.mk (RequestVoteResponse.ServerId response)
               (RequestVoteResponse.Term response) true).

(** [InstallSnapshot]: the handler only logs the request and returns
    [nil, nil]. *)
Definition InstallSnapshot : M Server.t unit := ret tt.

(** [ApplyLog].  On a leader the handler calls [h.server.Apply(ctx,
    request.Body).Result()]: the leader path of [Apply] submits an append
    operation with a copy of the body to the loop, unless the context is done
    first, and waits until the operation is completed.  [applyResult] is what
    this call yields: [ErrDeadlineExceeded] when the context was done (nothing
    is submitted then), otherwise what the loop made of the operation, as
    [Apply] passes it on (the first meta, or the error). *)
Definition ApplyLog (applyResult : result LogMeta.t) (request : ApplyLogRequest.t)
    : M Server.t ApplyLogResponse.t :=
  let* r := gets role in
  if negb (ServerRole_eqb r Leader) then
    ret (ApplyLogResponse.mk (Some (ApplyLogResponse_Error (Error ErrNonLeader))))
  else
    exec (match applyResult with
          | Err ErrDeadlineExceeded => ret tt
          | _ => modify (submitAppendOp [LogBody.Copy (ApplyLogRequest.Body request)])
          end) in
    match applyResult with
    | Err err => ret (ApplyLogResponse.mk (Some (ApplyLogResponse_Error (Error err))))
    | Ok result => ret (ApplyLogResponse.mk (Some (ApplyLogResponse_Meta (LogMeta.Copy result))))
    end.

(** The request of an RPC the transport hands to the server; an ApplyLog
    request comes with the [applyResult] of its handler (see [ApplyLog]). *)
Inductive rpcRequest :=
  | rpcAppendEntries (request : AppendEntriesRequest.t)
  | rpcRequestVote (request : RequestVoteRequest.t)
  | rpcInstallSnapshot
  | rpcApplyLog (applyResult : result LogMeta.t) (request : ApplyLogRequest.t)
  | rpcUnrecognized.

Inductive rpcResponse :=
  | respondAppendEntries (response : AppendEntriesResponse.t)
  | respondRequestVote (response : RequestVoteResponse.t)
  | respondInstallSnapshot
  | respondApplyLog (response : ApplyLogResponse.t).

(** [handleRPC]: the handler of the request's type runs and its response is
    handed back; an unrecognized request is only logged. *)
Definition handleRPC (rpc : rpcRequest) : M Server.t (option rpcResponse) :=
  match rpc with
  | rpcAppendEntries request =>
      let* response := AppendEntries request in
      ret (Some (respondAppendEntries response))
  | rpcRequestVote request =>
      let* response := RequestVote request in
      ret (Some (respondRequestVote response))
  | rpcInstallSnapshot =>
      exec InstallSnapshot in
      ret (Some respondInstallSnapshot)
  | rpcApplyLog applyResult request =>
      let* response := ApplyLog applyResult request in
      ret (Some (respondApplyLog response))
  | rpcUnrecognized => ret None
  end.

(** ** Elections *)

(** [startElection]: the new term, the vote for ourself, the request sent
    to every other peer of the latest configuration, and the response the
    server puts on the vote channel for itself. *)
Definition startElection
    : M Server.t (RequestVoteRequest.t * list Peer.t * RequestVoteResponse.t) :=
  let* term := gets currentTerm in
  exec modify (alterTerm (u64_add term 1)) in
  let* term := gets currentTerm in
  let* id := gets Server.id in
  exec modify (setLastVoteSummary term id) in
  let* c := gets confStore_Latest in
  let* store := gets Server.logStore in
  let '(lastIndex, lastTerm) :=
    match logStore.LastEntry store with
    | Some log => (logStore.indexOf log, logStore.termOf log)
    | None => (0, 0)
    end in
  let* term := gets currentTerm in
  let request := RequestVoteRequest.mk term id lastIndex lastTerm in
  (* Do not ask ourself to vote *)
  let asked := List.filter (λ peer, negb (String.eqb (Peer.Id peer) id)) (configuration.Peers c) in
  ret (request, asked, RequestVoteResponse.mk id term true).

(** What happens while the candidate loop runs: the cases of its [select]
    and, besides them, the run of a handler goroutine the loop has started
    with [go s.handleRPC(rpc)].

    - [commitCh fuel commitIndex] is a commit index that reaches the loop
      without having been in the queue of the state (a value sent by code
      outside the given sources); [commitChHead fuel] is the oldest value of
      the queue, sent by [alterCommitIndex].
    - The log provider and the snapshot service are outside the given
      sources: [logRestoreCh] and [snapshotRestoreCh] carry what their
      [Restore] does to the server.
    - [transRPC] is the receipt of an RPC: the loop only starts the handler
      goroutine.  [handlerRuns rpc] is such a goroutine running [handleRPC]
      from its beginning to its end while the loop waits in its [select];
      the response goes to the caller of the RPC.  A handler and an iteration
      of the loop are taken as atomic with respect to each other. *)
Inductive candidateEvent :=
  | voteResCh (response : RequestVoteResponse.t)
  | electionTimer
  | commitCh (fuel : nat) (commitIndex : N)
  | confCh (c : configuration.t)
  | transRPC
  | shutdownCh
  | commitChHead (fuel : nat)
  | logRestoreCh (Restore : M Server.t unit)
  | snapshotRestoreCh (Restore : M Server.t unit)
  | handlerRuns (rpc : rpcRequest).

Inductive candidateExit :=
  | wonElection
  | localTermStale
  | timedOut
  | shutDown
  | reselect
  | roleChanged
  | applyOutOfFuel
  | awaiting (currentVotes nextVotes : nat).

(** The [select] of the candidate loop, waiting, and what follows it: run
    on the events in order.  After a case of the [select] the loop returns
    when [shouldReselectLoop] holds, and goes on to the next [select] while
    the role is still Candidate; a handler that runs meanwhile leaves the
    loop waiting in the same [select].  With no event left, or when a value
    is to be taken from an empty queue, the loop is waiting ([awaiting]). *)
Fixpoint candidateSelect (c : configuration.t) (events : list candidateEvent)
    (currentVotes nextVotes : nat) : M Server.t candidateExit :=
  match events with
  | [] => ret (awaiting currentVotes nextVotes)
  | event :: events =>
      let continue (currentVotes nextVotes : nat) : M Server.t candidateExit :=
        let* again := gets shouldReselectLoop in
        if again then ret reselect
        else
          let* r := gets role in
          if negb (ServerRole_eqb r Candidate) then ret roleChanged
          else candidateSelect c events currentVotes nextVotes in
      let apply (fuel : nat) (commitIndex : N) : M Server.t candidateExit :=
        λ s, match commitAndApply fuel commitIndex s with
             | None => Returns (applyOutOfFuel, s)
             | Some (Crashes f) => Crashes f
             | Some (Returns (_, s')) => continue currentVotes nextVotes s'
             end in
      match event with
      | voteResCh response =>
          let* term := gets currentTerm in
          if term <? RequestVoteResponse.Term response then
            exec modify (alterTerm (RequestVoteResponse.Term response)) in
            ret localTermStale
          else
            let currentVotes :=
              if config.Contains (configuration.CurrentConfig c)
                                 (RequestVoteResponse.ServerId response)
              then S currentVotes else currentVotes in
            let nextVotes :=
              if configuration.Joint c
                 && config.Contains (configuration.NextConfig c)
                                    (RequestVoteResponse.ServerId response)
              then S nextVotes else nextVotes in
            let win : M Server.t candidateExit :=
              exec modify (alterRole Leader) in
              let* latest := gets confStore_Latest in
              let* id := gets Server.id in
              exec modify (alterLeader (configuration.Peer latest id)) in
              ret wonElection in
            if negb (configuration.Joint c) then
              if (config.Quorum (configuration.CurrentConfig c) <=? currentVotes)%nat
              then win
              else continue currentVotes nextVotes
            else
              if (config.Quorum (configuration.CurrentConfig c) <=? currentVotes)%nat
                 && (config.Quorum (configuration.NextConfig c) <=? nextVotes)%nat
              then win
              else continue currentVotes nextVotes
      | electionTimer => ret timedOut
      | commitCh fuel commitIndex => apply fuel commitIndex
      | commitChHead fuel =>
          λ s, match takeCommitCh s with
               | None => Returns (awaiting currentVotes nextVotes, s)
               | Some (commitIndex, s') => apply fuel commitIndex s'
               end
      | confCh c' =>
          exec modify (alterConfiguration c') in
          exec modify reselectLoop in
          continue currentVotes nextVotes
      | logRestoreCh Restore =>
          exec Restore in
          continue currentVotes nextVotes
      | transRPC => continue currentVotes nextVotes
      | shutdownCh => ret shutDown
      | snapshotRestoreCh Restore =>
          exec Restore in
          continue currentVotes nextVotes
      | handlerRuns rpc =>
          let* _ := handleRPC rpc in
          candidateSelect c events currentVotes nextVotes
      end
  end.

(** The [for s.role() == Candidate { select ... }] loop, run on the events
    in order. *)
Definition candidateLoop (c : configuration.t) (events : list candidateEvent)
    (currentVotes nextVotes : nat) : M Server.t candidateExit :=
  let* r := gets role in
  if negb (ServerRole_eqb r Candidate) then ret roleChanged
  else candidateSelect c events currentVotes nextVotes.

(** [runLoopCandidate]: the election is started, then the loop runs.  The
    server's own response is on the vote channel after the fan-out was
    launched: [before] are the events received ahead of it, [after] those
    behind it. *)
Definition runLoopCandidate (before after : list candidateEvent)
    : M Server.t candidateExit :=
  let* started := startElection in
  let own := snd started in
  let* c := gets confStore_Latest in
  candidateLoop c (before ++ voteResCh own :: after) 0 0.

(** ** The client entrypoint *)

(** A completion of the future [Apply] returns. *)
Inductive futureCompletion :=
  | setResult (result : option LogMeta.t) (err : option error).

(** The leader path of [Server.Apply], given the result of the internal
    append task. *)
Definition Apply_leader (internalResult : result (list LogMeta.t))
    : list futureCompletion * Outcome unit :=
  match internalResult with
  | Err err => ([setResult None (Some err)], Returns tt)
  | Ok [] => ([], Crashes IndexOutOfRange)
  | Ok (meta :: _) => ([setResult (Some meta) None], Returns tt)
  end.

(** The goroutine of the proxy path of [Server.Apply], given what
    [s.trans.ApplyLog] returned: the completions of the future, in order,
    and how the goroutine ends. *)
Definition Apply_proxy (response : option ApplyLogResponse.t) (err : option error)
    : list futureCompletion * Outcome unit :=
  let onError :=
    match err with
    | Some e => [setResult None (Some e)]
    | None => []
    end in
  (* TODO: Crashes happen here sometimes. *)
  match response with
  | None => (onError, Crashes NilDereference)
  | Some response =>
      match ApplyLogResponse.Response response with
      | Some (ApplyLogResponse_Meta meta) =>
          (onError ++ [setResult (Some meta) None], Returns tt)
      | Some (ApplyLogResponse_Error text) =>
          (onError ++ [setResult None (Some (errors_New text))], Returns tt)
      | None => (onError, Returns tt)
      end
  end.

(** [GRPCTransport.ApplyLog], given how [tryClient] ended and the response
    its callback stored. *)
Definition GRPCTransport_ApplyLog (tryClient : option error)
    (response : option ApplyLogResponse.t)
    : option ApplyLogResponse.t * option error :=
  match tryClient with
  | Some err => (None, Some err)
  | None => (response, None)
  end.

(** [Server.Apply]: the leader path for a leader, the proxy path
    otherwise. *)
Definition Apply (internalResult : result (list LogMeta.t))
    (transport : option ApplyLogResponse.t * option error) (s : Server.t)
    : list futureCompletion * Outcome unit :=
  if ServerRole_eqb (role s) Leader then Apply_leader internalResult
  else Apply_proxy (fst transport) (snd transport).

(** ** Serve *)

(** The [for _, peer := range c.Peers()] loop of [Serve]. *)
Fixpoint Serve_checkPeers (id endpoint : string) (peers : list Peer.t) : Outcome unit :=
  match peers with
  | [] => Returns tt
  | peer :: rest =>
      if String.eqb id (Peer.Id peer) then
        (* Check for an edge condition *)
        if negb (String.eqb endpoint (Peer.Endpoint peer))
        then Crashes (Panicw "confusing condition: two servers have the same ID but different endpoints")
        else Returns tt
      else Serve_checkPeers id endpoint rest
  end.

(** [Serve] up to the point where it launches the transport, the API server
    and the main loop and waits on the serve-error channel ([Ok tt]). *)
Definition Serve : M Server.t (result unit) :=
  let* flag := gets Server.serveFlag in
  if negb (flag =? 0) then ret (Err (errors_New "Serve() can only be called once"))
  else
    exec modify (Server.with_serveFlag 1) in
    let* c := gets confStore_Latest in
    let* id := gets Server.id in
    let* endpoint := gets Server.trans in
    if (0 <? length (configuration.Peers c))%nat then
      let selfRegistered := false in
      match Serve_checkPeers id endpoint (configuration.Peers c) with
      | Crashes f => crash f
      | Returns _ =>
          if negb selfRegistered
          then crash (Panicw "the server is not in the latest configuration's peer list")
          else ret (Ok tt)
      end
    else
      let pbConfiguration :=
        Configuration.mk (Config.mk [Peer.mk id endpoint]) None in
      match proto_Marshal pbConfiguration with
      | Err err => ret (Err err)
      | Ok configurationBytes =>
          let* r := appendLogs [LogBody.mk LogType_CONFIGURATION configurationBytes] in
          match r with
          | Err err => crash (Panicw "error occurred bootstrapping configuration for ourself")
          | Ok _ => ret (Ok tt)
          end
      end.

(** ** The follower loop, the leader loop and the main loop *)

(** How the follower loop and the leader loop end. *)
Inductive loopExit :=
  | loopShutDown
  | loopSteppedDown
  | loopReselect
  | loopRoleChanged
  | loopApplyOutOfFuel
  | loopAwaiting.

(** The type of a trim operation on the log-ops queue. *)
Inductive logProviderTrimType :=
  | logProviderTrimPrefix
  | logProviderTrimSuffix
  | logProviderTrimOther.

(** What happens while the follower loop runs: the cases of its [select]
    and the run of a handler goroutine (see [candidateEvent]).

    - [followerCommitCh] and [followerLogOpsCh] carry a commit index and an
      append operation that reach the loop without having been in the queues
      of the state: a commit index sent by code outside the given sources,
      an append operation submitted by a call of [Apply], whose send the
      model of [Apply] does not record.  [followerCommitChHead] and
      [followerLogOpsChHead] take the oldest value of the queue.
    - The log provider, the state machine proxy and the snapshot service are
      outside the given sources: a trim operation, [Restore] and [Snapshot]
      come with what they do to the server.  A trim operation of another
      type and an operation of another kind are only logged. *)
Inductive followerEvent :=
  | followerTimer
  | followerCommitCh (fuel : nat) (commitIndex : N)
  | followerConfCh (c : configuration.t)
  | followerLogOpsCh (bodies : list LogBody.t)
  | followerRPC
  | followerShutdownCh
  | followerCommitChHead (fuel : nat)
  | followerLogOpsChHead
  | followerLogOpsChTrim (type : logProviderTrimType) (Trim : M Server.t unit)
  | followerLogOpsChUnknown
  | followerLogRestoreCh (Restore : M Server.t unit)
  | followerStateMachineSnapshotCh (Snapshot : M Server.t unit)
  | followerSnapshotRestoreCh (Restore : M Server.t unit)
  | followerHandlerRuns (rpc : rpcRequest).

(** The [select] of the follower loop, waiting, and what follows it (see
    [candidateSelect]); [results] collects what the append operations were
    completed with ([op.setResult(s.appendLogs(op.Task()))]), oldest
    first. *)
Fixpoint followerSelect (events : list followerEvent)
    (results : list (result (list LogMeta.t)))
    : M Server.t (loopExit * list (result (list LogMeta.t))) :=
  match events with
  | [] => ret (loopAwaiting, results)
  | event :: events =>
      let continue (results : list (result (list LogMeta.t)))
          : M Server.t (loopExit * list (result (list LogMeta.t))) :=
        let* again := gets shouldReselectLoop in
        if again then ret (loopReselect, results)
        else
          let* r := gets role in
          if negb (ServerRole_eqb r Follower) then ret (loopRoleChanged, results)
          else followerSelect events results in
      let apply (fuel : nat) (commitIndex : N)
          : M Server.t (loopExit * list (result (list LogMeta.t))) :=
        λ s, match commitAndApply fuel commitIndex s with
             | None => Returns ((loopApplyOutOfFuel, results), s)
             | Some (Crashes f) => Crashes f
             | Some (Returns (_, s')) => continue results s'
             end in
      let append (bodies : list LogBody.t)
          : M Server.t (loopExit * list (result (list LogMeta.t))) :=
        let* r := appendLogs bodies in
        continue (results ++ [r]) in
      match event with
      | followerTimer =>
          exec modify (alterRole Candidate) in
          exec modify reselectLoop in
          continue results
      | followerCommitCh fuel commitIndex => apply fuel commitIndex
      | followerCommitChHead fuel =>
          λ s, match takeCommitCh s with
               | None => Returns ((loopAwaiting, results), s)
               | Some (commitIndex, s') => apply fuel commitIndex s'
               end
      | followerConfCh c =>
          exec modify (alterConfiguration c) in
          exec modify reselectLoop in
          continue results
      | followerLogOpsCh bodies => append bodies
      | followerLogOpsChHead =>
          λ s, match takeLogOpsCh s with
               | None => Returns ((loopAwaiting, results), s)
               | Some (bodies, s') => append bodies s'
               end
      | followerLogOpsChTrim type Trim =>
          exec (match type with
                | logProviderTrimPrefix | logProviderTrimSuffix => Trim
                | logProviderTrimOther => ret tt
                end) in
          continue results
      | followerLogOpsChUnknown => continue results
      | followerLogRestoreCh Restore =>
          exec Restore in
          continue results
      | followerRPC => continue results
      | followerShutdownCh => ret (loopShutDown, results)
      | followerStateMachineSnapshotCh Snapshot =>
          exec Snapshot in
          continue results
      | followerSnapshotRestoreCh Restore =>
          exec Restore in
          continue results
      | followerHandlerRuns rpc =>
          let* _ := handleRPC rpc in
          followerSelect events results
      end
  end.

(** The [for s.role() == Follower { select ... }] loop, run on the events
    in order. *)
Definition followerLoop (events : list followerEvent)
    (results : list (result (list LogMeta.t)))
    : M Server.t (loopExit * list (result (list LogMeta.t))) :=
  let* r := gets role in
  if negb (ServerRole_eqb r Follower) then ret (loopRoleChanged, results)
  else followerSelect events results.

Definition runLoopFollower (events : list followerEvent)
    : M Server.t (loopExit * list (result (list LogMeta.t))) :=
  followerLoop events [].

(** What happens while the leader loop runs (see [followerEvent]); the
    stepdown channel carries the later term a replication driver has seen,
    and the snapshot-restore case stops the replication scheduler (outside
    the given sources) before it restores. *)
Inductive leaderEvent :=
  | leaderCommitCh (fuel : nat) (commitIndex : N)
  | leaderConfCh (c : configuration.t)
  | leaderLogOpsCh (bodies : list LogBody.t)
  | leaderRPC
  | leaderShutdownCh
  | leaderStepdownCh (term : N)
  | leaderCommitChHead (fuel : nat)
  | leaderLogOpsChHead
  | leaderLogOpsChTrim (type : logProviderTrimType) (Trim : M Server.t unit)
  | leaderLogOpsChUnknown
  | leaderLogRestoreCh (Restore : M Server.t unit)
  | leaderStateMachineSnapshotCh (Snapshot : M Server.t unit)
  | leaderSnapshotRestoreCh (Stop Restore : M Server.t unit)
  | leaderHandlerRuns (rpc : rpcRequest).

(** The [select] of the leader loop, waiting, and what follows it. *)
Fixpoint leaderSelect (events : list leaderEvent)
    (results : list (result (list LogMeta.t)))
    : M Server.t (loopExit * list (result (list LogMeta.t))) :=
  match events with
  | [] => ret (loopAwaiting, results)
  | event :: events =>
      let continue (results : list (result (list LogMeta.t)))
          : M Server.t (loopExit * list (result (list LogMeta.t))) :=
        let* again := gets shouldReselectLoop in
        if again then ret (loopReselect, results)
        else
          let* r := gets role in
          if negb (ServerRole_eqb r Leader) then ret (loopRoleChanged, results)
          else leaderSelect events results in
      let apply (fuel : nat) (commitIndex : N)
          : M Server.t (loopExit * list (result (list LogMeta.t))) :=
        λ s, match commitAndApply fuel commitIndex s with
             | None => Returns ((loopApplyOutOfFuel, results), s)
             | Some (Crashes f) => Crashes f
             | Some (Returns (_, s')) => continue results s'
             end in
      let append (bodies : list LogBody.t)
          : M Server.t (loopExit * list (result (list LogMeta.t))) :=
        let* r := appendLogs bodies in
        continue (results ++ [r]) in
      match event with
      | leaderCommitCh fuel commitIndex => apply fuel commitIndex
      | leaderCommitChHead fuel =>
          λ s, match takeCommitCh s with
               | None => Returns ((loopAwaiting, results), s)
               | Some (commitIndex, s') => apply fuel commitIndex s'
               end
      | leaderConfCh c =>
          exec modify (alterConfiguration c) in
          exec modify reselectLoop in
          continue results
      | leaderLogOpsCh bodies => append bodies
      | leaderLogOpsChHead =>
          λ s, match takeLogOpsCh s with
               | None => Returns ((loopAwaiting, results), s)
               | Some (bodies, s') => append bodies s'
               end
      | leaderLogOpsChTrim type Trim =>
          exec (match type with
                | logProviderTrimPrefix | logProviderTrimSuffix => Trim
                | logProviderTrimOther => ret tt
                end) in
          continue results
      | leaderLogOpsChUnknown => continue results
      | leaderLogRestoreCh Restore =>
          exec Restore in
          continue results
      | leaderRPC => continue results
      | leaderShutdownCh => ret (loopShutDown, results)
      | leaderStateMachineSnapshotCh Snapshot =>
          exec Snapshot in
          continue results
      | leaderStepdownCh term =>
          (* We'll update the leader in other loops *)
          exec stepdownFollower nilPeer in
          exec modify (alterTerm term) in
          ret (loopSteppedDown, results)
      | leaderSnapshotRestoreCh Stop Restore =>
          exec Stop in
          exec Restore in
          continue results
      | leaderHandlerRuns rpc =>
          let* _ := handleRPC rpc in
          leaderSelect events results
      end
  end.

(** The [for s.role() == Leader { select ... }] loop. *)
Definition leaderLoop (events : list leaderEvent)
    (results : list (result (list LogMeta.t)))
    : M Server.t (loopExit * list (result (list LogMeta.t))) :=
  let* r := gets role in
  if negb (ServerRole_eqb r Leader) then ret (loopRoleChanged, results)
  else leaderSelect events results.

Definition runLoopLeader (events : list leaderEvent)
    : M Server.t (loopExit * list (result (list LogMeta.t))) :=
  leaderLoop events [].

(** What one iteration of the main loop receives, whichever role loop it
    enters; for the candidate loop, the events ahead of and behind the
    server's own vote response. *)
Record iteration := mkIteration {
  whenLeader : list leaderEvent;
  whenCandidate : list candidateEvent * list candidateEvent;
  whenFollower : list followerEvent }.

Inductive mainLoopExit :=
  | mainShutDown
  | mainWaiting
  | mainRunning.

(** [runMainLoop]: [for !s.shutdownState() { s.resetReselectLoop(); switch
    s.role() { ... } }].  The shutdown state is set by [internalShutdown],
    which a role loop calls before it returns on the shutdown channel.  A
    role loop whose [select] has received everything listed for it is
    waiting ([mainWaiting]); [mainRunning] is the loop about to start an
    iteration that is not listed. *)
Fixpoint runMainLoop (iterations : list iteration)
    (results : list (result (list LogMeta.t)))
    : M Server.t (mainLoopExit * list (result (list LogMeta.t))) :=
  match iterations with
  | [] => ret (mainRunning, results)
  | it :: iterations =>
      exec modify resetReselectLoop in
      let* r := gets role in
      match r with
      | Leader =>
          let* out := runLoopLeader (whenLeader it) in
          match fst out with
          | loopShutDown => ret (mainShutDown, results ++ snd out)
          | loopApplyOutOfFuel | loopAwaiting => ret (mainWaiting, results ++ snd out)
          | _ => runMainLoop iterations (results ++ snd out)
          end
      | Candidate =>
          let* exit := runLoopCandidate (fst (whenCandidate it))
                         (snd (whenCandidate it)) in
          match exit with
          | shutDown => ret (mainShutDown, results)
          | applyOutOfFuel | awaiting _ _ => ret (mainWaiting, results)
          | _ => runMainLoop iterations results
          end
      | Follower =>
          let* out := runLoopFollower (whenFollower it) in
          match fst out with
          | loopShutDown => ret (mainShutDown, results ++ snd out)
          | loopApplyOutOfFuel | loopAwaiting => ret (mainWaiting, results ++ snd out)
          | _ => runMainLoop iterations (results ++ snd out)
          end
      end
  end.

End Raft.

(** ** The key-value state machine of the [kv] command *)

Module KV.

Inductive CommandType := CommandSet | CommandUnset | CommandOther.

Module Command.
Record t := mk { Type_ : CommandType; Key : string; Value : list byte }.
End Command.

Module StateMachine.
Record t := mk {
  index : N;
  term : N;
  states : gmap string (list byte) }.
End StateMachine.

Definition NewStateMachine : StateMachine.t := StateMachine.mk 0 0 ∅.

Module KVSMSnapshot.
Record t := mk {
  index : N;
  term : N;
  keyValues : gmap string (list byte) }.
End KVSMSnapshot.

(** [append(([]byte)(nil), value...)] *)
Definition copyBytes (value : list byte) : list byte := [] ++ value.

(** The [for key, value := range m.states] loop that fills a fresh map
    with copies of the values. *)
Definition copyStates (states : gmap string (list byte)) : gmap string (list byte) :=
  map_fold (λ key value keyValues, <[key := copyBytes value]> keyValues) ∅ states.

(** [Keys]: Go iterates a map in an unspecified order; the model lists the
    keys in the order of the map's bindings. *)
Definition Keys (m : StateMachine.t) : list string :=
  (map_to_list (StateMachine.states m)).*1.

(** [Value]: the value and whether the key is present; a missing key gives
    the nil slice. *)
Definition Value (key : string) (m : StateMachine.t) : list byte * bool :=
  match StateMachine.states m !! key with
  | Some v => (v, true)
  | None => ([], false)
  end.

(** [KVSMSnapshot.Index] and [KVSMSnapshot.Term]. *)
Definition Index (s : KVSMSnapshot.t) : N := KVSMSnapshot.index s.
Definition Term (s : KVSMSnapshot.t) : N := KVSMSnapshot.term s.

Section Codec.

(** [DecodeCommand] of the [kv] command and the msgpack codec
    ([codec.NewEncoder(...).Encode], [codec.NewDecoder(...).Decode]) are
    outside the given sources. *)
Context (DecodeCommand : list byte → Command.t).
Context (msgpack_Encode : gmap string (list byte) → result (list byte)).
Context (msgpack_Decode : list byte → result (gmap string (list byte))).

Definition Apply (command : list byte) (m : StateMachine.t) : StateMachine.t :=
  let cmd := DecodeCommand command in
  match Command.Type_ cmd with
  | CommandSet =>
      StateMachine.mk (StateMachine.index m) (StateMachine.term m)
        (<[Command.Key cmd := Command.Value cmd]> (StateMachine.states m))
  | CommandUnset =>
      StateMachine.mk (StateMachine.index m) (StateMachine.term m)
        (delete (Command.Key cmd) (StateMachine.states m))
  | CommandOther => m
  end.

Definition KeyValues (m : StateMachine.t) : gmap string (list byte) :=
  copyStates (StateMachine.states m).

Definition Snapshot (m : StateMachine.t) : result KVSMSnapshot.t :=
  let keyValues := copyStates (StateMachine.states m) in
  Ok (KVSMSnapshot.mk (StateMachine.index m) (StateMachine.term m) keyValues).




(** [StateMachine.Restore]; [snapshotReader] is what [snapshot.Reader()]
    returned: the bytes to read, or an error. *)
Definition Restore (snapshotReader : result (list byte)) (m : StateMachine.t)
    : option error * StateMachine.t :=
  match snapshotReader with
  | Err err => (Some err, m)
  | Ok bytes =>
      match msgpack_Decode bytes with
      | Err err => (Some err, m)
      | Ok keyValues =>
          (None, StateMachine.mk (StateMachine.index m) (StateMachine.term m) keyValues)
      end
  end.

End Codec.

End KV.

(** ** The gRPC transport *)

(** [sync.RWMutex], as goroutines that run one after the other see it: the
    number of read locks held and whether the write lock is held. *)
Module RWMutex.
Record t := mk { readers : nat; writer : bool }.
Definition unlocked : t := mk 0 false.
End RWMutex.

Module GRPCTransport.

(** A connected client; [target] is the endpoint its connection was dialed
    to ([conn.Target()]). *)
Record grpcTransClient := mkClient { target : string }.

Record t := mk {
  clients : gmap string grpcTransClient;
  clientsMu : RWMutex.t;
  (** the targets of the connections closed so far, oldest first *)
  closed : list string;
  (** the number of [grpc.Dial] calls so far *)
  dials : nat }.

Definition with_clients (v : gmap string grpcTransClient) (x : t) : t :=
  mk v (clientsMu x) (closed x) (dials x).
Definition with_clientsMu (v : RWMutex.t) (x : t) : t :=
  mk (clients x) v (closed x) (dials x).
Definition with_closed (v : list string) (x : t) : t :=
  mk (clients x) (clientsMu x) v (dials x).
Definition with_dials (v : nat) (x : t) : t :=
  mk (clients x) (clientsMu x) (closed x) v.

(** How a call on the transport goes on: it returns, it ends in a fatal
    error, or it waits for [clientsMu] (for ever, when no goroutine is left
    to release the lock). *)
Inductive Run (A : Type) :=
  | Returned (a : A) (x : t)
  | Fatal (msg : string)
  | Blocked.
Arguments Returned {A} a x.
Arguments Fatal {A} msg.
Arguments Blocked {A}.

Definition T (A : Type) : Type := t → Run A.

#[export] Instance T_ret : MRet T := λ A a x, Returned a x.
#[export] Instance T_bind : MBind T :=
  λ A B k m x, match m x with
               | Returned a x' => k a x'
               | Fatal msg => Fatal msg
               | Blocked => Blocked
               end.

Definition inspect {A} (f : t → A) : T A := λ x, Returned (f x) x.
Definition update (f : t → t) : T unit := λ x, Returned tt (f x).

(** *** [clientsMu] *)

Definition RLock : T unit :=
  λ x, let mu := clientsMu x in
       if RWMutex.writer mu then Blocked
       else Returned tt (with_clientsMu (RWMutex.mk (S (RWMutex.readers mu)) false) x).

Definition RUnlock : T unit :=
  λ x, let mu := clientsMu x in
       match RWMutex.readers mu with
       | O => Fatal "sync: RUnlock of unlocked RWMutex"
       | S n => Returned tt (with_clientsMu (RWMutex.mk n (RWMutex.writer mu)) x)
       end.

Definition Lock : T unit :=
  λ x, let mu := clientsMu x in
       if RWMutex.writer mu || (0 <? RWMutex.readers mu)%nat then Blocked
       else Returned tt (with_clientsMu (RWMutex.mk 0 true) x).

Definition Unlock : T unit :=
  λ x, let mu := clientsMu x in
       if RWMutex.writer mu
       then Returned tt (with_clientsMu (RWMutex.mk (RWMutex.readers mu) false) x)
       else Fatal "sync: Unlock of unlocked RWMutex".

Section Transport.

(** [grpc.Dial] is an external call: [grpc_Dial n endpoint] is the error
    (if any) of the call number [n] of this transport.  [isErrShutdown] is
    the test [err == rpc.ErrShutdown]. *)
Context (grpc_Dial : nat → string → option error).
Context (isErrShutdown : error → bool).

Definition connectLocked (peer : Peer.t) : T (option error) :=
  found ← inspect (λ x, clients x !! Peer.Id peer);
  match found with
  | Some _ => mret None
  | None =>
      n ← inspect dials;
      update (with_dials (S n));;
      match grpc_Dial n (Peer.Endpoint peer) with
      | Some err => mret (Some err)
      | None =>
          update (λ x, with_clients
                         (<[Peer.Id peer := mkClient (Peer.Endpoint peer)]> (clients x)) x);;
          mret None
      end
  end.

Definition disconnectLocked (peer : Peer.t) : T unit :=
  found ← inspect (λ x, clients x !! Peer.Id peer);
  match found with
  | Some client =>
      update (λ x, with_clients (delete (Peer.Id peer) (clients x)) x);;
      update (λ x, with_closed (closed x ++ [target client]) x)
  | None => mret tt
  end.

(** [tryClient]: the code behind the label [retryClient], on fuel for the
    [goto]s.  [fn] is the callback: [fn n client v] is the error of its call
    number [n] and what it leaves in the variables [v] it has captured.
    The result is the error, the number of calls of [fn] and the captured
    variables; [None] is "fuel exhausted". *)
Fixpoint retryClient {V : Type} (fuel : nat) (peer : Peer.t)
    (fn : nat → grpcTransClient → V → option error * V)
    (retryState : Z) (lastErr : option error) (calls : nat) (v : V)
    : T (option (option error * nat * V)) :=
  match fuel with
  | O => mret None
  | S fuel =>
      if (0 <? retryState)%Z then mret (Some (lastErr, calls, v))
      else
        let retryState := (retryState + 1)%Z in
        let tryCall (client : grpcTransClient) : T (option (option error * nat * V)) :=
          let called := fn calls client v in
          match fst called with
          | Some err =>
              if isErrShutdown err then
                Lock;;
                (* Disconnect current client *)
                disconnectLocked peer;;
                (* And try to connect it again *)
                connected ← connectLocked peer;
                match connected with
                | Some err' => Unlock;; mret (Some (Some err', S calls, snd called))
                | None =>
                    Unlock;;
                    retryClient fuel peer fn retryState (Some err) (S calls) (snd called)
                end
              else mret (Some (Some err, S calls, snd called))
          | None => mret (Some (None, S calls, snd called))
          end in
        RLock;;
        found ← inspect (λ x, clients x !! Peer.Id peer);
        RUnlock;;
        match found with
        | Some client => tryCall client
        | None =>
            (* Check if the client is unset *)
            Lock;;
            (* Check again to ensure the client is unset *)
            found ← inspect (λ x, clients x !! Peer.Id peer);
            match found with
            | Some client => Unlock;; tryCall client
            | None =>
                connected ← connectLocked peer;
                match connected with
                | Some err => Unlock;; mret (Some (Some err, calls, v))
                | None =>
                    Unlock;;
                    retryClient fuel peer fn retryState
                      (Some (errors_New "client not connected")) calls v
                end
            end
        end
  end.

Definition tryClient {V : Type} (peer : Peer.t)
    (fn : nat → grpcTransClient → V → option error * V) (v : V)
    : T (option (option error * nat * V)) :=
  retryClient 3 peer fn (-1)%Z None 0 v.

(** [GRPCTransport.ApplyLog]: [client_ApplyLog n client] is what the call
    number [n] of [c.client.ApplyLog(ctx, request)] returns; the callback
    stores a response in the captured variable [response]. *)
Definition ApplyLog (client_ApplyLog : nat → grpcTransClient → result ApplyLogResponse.t)
    (peer : Peer.t) : T (option (option ApplyLogResponse.t * option error)) :=
  out ← tryClient peer
          (λ n c response,
             match client_ApplyLog n c with
             | Err err => (Some err, response)
             | Ok r => (None, Some r)
             end) None;
  match out with
  | Some (err, _, response) => mret (Some (GRPCTransport_ApplyLog err response))
  | None => mret None
  end.

(** [Connect]; the early [return nil] leaves without [RUnlock]. *)
Definition Connect (peer : Peer.t) : T (option error) :=
  RLock;;
  found ← inspect (λ x, clients x !! Peer.Id peer);
  match found with
  | Some _ => mret None
  | None =>
      RUnlock;;
      Lock;;
      err ← connectLocked peer;
      Unlock;;
      mret err
  end.

Definition Disconnect (peer : Peer.t) : T unit :=
  Lock;;
  found ← inspect (λ x, clients x !! Peer.Id peer);
  match found with
  | Some client =>
      update (λ x, with_clients (delete (Peer.Id peer) (clients x)) x);;
      update (λ x, with_closed (closed x ++ [target client]) x)
  | None => mret tt
  end;;
  Unlock.

(** [DisconnectAll]; the connections are closed in the order of the map's
    bindings (Go's iteration order is unspecified). *)
Definition DisconnectAll : T unit :=
  Lock;;
  update (λ x, with_closed (closed x ++ (target <$> (map_to_list (clients x)).*2)) x);;
  update (with_clients ∅);;
  Unlock.

End Transport.

End GRPCTransport.

(** ** Concrete servers and requests used by the examples *)

Module Examples.

(** A protobuf codec that rejects every configuration payload and encodes
    every configuration as the empty message; the examples carry command
    entries only. *)
Definition proto_Unmarshal : list byte → result Configuration.t :=
  λ _, Err (errors_New "proto: cannot parse invalid wire-format data").
Definition proto_Marshal : Configuration.t → result (list byte) := λ _, Ok [].

Definition peerA : Peer.t := Peer.mk "A" "10.0.0.1:5000".
Definition peerB : Peer.t := Peer.mk "B" "10.0.0.2:5000".
Definition peerC : Peer.t := Peer.mk "C" "10.0.0.3:5000".

(** The stable configuration {A, B, C}, appended at index 1. *)
Definition clusterABC : configuration.t :=
  configuration.mk (config.mk [peerA; peerB; peerC]) None 1.

Definition command (b : byte) : LogBody.t := LogBody.mk LogType_COMMAND [b].
Definition entry (index term : N) (b : byte) : Log.t :=
  Log.mk (LogMeta.mk index term) (command b).

(** A server of the cluster {A, B, C} whose index state agrees with its
    store. *)
Definition server (peer : Peer.t) (r : ServerRole) (term : N) (vote : voteSummary.t)
    (leader : option Peer.t) (store : list Log.t) (commitIndex : N)
    (lastApplied : LogMeta.t) : Server.t :=
  Server.mk (Peer.Id peer) 0 leader
    (serverState.mk r term vote (logStore.FirstIndex store) (logStore.LastIndex store))
    (commitState.mk commitIndex lastApplied)
    (serverChannels.mk [] [])
    (configurationStore.mk clusterABC clusterABC)
    [] store (Peer.Endpoint peer) 0.

Definition noVote : voteSummary.t := voteSummary.mk 0 "".

(** B, a follower at term 2 with an empty log. *)
Definition followerB : Server.t :=
  server peerB Follower 2 noVote None [] 0 (LogMeta.mk 0 0).

(** B, a follower at term 2 that holds entry 1, written in term 2. *)
Definition followerB_oneEntry : Server.t :=
  server peerB Follower 2 noVote None [entry 1 2 "x"] 0 (LogMeta.mk 0 0).

(** A, at term 2, replicates its first entry, written in term 1. *)
Definition replicateOldEntry : AppendEntriesRequest.t :=
  AppendEntriesRequest.mk 2 "A" 0 0 [entry 1 1 "x"] 0.

(** A, a candidate-to-be at term 2 that voted in term 2. *)
Definition candidateA : Server.t :=
  server peerA Candidate 2 (voteSummary.mk 2 "A") None [] 0 (LogMeta.mk 0 0).

(** C, the leader of term 3, sends a heartbeat. *)
Definition heartbeatOfTerm3 : AppendEntriesRequest.t :=
  AppendEntriesRequest.mk 3 "C" 0 0 [] 0.

(** B's answer to A's request for a vote in term 3: not granted. *)
Definition rejectionFromB : RequestVoteResponse.t := RequestVoteResponse.mk "B" 3 false.

(** B, a follower at term 2 that voted for A in term 2. *)
Definition votedForA : Server.t :=
  server peerB Follower 2 (voteSummary.mk 2 "A") None [] 0 (LogMeta.mk 0 0).


(** C asks B for its vote in term 3. *)
Definition voteRequestFromC : RequestVoteRequest.t := RequestVoteRequest.mk 3 "C" 0 0.

(** B, just created: a follower of term 0 that has recorded no vote, with
    an empty log. *)
Definition freshB : Server.t :=
  server peerB Follower 0 noVote None [] 0 (LogMeta.mk 0 0).

(** A, candidate of term 1 with an empty log, asks for a vote. *)
Definition firstVoteRequest : RequestVoteRequest.t := RequestVoteRequest.mk 1 "A" 0 0.

(** A, for which B voted in term 2, asks for a vote in term 3. *)
Definition nextTermVoteRequest : RequestVoteRequest.t := RequestVoteRequest.mk 3 "A" 0 0.

(** B, a follower that knows A as the leader, and one that knows C. *)
Definition followerOfA : Server.t :=
  server peerB Follower 2 noVote (Some peerA) [] 0 (LogMeta.mk 0 0).
Definition followerOfC : Server.t :=
  server peerB Follower 2 noVote (Some peerC) [] 0 (LogMeta.mk 0 0).

Definition applyRequest : ApplyLogRequest.t := ApplyLogRequest.mk (command "x").

(** B with two entries written in term 2, both committed and applied. *)
Definition followerB_applied2 : Server.t :=
  server peerB Follower 2 noVote (Some peerA) [entry 1 2 "x"; entry 2 2 "y"] 2
    (LogMeta.mk 2 2).

(** B, a follower at term 2 that holds five entries of term 2, none of
    them committed. *)
Definition followerB_fiveEntries : Server.t :=
  server peerB Follower 2 noVote (Some peerA)
    [entry 1 2 "a"; entry 2 2 "b"; entry 3 2 "c"; entry 4 2 "d"; entry 5 2 "e"]
    0 (LogMeta.mk 0 0).

(** Two heartbeats of A behind entry 5, with commit index 5 and with
    commit index 3. *)
Definition heartbeatCommit5 : AppendEntriesRequest.t :=
  AppendEntriesRequest.mk 2 "A" 5 2 [] 5.
Definition heartbeatCommit3 : AppendEntriesRequest.t :=
  AppendEntriesRequest.mk 2 "A" 5 2 [] 3.


(** A well-formed request: entries 1 and 2 of term 2 after index 0. *)
Definition twoEntries : AppendEntriesRequest.t :=
  AppendEntriesRequest.mk 2 "A" 0 0 [entry 1 2 "x"; entry 2 2 "y"] 1.

(** A restarted server A whose transport listens on another endpoint than
    the one the configuration lists for it. *)
Definition relocatedA : Server.t :=
  Server.mk "A" 0 None
    (serverState.mk Follower 2 noVote 0 0)
    (commitState.mk 0 (LogMeta.mk 0 0))
    (serverChannels.mk [] [])
    (configurationStore.mk clusterABC clusterABC)
    [] [] "10.0.0.9:5000" 0.

(** A restarted server A listed with its own endpoint. *)
Definition restartedA : Server.t :=
  server peerA Follower 2 noVote None [] 0 (LogMeta.mk 0 0).

(** A MessagePack codec for small maps: a fixmap header, every key a
    fixstr, every value a bin 8.  It instantiates the codec of the
    key-value state machine in the examples. *)
Module Msgpack.
Definition tooLarge : error := errors_New "msgpack: value too large".
Definition malformed : error := errors_New "msgpack: malformed input".






End Msgpack.



(** B after it has handled [twoEntries]. *)
Definition followerB_twoEntries : Server.t :=
  Eval vm_compute in
    match AppendEntries proto_Unmarshal twoEntries followerB with
    | Returns (_, s) => s
    | Crashes _ => followerB
    end.

(** A's next request: entry 2 of term 2 behind its entry (index 1, term 1). *)
Definition replicateNextEntry : AppendEntriesRequest.t :=
  AppendEntriesRequest.mk 2 "A" 1 1 [entry 2 2 "y"] 0.

(** *** Further codecs, servers and requests *)

(** A wire codec for configurations: a peer set is its size followed by
    its peers, a peer its id and its endpoint, a string its length followed
    by its bytes; the next set follows a marker byte.  It instantiates
    [proto.Marshal] and [proto.Unmarshal] where an example needs a payload
    that decodes. *)
Module Wire.
Definition tooLarge : error := errors_New "proto: field too large".
Definition malformed : error := errors_New "proto: cannot parse invalid wire-format data".

Definition encodeString (s : string) : option (list byte) :=
  let bytes := list_byte_of_string s in
  n ← Byte.of_N (N.of_nat (length bytes));
  Some (n :: bytes).

Definition encodePeer (p : Peer.t) : option (list byte) :=
  id ← encodeString (Peer.Id p);
  endpoint ← encodeString (Peer.Endpoint p);
  Some (id ++ endpoint).

Fixpoint encodePeers (peers : list Peer.t) : option (list byte) :=
  match peers with
  | [] => Some []
  | p :: rest =>
      a ← encodePeer p;
      b ← encodePeers rest;
      Some (a ++ b)
  end.

Definition encodeConfig (c : Config.t) : option (list byte) :=
  n ← Byte.of_N (N.of_nat (length (Config.Peers c)));
  body ← encodePeers (Config.Peers c);
  Some (n :: body).

Definition proto_Marshal (c : Configuration.t) : result (list byte) :=
  let next :=
    match Configuration.Next c with
    | Some n => cons x01 <$> encodeConfig n
    | None => Some [x00]
    end in
  match encodeConfig (Configuration.Current c), next with
  | Some a, Some b => Ok (a ++ b)
  | _, _ => Err tooLarge
  end.

Definition decodeString (bytes : list byte) : option (string * list byte) :=
  match bytes with
  | n :: rest =>
      let len := N.to_nat (Byte.to_N n) in
      if (len <=? length rest)%nat
      then Some (string_of_list_byte (take len rest), drop len rest)
      else None
  | [] => None
  end.

Definition decodePeer (bytes : list byte) : option (Peer.t * list byte) :=
  id ← decodeString bytes;
  endpoint ← decodeString (snd id);
  Some (Peer.mk (fst id) (fst endpoint), snd endpoint).

Fixpoint decodePeers (n : nat) (bytes : list byte) : option (list Peer.t * list byte) :=
  match n with
  | O => Some ([], bytes)
  | S n =>
      p ← decodePeer bytes;
      rest ← decodePeers n (snd p);
      Some (fst p :: fst rest, snd rest)
  end.

Definition decodeConfig (bytes : list byte) : option (Config.t * list byte) :=
  match bytes with
  | n :: rest =>
      peers ← decodePeers (N.to_nat (Byte.to_N n)) rest;
      Some (Config.mk (fst peers), snd peers)
  | [] => None
  end.

Definition proto_Unmarshal (bytes : list byte) : result Configuration.t :=
  match decodeConfig bytes with
  | Some (current, [x00]) => Ok (Configuration.mk current None)
  | Some (current, x01 :: rest) =>
      match decodeConfig rest with
      | Some (next, []) => Ok (Configuration.mk current (Some next))
      | _ => Err malformed
      end
  | _ => Err malformed
  end.
End Wire.

(** A, just created: a follower of term 0 with an empty log whose
    configuration store lists no peer. *)
Definition freshA : Server.t :=
  Server.mk "A" 0 None
    (serverState.mk Follower 0 noVote 0 0)
    (commitState.mk 0 (LogMeta.mk 0 0))
    (serverChannels.mk [] [])
    (configurationStore.mk (configuration.mk (config.mk []) None 0)
                           (configuration.mk (config.mk []) None 0))
    [] [] "10.0.0.1:5000" 0.

(** The configuration of A alone, and its encoding. *)
Definition aloneA : Configuration.t := Configuration.mk (Config.mk [peerA]) None.
Definition aloneA_encoded : list byte :=
  Eval vm_compute in
    match Wire.proto_Marshal aloneA with Ok data => data | Err _ => [] end.

(** A after its first call of [Serve]. *)
Definition servedA : Server.t :=
  Eval vm_compute in
    match Serve Wire.proto_Unmarshal Wire.proto_Marshal freshA with
    | Returns (_, s) => s
    | Crashes _ => freshA
    end.

(** A, the leader of term 3, with one entry, committed and applied. *)
Definition leaderA : Server.t :=
  server peerA Leader 3 (voteSummary.mk 3 "A") (Some peerA) [entry 1 3 "x"] 1
    (LogMeta.mk 1 3).

(** B with the entries 1 and 3, but not 2; nothing is applied. *)
Definition followerB_gap : Server.t :=
  server peerB Follower 2 noVote (Some peerA) [entry 1 2 "x"; entry 3 2 "z"] 0
    (LogMeta.mk 0 0).

(** B whose log starts at index 2. *)
Definition followerB_trimmed : Server.t :=
  server peerB Follower 2 noVote (Some peerA) [entry 2 2 "y"] 0 (LogMeta.mk 0 0).

(** A sends its entry 1 of term 2 behind index 0. *)
Definition sendEntry1 : AppendEntriesRequest.t :=
  AppendEntriesRequest.mk 2 "A" 0 0 [entry 1 2 "x"] 0.

(** A configuration body whose payload is no configuration, and the
    request that replicates it as entry 1. *)
Definition brokenConfiguration : LogBody.t := LogBody.mk LogType_CONFIGURATION [xff].
Definition replicateBrokenConfiguration : AppendEntriesRequest.t :=
  AppendEntriesRequest.mk 2 "A" 0 0 [Log.mk (LogMeta.mk 1 2) brokenConfiguration] 0.

(** A batch of a command, the configuration of A alone and a command. *)
Definition reconfigureBatch : list LogBody.t :=
  [command "x"; LogBody.mk LogType_CONFIGURATION aloneA_encoded; command "y"].

(** The entries 1 and 2 of term 2 with commit index 2. *)
Definition twoEntriesCommitted : AppendEntriesRequest.t :=
  AppendEntriesRequest.mk 2 "A" 0 0 [entry 1 2 "x"; entry 2 2 "y"] 2.

(** The answers of A itself and of B in A's election of term 2; B does not
    grant its vote. *)
Definition answersToA : list RequestVoteResponse.t :=
  [RequestVoteResponse.mk "A" 2 true; RequestVoteResponse.mk "B" 2 false].

(** A after the candidate loop in which it received its own response and
    B's rejection. *)
Definition electedA : Server.t :=
  Eval vm_compute in
    match runLoopCandidate proto_Unmarshal proto_Marshal [] [voteResCh rejectionFromB]
            candidateA with
    | Returns (_, s) => s
    | Crashes _ => candidateA
    end.

(** A batch whose first configuration body decodes and whose last one does
    not. *)
Definition mixedBatch : list LogBody.t :=
  [LogBody.mk LogType_CONFIGURATION aloneA_encoded; command "x";
   brokenConfiguration; command "y"].

(** B with the entries 1 and 2 of term 2, none committed or applied. *)
Definition followerB_unapplied : Server.t :=
  server peerB Follower 2 noVote (Some peerA) [entry 1 2 "x"; entry 2 2 "y"] 0
    (LogMeta.mk 0 0).

(** C, the leader of term 2, sends a heartbeat; A, a candidate of term 2,
    handles it. *)
Definition heartbeatFromC : AppendEntriesRequest.t :=
  AppendEntriesRequest.mk 2 "C" 0 0 [] 0.
Definition candidateA_heartbeat : Server.t :=
  Eval vm_compute in
    match AppendEntries proto_Unmarshal heartbeatFromC candidateA with
    | Returns (_, s) => s
    | Crashes _ => candidateA
    end.

(** A heartbeat of the stale term 1. *)
Definition staleHeartbeat : AppendEntriesRequest.t :=
  AppendEntriesRequest.mk 1 "A" 0 0 [] 0.

(** Two passes of the main loop: in the first the follower timer fires, in
    the second nothing arrives. *)
Definition timerFires : iteration := mkIteration [] ([], []) [followerTimer].
Definition nothingArrives : iteration := mkIteration [] ([], []) [].

(** A transport with no client, one connected to A, and a [grpc.Dial] that
    never fails; [rpc.ErrShutdown] is told by its text. *)
Definition grpc_Dial : nat → string → option error := λ _ _, None.
Definition isErrShutdown (err : error) : bool :=
  match err with
  | errors_New text => String.eqb text "connection is shut down"
  | _ => false
  end.
Definition transport : GRPCTransport.t :=
  GRPCTransport.mk ∅ RWMutex.unlocked [] 0.
Definition transportToA : GRPCTransport.t :=
  GRPCTransport.mk (<["A" := GRPCTransport.mkClient "10.0.0.1:5000"]> ∅)
    RWMutex.unlocked [] 1.

(** A callback that fails once with [rpc.ErrShutdown] and then succeeds; it
    captures nothing. *)
Definition failsOnce (n : nat) (c : GRPCTransport.grpcTransClient) (v : unit)
    : option error * unit :=
  match n with
  | O => (Some (errors_New "connection is shut down"), v)
  | S _ => (None, v)
  end.

(** The leader's client answers every [ApplyLog] call with the entry's
    index and term. *)
Definition client_ApplyLog (n : nat) (c : GRPCTransport.grpcTransClient)
    : result ApplyLogResponse.t :=
  Ok (ApplyLogResponse.mk (Some (ApplyLogResponse_Meta (LogMeta.mk 2 3)))).

End Examples.

(** * Vocabulary of the statements *)

(** The definitions below are used to state and prove the properties: the
    runs of vote events, the steps of the AppendEntries handler written as
    state transformers, and the view of a contiguous log. *)

Section Vocabulary.

Context (proto_Unmarshal : list byte → result Configuration.t).

(** The event with the [Granted] field of a vote response forced to true. *)
Definition forgetGranted (event : candidateEvent) : candidateEvent :=
  match event with
  | voteResCh response =>
      voteResCh (RequestVoteResponse.mk (RequestVoteResponse.ServerId response)
                   (RequestVoteResponse.Term response) true)
  | _ => event
  end.

(** The two fatal branches of [Serve] on a restored cluster. *)
Definition panicNotInPeerList : Fault :=
  Panicw "the server is not in the latest configuration's peer list".

Definition panicSameIdOtherEndpoint : Fault :=
  Panicw "confusing condition: two servers have the same ID but different endpoints".

(** The candidate's log is at least as up-to-date as the local one. *)
Definition candidateUpToDate (request : RequestVoteRequest.t) (store : list Log.t) : Prop :=
  fst (logStore.LastTermIndex store) < RequestVoteRequest.LastLogTerm request
  ∨ (RequestVoteRequest.LastLogTerm request = fst (logStore.LastTermIndex store)
     ∧ snd (logStore.LastTermIndex store) ≤ RequestVoteRequest.LastLogIndex request).

(** What changes the vote of a server: a vote request it handles, or the
    start of an election of its own. *)
Inductive voteEvent :=
  | incomingRequestVote (request : RequestVoteRequest.t)
  | electionStart.




(** The votes a server gives along a run, oldest first, each as the term
    the vote is for and the candidate: for a request answered
    [Granted = true], the term and the candidate of the request; for an
    election start, the new term and the server itself. *)
Fixpoint grantedVotes (events : list voteEvent) (s : Server.t) : list (N * string) :=
  match events with
  | [] => []
  | incomingRequestVote request :: events =>
      match RequestVote request s with
      | Returns (response, s') =>
          (if RequestVoteResponse.Granted response
           then [(RequestVoteRequest.Term request, RequestVoteRequest.CandidateId request)]
           else [])
          ++ grantedVotes events s'
      | Crashes _ => []
      end
  | electionStart :: events =>
      match startElection s with
      | Returns (_, s') => (currentTerm s', Server.id s') :: grantedVotes events s'
      | Crashes _ => []
      end
  end.

(** The request asks for a vote in a later term than the current one while
    the vote recorded for the current term names its candidate: the handler
    answers it from the recorded vote, before it looks at the request's
    term. *)
Definition laterTermOfRecordedCandidate (request : RequestVoteRequest.t) (s : Server.t)
    : Prop :=
  currentTerm s < RequestVoteRequest.Term request
  ∧ currentTerm s ≤ voteSummary.term (lastVoteSummary s)
  ∧ RequestVoteRequest.CandidateId request = voteSummary.candidate (lastVoteSummary s).



(** The state [appendLogs] leaves when the configuration payload (if any)
    decodes: the entries are in the store, the index state is refreshed and
    a decoded configuration is the latest one. *)
Definition appendLogs_done (conf : option configuration.t) (logs : list Log.t)
    (s : Server.t) : Server.t :=
  let s1 := Server.with_logStore (logStore.AppendLogs (Server.logStore s) logs) s in
  let s2 := setFirstLogIndex (logStore.FirstIndex (Server.logStore s1)) s1 in
  let s3 := setLastLogIndex (logStore.LastIndex (Server.logStore s2)) s2 in
  match conf with
  | Some c => reselectLoop (alterConfiguration c s3)
  | None => s3
  end.

(** The configuration [appendLogs] decodes from the last configuration
    body of the batch. *)
Definition appendLogs_decoded (logs : list Log.t) : result (option configuration.t) :=
  match logs !! lastConfArrayIndex_from 0 logs (length logs) with
  | Some log =>
      match proto_Unmarshal (LogBody.Data (Log.Body log)) with
      | Err err => Err err
      | Ok pbConfiguration =>
          Ok (Some (newConfiguration pbConfiguration (LogMeta.Index (Log.Meta log))))
      end
  | None => Ok None
  end.

(** The state after the leader pointer was updated (step 2 of the
    handler). *)
Definition AppendEntries_leader (request : AppendEntriesRequest.t) (s : Server.t) : Server.t :=
  if negb (String.eqb (Peer.Id (Leader_ s)) (AppendEntriesRequest.LeaderId request))
  then alterLeader (configuration.Peer (confStore_Latest s)
                      (AppendEntriesRequest.LeaderId request)) s
  else s.

(** The state after a higher term was adopted (step 3). *)
Definition AppendEntries_term (request : AppendEntriesRequest.t) (s : Server.t) : Server.t :=
  if currentTerm s <? AppendEntriesRequest.Term request then
    alterTerm (AppendEntriesRequest.Term request)
      (if negb (ServerRole_eqb (role s) Follower)
       then setRole Follower
              (setLeader (configuration.Peer (confStore_Latest s)
                            (AppendEntriesRequest.LeaderId request)) s)
       else s)
  else s.

(** The previous-log check (step 4). *)
Definition prevLogMismatch (request : AppendEntriesRequest.t) (store : list Log.t) : bool :=
  if 0 <? AppendEntriesRequest.PrevLogIndex request then
    match logStore.Entry store (AppendEntriesRequest.PrevLogIndex request) with
    | None => true
    | Some requestPrevLog =>
        negb (AppendEntriesRequest.PrevLogTerm request =? logStore.termOf requestPrevLog)
    end
  else false.

(** The commit trigger (step 6). *)
Definition AppendEntries_commit (request : AppendEntriesRequest.t) (s : Server.t) : Server.t :=
  if commitIndex s <? AppendEntriesRequest.LeaderCommit request
  then alterCommitIndex (AppendEntriesRequest.LeaderCommit request) s
  else s.

(** The entries of [l] carry the consecutive indices [i], [i + 1], ... *)
Definition indexed_from (i : N) (l : list Log.t) : Prop :=
  ∀ (k : nat) (e : Log.t), l !! k = Some e → logStore.indexOf e = i + N.of_nat k.

(** The number of leading positions at which the local entries [B] and the
    incoming entries [es] carry the same term. *)
Fixpoint matchLen (B es : list Log.t) : nat :=
  match B, es with
  | b :: B', e :: es' =>
      if logStore.termOf b =? logStore.termOf e then S (matchLen B' es') else 0%nat
  | _, _ => 0%nat
  end.

(** [body.Type == pb.LogType_CONFIGURATION] *)
Definition isConfiguration (body : LogBody.t) : bool :=
  match LogBody.Type_ body with
  | LogType_CONFIGURATION => true
  | LogType_COMMAND => false
  end.

(** The bodies the handler hands to [appendLogs]. *)
Definition bodiesOf (es : list Log.t) : list LogBody.t :=
  (λ e, LogBody.Copy (Log.Body e)) <$> es.

(** [appendLogs] accepts a batch when it has no configuration body or its
    last configuration body decodes. *)
Definition accepted (bodies : list LogBody.t) : bool :=
  match last (List.filter isConfiguration bodies) with
  | Some body =>
      match proto_Unmarshal (LogBody.Data body) with Ok _ => true | Err _ => false end
  | None => true
  end.

(** What the entries phase of the handler leaves untouched. *)
Definition outsideLog (s : Server.t) :=
  (Server.id s, Server.serveFlag s, Server.clusterLeader s, Server.commit s,
   Server.channels s, Server.stateMachine s, Server.trans s,
   role s, currentTerm s, lastVoteSummary s).

(** The store is [A ++ B] and the server's last log index is that of the
    store, [B] starting right behind index [p]. *)
Definition logView (A B : list Log.t) (p : N) (s : Server.t) : Prop :=
  Server.logStore s = A ++ B ∧ lastLogIndex s = p + N.of_nat (length B).

(** [A] holds the entries up to index [p] (none when [p = 0]). *)
Definition prefixUpTo (A : list Log.t) (p : N) : Prop :=
  Forall (λ e, logStore.indexOf e ≤ p) A ∧ logStore.LastIndex A = p.

(** Some incoming entry finds, at its index, a stored entry of another
    term: the case in which the handler truncates the store. *)
Definition termConflict (es store : list Log.t) : bool :=
  existsb (λ e, match logStore.Entry store (logStore.indexOf e) with
                | Some local => negb (logStore.termOf local =? logStore.termOf e)
                | None => false
                end) es.

(** The part of the log behind index [p] after the handler has handled the
    incoming entries [es] (which start at index [p + 1] and conflict with no
    entry of [B]) on a server of term [T]: the entries beyond [B] are
    appended when [appendLogs] accepts them. *)
Definition appendedLog (accepts : list LogBody.t → bool) (p T : N) (B es : list Log.t)
    : list Log.t :=
  let bodies := bodiesOf (drop (length B) es) in
  if accepts bodies then B ++ newLogs (p + N.of_nat (length B)) T bodies else B.

End Vocabulary.

(** ** Vocabulary of the further properties *)

(** The payloads of the command entries of [store] at the [n] indices [i],
    [i + 1], ..., in index order. *)
Fixpoint commandsFrom (store : list Log.t) (i : N) (n : nat) : list (list byte) :=
  match n with
  | O => []
  | S n' =>
      match logStore.Entry store i with
      | Some log =>
          match LogBody.Type_ (Log.Body log) with
          | LogType_COMMAND => [LogBody.Data (Log.Body log)]
          | LogType_CONFIGURATION => []
          end
      | None => []
      end ++ commandsFrom store (i + 1) n'
  end.

(** The responses that count for the current set and, in a joint
    configuration, for the next set. *)
Definition tally (c : configuration.t) (responses : list RequestVoteResponse.t) : nat * nat :=
  (length (List.filter
             (λ r, config.Contains (configuration.CurrentConfig c)
                     (RequestVoteResponse.ServerId r)) responses),
   length (List.filter
             (λ r, configuration.Joint c
                   && config.Contains (configuration.NextConfig c)
                        (RequestVoteResponse.ServerId r)) responses)).

(** The winning test of the candidate loop. *)
Definition quorumReached (c : configuration.t) (currentVotes nextVotes : nat) : bool :=
  if configuration.Joint c
  then (config.Quorum (configuration.CurrentConfig c) <=? currentVotes)%nat
       && (config.Quorum (configuration.NextConfig c) <=? nextVotes)%nat
  else (config.Quorum (configuration.CurrentConfig c) <=? currentVotes)%nat.

(** The event is a case of the candidate loop's [select] that runs code of
    the given sources only: neither a handler goroutine nor a restore by the
    log provider or the snapshot service. *)
Definition ownCase (event : candidateEvent) : bool :=
  match event with
  | logRestoreCh _ | snapshotRestoreCh _ | handlerRuns _ => false
  | _ => true
  end.

(** The state of a candidate that has won: it is leader and knows itself
    as the leader. *)
Definition becomeLeader (s : Server.t) : Server.t :=
  alterLeader (configuration.Peer (confStore_Latest s) (Server.id s)) (alterRole Leader s).

(** What the apply step never touches. *)
Definition outsideCommit (s : Server.t) :=
  (Server.id s, Server.serveFlag s, Server.clusterLeader s, Server.state s,
   Server.logStore s, Server.trans s, Server.flagReselectLoop s).

Section MachineVocabulary.

Context (DecodeCommand : list byte → KV.Command.t).
Context (msgpack_Decode : list byte → result (gmap string (list byte))).

(** The state machine after the commands were applied in order. *)
Definition applyAll (commands : list (list byte)) (m : KV.StateMachine.t)
    : KV.StateMachine.t :=
  foldl (λ m command, KV.Apply DecodeCommand command m) m commands.

(** The command sets or unsets [key]. *)
Definition writesKey (key : string) (command : list byte) : bool :=
  match KV.Command.Type_ (DecodeCommand command) with
  | KV.CommandSet | KV.CommandUnset =>
      String.eqb (KV.Command.Key (DecodeCommand command)) key
  | KV.CommandOther => false
  end.

(** What the state machine is asked to do: apply a command or restore a
    snapshot. *)
Inductive machineCall :=
  | callApply (command : list byte)
  | callRestore (snapshotReader : result (list byte)).

Definition machineStep (m : KV.StateMachine.t) (call : machineCall) : KV.StateMachine.t :=
  match call with
  | callApply command => KV.Apply DecodeCommand command m
  | callRestore snapshotReader => snd (KV.Restore msgpack_Decode snapshotReader m)
  end.

End MachineVocabulary.

(** * Properties *)

Ltac unfold_M := unfold bind, ret, gets, get, modify, crash in *.

(** ** Roles *)

Lemma ServerRole_eqb_eq (a b : ServerRole) : ServerRole_eqb a b = true ↔ a = b.
Proof. destruct a, b; cbv; split; congruence. Qed.

Lemma ServerRole_eqb_neq (a b : ServerRole) : ServerRole_eqb a b = false ↔ a ≠ b.
Proof. destruct a, b; cbv; split; congruence. Qed.

(** No role ranks below [Follower]: [stepdownFollower] never panics. *)
Lemma stepdownFollower_returns (leader : Peer.t) (s : Server.t) :
  stepdownFollower leader s = Returns (tt, setRole Follower (setLeader leader s)).
Proof.
  unfold stepdownFollower. unfold_M.
  destruct (role s); reflexivity.
Qed.

(** ** The candidate loop (C2) *)

Section CandidateLoop.

Context (proto_Unmarshal : list byte → result Configuration.t).
Context (proto_Marshal : Configuration.t → result (list byte)).

Lemma candidateSelect_ignores_Granted (c : configuration.t) (events : list candidateEvent) :
  ∀ (currentVotes nextVotes : nat) (s : Server.t),
    candidateSelect proto_Unmarshal proto_Marshal c events currentVotes nextVotes s
    = candidateSelect proto_Unmarshal proto_Marshal c (map forgetGranted events)
        currentVotes nextVotes s.
Proof.
  induction events as [|event events IH]; intros cv nv s; [reflexivity|].
  cbn [map candidateSelect]. unfold_M.
  assert (∀ cv nv x,
            (if shouldReselectLoop x then λ s0 : Server.t, Returns (reselect, s0)
             else λ s0 : Server.t,
                    (if negb (ServerRole_eqb (role s0) Candidate)
                     then λ s1 : Server.t, Returns (roleChanged, s1)
                     else candidateSelect proto_Unmarshal proto_Marshal c events cv nv) s0) x
            = (if shouldReselectLoop x then λ s0 : Server.t, Returns (reselect, s0)
               else λ s0 : Server.t,
                      (if negb (ServerRole_eqb (role s0) Candidate)
                       then λ s1 : Server.t, Returns (roleChanged, s1)
                       else candidateSelect proto_Unmarshal proto_Marshal c
                              (map forgetGranted events) cv nv) s0) x) as Hcontinue.
  { intros cv' nv' x. destruct (shouldReselectLoop x); [reflexivity|].
    cbv beta. destruct (negb _); [reflexivity|apply IH]. }
  destruct event as [response| |fuel ci|c'| | |fuel|Restore|Restore|rpc];
    cbn [forgetGranted]; try reflexivity.
  - destruct response as [sid term granted]; cbn.
    destruct (currentTerm s <? term); [reflexivity|].
    repeat match goal with
           | |- context [if ?b then _ else _] =>
               lazymatch b with
               | shouldReselectLoop _ => fail
               | negb (ServerRole_eqb _ _) => fail
               | _ => destruct b
               end
           end; try reflexivity; apply Hcontinue.
  - destruct (commitAndApply _ _ fuel ci s) as [[[[] s']|f]|]; try reflexivity.
    apply Hcontinue.
  - apply Hcontinue.
  - destruct (takeCommitCh s) as [[ci s0]|]; [|reflexivity].
    destruct (commitAndApply _ _ fuel ci s0) as [[[[] s']|f]|]; try reflexivity.
    apply Hcontinue.
  - destruct (Restore s) as [[[] s']|f]; [|reflexivity]. apply Hcontinue.
  - destruct (Restore s) as [[[] s']|f]; [|reflexivity]. apply Hcontinue.
  - destruct (handleRPC proto_Unmarshal rpc s) as [[r s']|f]; [|reflexivity]. apply IH.
Qed.

(** The candidate loop never reads [Granted]: a run on responses that were
    not granted ends exactly like the run on the same responses granted. *)
Lemma candidateLoop_ignores_Granted (c : configuration.t) (events : list candidateEvent) :
  ∀ (currentVotes nextVotes : nat) (s : Server.t),
    candidateLoop proto_Unmarshal proto_Marshal c events currentVotes nextVotes s
    = candidateLoop proto_Unmarshal proto_Marshal c (map forgetGranted events)
        currentVotes nextVotes s.
Proof.
  intros cv nv s. unfold candidateLoop. unfold_M.
  destruct (negb (ServerRole_eqb (role s) Candidate)); [reflexivity|].
  apply candidateSelect_ignores_Granted.
Qed.

End CandidateLoop.

(** C2 (the code departs from the claim).  Candidate A of the cluster
    {A, B, C} starts the election for term 3; it receives its own response
    and then B's response with [Granted = false].  The loop counts both, the
    tally reaches the quorum of 2, and A becomes leader of term 3 although
    only one vote (its own) was granted. *)
Theorem candidate_wins_with_a_rejected_vote :
  ∃ s',
    runLoopCandidate Examples.proto_Unmarshal Examples.proto_Marshal
      [] [voteResCh Examples.rejectionFromB] Examples.candidateA
    = Returns (wonElection, s')
    ∧ role s' = Leader
    ∧ currentTerm s' = 3
    ∧ config.Quorum (configuration.CurrentConfig (confStore_Latest Examples.candidateA)) = 2%nat
    ∧ RequestVoteResponse.Granted Examples.rejectionFromB = false.
Proof. eexists. repeat split; vm_compute; reflexivity. Qed.

(** ** ApplyLog on a non-leader (C6) *)

(** C6 (counterexample).  Two followers that know different leaders, A and
    C, both answer the same reply: the reply does not tell the leader. *)
Lemma ApplyLog_reply_hides_the_leader :
  role Examples.followerOfA ≠ Leader
  ∧ role Examples.followerOfC ≠ Leader
  ∧ Peer.Id (Leader_ Examples.followerOfA) = "A"
  ∧ Peer.Id (Leader_ Examples.followerOfC) = "C"
  ∧ (∀ applyResult response1 response2 s1 s2,
       ApplyLog applyResult Examples.applyRequest Examples.followerOfA = Returns (response1, s1) →
       ApplyLog applyResult Examples.applyRequest Examples.followerOfC = Returns (response2, s2) →
       response1 = response2).
Proof.
  repeat split; try discriminate.
  intros applyResult response1 response2 s1 s2 H1 H2.
  vm_compute in H1, H2. congruence.
Qed.

(** C6 (amended).  On a server whose role is not Leader, [ApplyLog] replies
    the fixed NonLeader error text and leaves the server unchanged; the
    reply is the same whatever leader the server knows. *)
Theorem ApplyLog_non_leader (applyResult : result LogMeta.t)
    (request : ApplyLogRequest.t) (s : Server.t) :
  role s ≠ Leader →
  ApplyLog applyResult request s
  = Returns (ApplyLogResponse.mk (Some (ApplyLogResponse_Error (Error ErrNonLeader))), s)
  ∧ ∀ leader : option Peer.t,
      ApplyLog applyResult request (Server.with_clusterLeader leader s)
      = Returns (ApplyLogResponse.mk (Some (ApplyLogResponse_Error (Error ErrNonLeader))),
                 Server.with_clusterLeader leader s).
Proof.
  intros Hrole. apply ServerRole_eqb_neq in Hrole.
  unfold ApplyLog. unfold_M. split.
  - by rewrite Hrole.
  - intros leader.
    replace (role (Server.with_clusterLeader leader s)) with (role s) by reflexivity.
    by rewrite Hrole.
Qed.

(** The follower of A, asked to apply a command, answers the NonLeader
    error. *)
Lemma ApplyLog_non_leader_witness :
  ApplyLog (Err ErrDeadlineExceeded) Examples.applyRequest Examples.followerOfA
  = Returns (ApplyLogResponse.mk (Some (ApplyLogResponse_Error (Error ErrNonLeader))),
             Examples.followerOfA).
Proof.
  apply (ApplyLog_non_leader (Err ErrDeadlineExceeded) Examples.applyRequest
           Examples.followerOfA).
  vm_compute. discriminate.
Defined.

(** ** Serve on a restored cluster (C9) *)

(** The peer loop of [Serve] stops at the first peer with the server's id. *)
Lemma Serve_checkPeers_first (id endpoint : string) (peers : list Peer.t) :
  Serve_checkPeers id endpoint peers
  = match List.find (λ peer, String.eqb id (Peer.Id peer)) peers with
    | Some peer =>
        if String.eqb endpoint (Peer.Endpoint peer) then Returns tt
        else Crashes panicSameIdOtherEndpoint
    | None => Returns tt
    end.
Proof.
  induction peers as [|peer peers IH]; [reflexivity|].
  cbn [Serve_checkPeers List.find].
  destruct (String.eqb id (Peer.Id peer)); [|exact IH].
  by destruct (String.eqb endpoint (Peer.Endpoint peer)).
Qed.

(** C9 (counterexample).  Server A restarts on another endpoint than the
    one its configuration lists: [Serve] ends in the fatal branch for two
    servers with one id, not in the one for a server missing from the peer
    list. *)
Lemma Serve_relocated_server_other_panic :
  configuration.Peers (confStore_Latest Examples.relocatedA) ≠ []
  ∧ Serve Examples.proto_Unmarshal Examples.proto_Marshal Examples.relocatedA
    = Crashes panicSameIdOtherEndpoint
  ∧ panicSameIdOtherEndpoint ≠ panicNotInPeerList.
Proof. repeat split; vm_compute; discriminate || reflexivity. Qed.

(** C9 (amended).  On the first call of [Serve] with a non-empty peer list
    the server ends in the fatal branch "not in the peer list" also when a
    peer with its id and its endpoint is listed, because [selfRegistered]
    stays false; only when the first peer with the server's id has another
    endpoint, the fatal branch for one id with two endpoints is taken
    first. *)
Theorem Serve_restored_cluster_panics
    (proto_Unmarshal : list byte → result Configuration.t)
    (proto_Marshal : Configuration.t → result (list byte)) (s : Server.t) :
  Server.serveFlag s = 0 →
  configuration.Peers (confStore_Latest s) ≠ [] →
  Serve proto_Unmarshal proto_Marshal s
  = Crashes
      match List.find (λ peer, String.eqb (Server.id s) (Peer.Id peer))
                      (configuration.Peers (confStore_Latest s)) with
      | Some peer =>
          if String.eqb (Server.trans s) (Peer.Endpoint peer)
          then panicNotInPeerList else panicSameIdOtherEndpoint
      | None => panicNotInPeerList
      end.
Proof.
  intros Hflag Hpeers. unfold Serve. unfold_M. rewrite Hflag.
  change (negb (0 =? 0)) with false. cbv beta iota.
  change (confStore_Latest (Server.with_serveFlag 1 s)) with (confStore_Latest s).
  change (Server.id (Server.with_serveFlag 1 s)) with (Server.id s).
  change (Server.trans (Server.with_serveFlag 1 s)) with (Server.trans s).
  generalize dependent (configuration.Peers (confStore_Latest s)).
  intros l Hl. rewrite Serve_checkPeers_first.
  destruct l as [|peer l]; [done|].
  change (0 <? length (peer :: l))%nat with true. cbv iota.
  destruct (List.find _ (peer :: l)) as [p|]; [|reflexivity].
  by destruct (String.eqb (Server.trans s) (Peer.Endpoint p)).
Qed.

(** A, restarted with itself listed under its own endpoint, still ends in
    the fatal branch for a server missing from the peer list. *)
Lemma Serve_restored_cluster_panics_witness :
  Serve Examples.proto_Unmarshal Examples.proto_Marshal Examples.restartedA
  = Crashes panicNotInPeerList.
Proof.
  apply (Serve_restored_cluster_panics Examples.proto_Unmarshal Examples.proto_Marshal
           Examples.restartedA).
  - reflexivity.
  - vm_compute. discriminate.
Defined.

(** ** The proxy path of [Apply] (C10) *)

(** Whatever [tryClient] did, [GRPCTransport.ApplyLog] returns a nil
    response together with a non-nil error. *)
Lemma GRPCTransport_ApplyLog_error_nil_response (tryClient : option error)
    (captured : option ApplyLogResponse.t) (err : error) :
  snd (GRPCTransport_ApplyLog tryClient captured) = Some err →
  GRPCTransport_ApplyLog tryClient captured = (None, Some err).
Proof. destruct tryClient; cbn; congruence. Qed.

(** C10.  On a server that is not the leader, when the transport call
    returns a non-nil error (and, with it, a nil response, as the gRPC
    transport always does), the goroutine of [Apply] first completes the
    future with that error and then, not having returned, reads a field of
    the nil response: it ends in a nil dereference. *)
Theorem Apply_proxy_error_then_nil_dereference
    (internalResult : result (list LogMeta.t))
    (transport : option ApplyLogResponse.t * option error) (err : error) (s : Server.t) :
  role s ≠ Leader →
  snd transport = Some err →
  fst transport = None →
  Apply internalResult transport s
  = ([setResult None (Some err)], Crashes NilDereference).
Proof.
  intros Hrole Herr Hnil. unfold Apply.
  apply ServerRole_eqb_neq in Hrole. rewrite Hrole, Herr, Hnil. reflexivity.
Qed.

(** A follower whose gRPC transport cannot reach the leader. *)
Lemma Apply_proxy_error_then_nil_dereference_witness :
  Apply (Err ErrDeadlineExceeded)
    (GRPCTransport_ApplyLog (Some (errors_New "client not connected")) None)
    Examples.followerOfA
  = ([setResult None (Some (errors_New "client not connected"))], Crashes NilDereference).
Proof.
  apply (Apply_proxy_error_then_nil_dereference (Err ErrDeadlineExceeded)
           (GRPCTransport_ApplyLog (Some (errors_New "client not connected")) None)
           (errors_New "client not connected") Examples.followerOfA).
  - vm_compute. discriminate.
  - reflexivity.
  - by rewrite (GRPCTransport_ApplyLog_error_nil_response
                  (Some (errors_New "client not connected")) None
                  (errors_New "client not connected") eq_refl).
Defined.

(** ** RequestVote (C5, C3) *)

Section RequestVote.

Context (request : RequestVoteRequest.t) (s : Server.t).

(** A stale request is rejected and changes nothing. *)
Lemma RequestVote_stale :
  RequestVoteRequest.Term request < currentTerm s →
  RequestVote request s
  = Returns (RequestVoteResponse.mk (Server.id s) (currentTerm s) false, s).
Proof.
  intros H. unfold RequestVote. unfold_M.
  by apply N.ltb_lt in H as ->.
Qed.

(** With a vote recorded for the current term (the handler's own test:
    the term of the vote summary is not below the current term), the
    answer only compares the candidate, and nothing changes. *)
Lemma RequestVote_voted :
  currentTerm s ≤ RequestVoteRequest.Term request →
  currentTerm s ≤ voteSummary.term (lastVoteSummary s) →
  RequestVote request s
  = Returns (RequestVoteResponse.mk (Server.id s) (currentTerm s)
               (String.eqb (voteSummary.candidate (lastVoteSummary s))
                           (RequestVoteRequest.CandidateId request)), s).
Proof.
  intros Hterm Hvoted. unfold RequestVote. unfold_M.
  apply N.ltb_ge in Hterm as ->. apply N.leb_le in Hvoted as ->.
  by destruct (String.eqb _ _).
Qed.

(** Without such a vote the request term is adopted and the vote depends
    on the logs alone. *)
Lemma RequestVote_not_voted :
  currentTerm s ≤ RequestVoteRequest.Term request →
  voteSummary.term (lastVoteSummary s) < currentTerm s →
  let adopted :=
    if currentTerm s <? RequestVoteRequest.Term request then
      alterTerm (RequestVoteRequest.Term request)
        (if negb (ServerRole_eqb (role s) Follower)
         then setRole Follower (setLeader nilPeer s) else s)
    else s in
  let stale :=
    (RequestVoteRequest.LastLogTerm request <? fst (logStore.LastTermIndex (Server.logStore s)))
    || ((RequestVoteRequest.LastLogTerm request =? fst (logStore.LastTermIndex (Server.logStore s)))
        && (RequestVoteRequest.LastLogIndex request <? snd (logStore.LastTermIndex (Server.logStore s)))) in
  RequestVote request s
  = Returns (RequestVoteResponse.mk (Server.id s) (RequestVoteRequest.Term request) (negb stale),
             if stale then adopted
             else setLastVoteSummary (RequestVoteRequest.Term request)
                    (RequestVoteRequest.CandidateId request) adopted).
Proof.
  intros Hterm Hvote. unfold RequestVote. unfold_M.
  apply N.ltb_ge in Hterm as Hterm'. rewrite Hterm'.
  apply N.leb_gt in Hvote as ->.
  destruct (currentTerm s <? RequestVoteRequest.Term request) eqn:Hadopt.
  - destruct (ServerRole_eqb (role s) Follower) eqn:Hrole; cbn [negb];
      [|rewrite stepdownFollower_returns];
      cbv beta iota;
      cbn [Server.logStore alterTerm setCurrentTerm setRole setLeader
           Server.with_state Server.with_clusterLeader];
      destruct (logStore.LastTermIndex (Server.logStore s)) as [lastTerm lastIndex];
      cbn [fst snd];
      destruct (RequestVoteRequest.LastLogTerm request <? lastTerm),
               (RequestVoteRequest.LastLogTerm request =? lastTerm),
               (RequestVoteRequest.LastLogIndex request <? lastIndex); reflexivity.
  - apply N.ltb_ge in Hadopt.
    assert (RequestVoteRequest.Term request = currentTerm s) as Heq by lia.
    rewrite Heq.
    destruct (logStore.LastTermIndex (Server.logStore s)) as [lastTerm lastIndex];
      cbn [fst snd];
      destruct (RequestVoteRequest.LastLogTerm request <? lastTerm),
               (RequestVoteRequest.LastLogTerm request =? lastTerm),
               (RequestVoteRequest.LastLogIndex request <? lastIndex); reflexivity.
Qed.

End RequestVote.

(** X27.  For a request whose term is not below the current term, on a
    server whose recorded vote is of an earlier term than the current one,
    the vote is granted exactly when the candidate's log is at least as
    up-to-date as the local log; a granted vote is recorded for the
    request's term, a rejected request records nothing. *)
Theorem RequestVote_grants_iff_log_up_to_date
    (request : RequestVoteRequest.t) (s : Server.t) :
  currentTerm s ≤ RequestVoteRequest.Term request →
  voteSummary.term (lastVoteSummary s) < currentTerm s →
  ∃ response s',
    RequestVote request s = Returns (response, s')
    ∧ (RequestVoteResponse.Granted response = true
       ↔ candidateUpToDate request (Server.logStore s))
    ∧ (RequestVoteResponse.Granted response = true →
       lastVoteSummary s'
       = voteSummary.mk (RequestVoteRequest.Term request)
                        (RequestVoteRequest.CandidateId request))
    ∧ (RequestVoteResponse.Granted response = false →
       lastVoteSummary s' = lastVoteSummary s).
Proof.
  intros Hterm Hvote.
  rewrite (RequestVote_not_voted request s Hterm Hvote).
  eexists _, _. split; [reflexivity|]. cbn [RequestVoteResponse.Granted].
  unfold candidateUpToDate.
  destruct (logStore.LastTermIndex _) as [lastTerm lastIndex]. cbn [fst snd].
  destruct (RequestVoteRequest.LastLogTerm request <? lastTerm) eqn:H1;
    destruct (RequestVoteRequest.LastLogTerm request =? lastTerm) eqn:H2;
    destruct (RequestVoteRequest.LastLogIndex request <? lastIndex) eqn:H3;
    cbn [orb andb negb];
    rewrite ?N.ltb_lt, ?N.ltb_ge, ?N.eqb_eq, ?N.eqb_neq in *;
    (split; [split; [intros; try discriminate; lia | intros; try reflexivity; lia]|]);
    (split; [intros; try discriminate; try reflexivity|]);
    intros; try discriminate;
    repeat match goal with
           | |- context [if ?b then _ else _] => destruct b
           end; reflexivity.
Qed.

(** X27 (witness).  B at term 2, whose recorded vote is of term 0, is asked
    by C for term 3. *)
Lemma RequestVote_grants_iff_log_up_to_date_witness :
  ∃ response s',
    RequestVote Examples.voteRequestFromC Examples.followerB = Returns (response, s')
    ∧ (RequestVoteResponse.Granted response = true
       ↔ candidateUpToDate Examples.voteRequestFromC (Server.logStore Examples.followerB))
    ∧ (RequestVoteResponse.Granted response = true →
       lastVoteSummary s'
       = voteSummary.mk (RequestVoteRequest.Term Examples.voteRequestFromC)
                        (RequestVoteRequest.CandidateId Examples.voteRequestFromC))
    ∧ (RequestVoteResponse.Granted response = false →
       lastVoteSummary s' = lastVoteSummary Examples.followerB).
Proof.
  apply (RequestVote_grants_iff_log_up_to_date Examples.voteRequestFromC Examples.followerB).
  - vm_compute. discriminate.
  - reflexivity.
Defined.

(** C5 (the code departs from the claim).  B, just created, is at term 0
    and has recorded no vote (its vote summary is the zero value: term 0, no
    candidate).  A asks for a vote in term 1; both logs are empty, so A's log
    is as up-to-date as B's.  The handler's test for "voted in the current
    term" compares the terms only: 0 <= 0 holds, the request is answered from
    the empty record, and B rejects A without adopting term 1. *)
Theorem RequestVote_fresh_server_rejects_up_to_date_candidate :
  currentTerm Examples.freshB ≤ RequestVoteRequest.Term Examples.firstVoteRequest
  ∧ lastVoteSummary Examples.freshB = voteSummary.mk 0 ""
  ∧ candidateUpToDate Examples.firstVoteRequest (Server.logStore Examples.freshB)
  ∧ RequestVote Examples.firstVoteRequest Examples.freshB
    = Returns (RequestVoteResponse.mk "B" 0 false, Examples.freshB).
Proof.
  split; [vm_compute; discriminate|]. split; [reflexivity|].
  split; [right; split; [reflexivity|vm_compute; discriminate]|]. reflexivity.
Qed.

(** [startElection] moves to the next term and records the vote for the
    server itself. *)
Lemma startElection_state (s : Server.t) :
  ∃ out,
    startElection s
    = Returns (out, setLastVoteSummary (u64_add (currentTerm s) 1) (Server.id s)
                      (alterTerm (u64_add (currentTerm s) 1) s)).
Proof.
  unfold startElection. unfold_M. cbv beta.
  cbn [Server.logStore alterTerm setCurrentTerm setLastVoteSummary Server.with_state].
  destruct (logStore.LastEntry (Server.logStore s)); eexists; reflexivity.
Qed.

(** *** Runs of vote requests and election starts *)




Lemma u64_add_small (a b : N) : a + b < uint64_modulus → u64_add a b = a + b.
Proof. intros H. unfold u64_add. by apply N.mod_small. Qed.









(** X28.  A request of a later term whose candidate is the one recorded for
    the current term is answered [Granted = true] with the server's old
    term, and neither the term nor the vote changes: the vote is given
    without being recorded.  An election the server starts next is for the
    term after its own, with a vote for itself. *)
Theorem RequestVote_regrants_in_a_later_term
    (request : RequestVoteRequest.t) (s : Server.t) :
  laterTermOfRecordedCandidate request s →
  RequestVote request s
  = Returns (RequestVoteResponse.mk (Server.id s) (currentTerm s) true, s)
  ∧ grantedVotes [incomingRequestVote request; electionStart] s
    = [(RequestVoteRequest.Term request, RequestVoteRequest.CandidateId request);
       (u64_add (currentTerm s) 1, Server.id s)].
Proof.
  intros (Hlater & Hvoted & Hcandidate).
  assert (currentTerm s ≤ RequestVoteRequest.Term request) as Hle by lia.
  pose proof (RequestVote_voted request s Hle Hvoted) as HRV.
  rewrite Hcandidate, String.eqb_refl in HRV.
  split; [exact HRV|].
  cbn [grantedVotes]. rewrite HRV. cbn [RequestVoteResponse.Granted app].
  destruct (startElection_state s) as [out ->]. reflexivity.
Qed.

(** X28 (witness).  B voted for A in term 2.  A asks for a vote in term 3
    and is answered granted; B then starts its own election for term 3 and
    votes for itself: two votes of B in term 3. *)
Lemma RequestVote_regrants_in_a_later_term_witness :
  RequestVote Examples.nextTermVoteRequest Examples.votedForA
  = Returns (RequestVoteResponse.mk "B" 2 true, Examples.votedForA)
  ∧ grantedVotes [incomingRequestVote Examples.nextTermVoteRequest; electionStart]
      Examples.votedForA
    = [(3, "A"); (3, "B")].
Proof.
  apply (RequestVote_regrants_in_a_later_term Examples.nextTermVoteRequest
           Examples.votedForA).
  split; [reflexivity|]. split; [|reflexivity]. vm_compute. discriminate.
Defined.

(** ** Snapshot and restore of the key-value state machine (C8) *)

Section SnapshotRoundTrip.

Context (msgpack_Encode : gmap string (list byte) → result (list byte)).
Context (msgpack_Decode : list byte → result (gmap string (list byte))).




End SnapshotRoundTrip.


(** ** AppendEntries: what the handler computes (C1, C4, C7) *)

Section AppendEntriesSteps.

Context (proto_Unmarshal : list byte → result Configuration.t).

Lemma appendLogs_unfold (bodies : list LogBody.t) (s : Server.t) :
  appendLogs proto_Unmarshal bodies s
  = let logs := newLogs (lastLogIndex s) (currentTerm s) bodies in
    match appendLogs_decoded proto_Unmarshal logs with
    | Err err => Returns (Err err, s)
    | Ok conf => Returns (Ok (Log.Meta <$> logs), appendLogs_done conf logs s)
    end.
Proof.
  unfold appendLogs, appendLogs_decoded, appendLogs_done. unfold_M. cbv zeta.
  destruct (newLogs _ _ bodies !! _) as [log|]; [|reflexivity].
  destruct (proto_Unmarshal _); reflexivity.
Qed.

Lemma AppendEntries_unfold (request : AppendEntriesRequest.t) (s : Server.t) :
  AppendEntries proto_Unmarshal request s
  = if AppendEntriesRequest.Term request <? currentTerm s
    then Returns (AppendEntriesResponse.mk (Server.id s) (currentTerm s) false, s)
    else
      let s1 := AppendEntries_term request (AppendEntries_leader request s) in
      if prevLogMismatch request (Server.logStore s1)
      then Returns (AppendEntriesResponse.mk (Server.id s) (currentTerm s1) false, s1)
      else
        match (if (0 <? length (AppendEntriesRequest.Entries request))%nat
               then appendRequestEntries proto_Unmarshal
                      (AppendEntriesRequest.Entries request) s1
               else Returns (tt, s1)) with
        | Crashes f => Crashes f
        | Returns (_, s2) =>
            Returns (AppendEntriesResponse.mk (Server.id s) (currentTerm s1) true,
                     AppendEntries_commit request s2)
        end.
Proof.
  unfold AppendEntries, AppendEntries_term, AppendEntries_leader, AppendEntries_commit,
    prevLogMismatch.
  unfold_M. cbv zeta.
  destruct (AppendEntriesRequest.Term request <? currentTerm s); [reflexivity|].
  destruct (negb (String.eqb _ _)); cbv beta iota;
    match goal with
    | |- context [currentTerm ?x <? AppendEntriesRequest.Term request] =>
        destruct (currentTerm x <? AppendEntriesRequest.Term request) eqn:Hadopt
    end;
    try (destruct (ServerRole_eqb (role _) Follower); cbn [negb];
         rewrite ?stepdownFollower_returns);
    cbv beta iota;
    repeat match goal with
      | |- context [if (0 <? AppendEntriesRequest.PrevLogIndex request) then _ else _] =>
          destruct (0 <? AppendEntriesRequest.PrevLogIndex request)
      | |- context [logStore.Entry ?st ?i] => destruct (logStore.Entry st i)
      | |- context [negb (AppendEntriesRequest.PrevLogTerm request =? ?t)] =>
          destruct (AppendEntriesRequest.PrevLogTerm request =? t); cbn [negb]
      end;
    try reflexivity;
    destruct (0 <? length (AppendEntriesRequest.Entries request))%nat;
    try reflexivity;
    try match goal with
      | |- context [appendRequestEntries _ ?es ?x] =>
          destruct (appendRequestEntries proto_Unmarshal es x) as [[[] s2]|f]
      end;
    try reflexivity;
    match goal with
    | |- context [commitIndex ?x <? AppendEntriesRequest.LeaderCommit request] =>
        destruct (commitIndex x <? AppendEntriesRequest.LeaderCommit request)
    end; reflexivity.
Qed.

End AppendEntriesSteps.

(** *** Contiguous logs *)

Lemma indexed_from_nil (i : N) : indexed_from i [].
Proof. intros k e H. by rewrite lookup_nil in H. Qed.

Lemma indexed_from_cons (i : N) (e : Log.t) (l : list Log.t) :
  indexed_from i (e :: l) ↔ logStore.indexOf e = i ∧ indexed_from (i + 1) l.
Proof.
  split.
  - intros H. split.
    + rewrite (H 0%nat e eq_refl). lia.
    + intros k e' Hk. rewrite (H (S k) e' Hk). lia.
  - intros [He Hl] [|k] e' Hk.
    + injection Hk as <-. lia.
    + rewrite (Hl k e' Hk). lia.
Qed.

Lemma indexed_from_app (i : N) (l1 l2 : list Log.t) :
  indexed_from i (l1 ++ l2)
  ↔ indexed_from i l1 ∧ indexed_from (i + N.of_nat (length l1)) l2.
Proof.
  revert i. induction l1 as [|e l1 IH]; intros i.
  - cbn [app length]. replace (i + N.of_nat 0) with i by lia.
    split; [intros H; split; [apply indexed_from_nil|done]|tauto].
  - cbn [app length]. rewrite !indexed_from_cons, IH.
    replace (i + 1 + N.of_nat (length l1)) with (i + N.of_nat (S (length l1))) by lia.
    tauto.
Qed.

Lemma indexed_from_take (i : N) (n : nat) (l : list Log.t) :
  indexed_from i l → indexed_from i (take n l).
Proof.
  intros H k e Hk. apply H. rewrite lookup_take_Some in Hk. tauto.
Qed.

Lemma indexed_from_drop (i : N) (n : nat) (l : list Log.t) :
  indexed_from i l → indexed_from (i + N.of_nat n) (drop n l).
Proof.
  intros H k e Hk. rewrite lookup_drop in Hk. rewrite (H _ _ Hk). lia.
Qed.

(** Looking an index up in a contiguous log is a positional lookup. *)
Lemma Entry_indexed (b : N) (B : list Log.t) :
  indexed_from b B → ∀ k : nat, logStore.Entry B (b + N.of_nat k) = B !! k.
Proof.
  revert b. induction B as [|e B IH]; intros b HB k; [reflexivity|].
  apply indexed_from_cons in HB as [He HB].
  unfold logStore.Entry in *. cbn [List.find]. rewrite He.
  destruct k as [|k].
  - replace (b + N.of_nat 0) with b by lia. by rewrite N.eqb_refl.
  - replace (b =? b + N.of_nat (S k)) with false by (symmetry; apply N.eqb_neq; lia).
    replace (b + N.of_nat (S k)) with (b + 1 + N.of_nat k) by lia.
    apply (IH _ HB).
Qed.

Lemma Entry_below (b i : N) (B : list Log.t) :
  indexed_from b B → i < b → logStore.Entry B i = None.
Proof.
  revert b. induction B as [|e B IH]; intros b HB Hi; [reflexivity|].
  apply indexed_from_cons in HB as [He HB].
  unfold logStore.Entry in *. cbn [List.find]. rewrite He.
  replace (b =? i) with false by (symmetry; apply N.eqb_neq; lia).
  apply (IH (b + 1) HB). lia.
Qed.

Lemma Entry_index (store : list Log.t) (i : N) (e : Log.t) :
  logStore.Entry store i = Some e → logStore.indexOf e = i.
Proof.
  unfold logStore.Entry. intros H. apply find_some in H as [_ H]. by apply N.eqb_eq.
Qed.

Lemma Entry_app_skip (A B : list Log.t) (i : N) :
  Forall (λ e, logStore.indexOf e ≠ i) A →
  logStore.Entry (A ++ B) i = logStore.Entry B i.
Proof.
  induction 1 as [|e A He _ IH]; [reflexivity|].
  unfold logStore.Entry in *. cbn [app List.find].
  by apply N.eqb_neq in He as ->.
Qed.

Lemma indexed_from_Forall (b : N) (B : list Log.t) :
  indexed_from b B →
  Forall (λ e, b ≤ logStore.indexOf e ∧ logStore.indexOf e < b + N.of_nat (length B)) B.
Proof.
  intros HB. apply Forall_lookup_2. intros k e Hk.
  rewrite (HB k e Hk). apply lookup_lt_Some in Hk. lia.
Qed.

(** The last index of a log that ends with a contiguous part. *)
Lemma LastIndex_app_indexed (A B : list Log.t) (p : N) :
  logStore.LastIndex A = p → indexed_from (p + 1) B →
  logStore.LastIndex (A ++ B) = p + N.of_nat (length B).
Proof.
  intros HA HB. unfold logStore.LastIndex in *.
  destruct B as [|b B] using rev_ind.
  - rewrite app_nil_r. cbn. lia.
  - rewrite app_assoc, last_snoc.
    rewrite (HB (length B) b).
    + rewrite length_app. cbn. lia.
    + by rewrite lookup_app_r, Nat.sub_diag.
Qed.

(** *** The entries [appendLogs] builds *)

Lemma newLogs_length (lastLogIndex term : N) (bodies : list LogBody.t) :
  length (newLogs lastLogIndex term bodies) = length bodies.
Proof. apply length_imap. Qed.

Lemma newLogs_lookup (lastLogIndex term : N) (bodies : list LogBody.t) (k : nat) :
  newLogs lastLogIndex term bodies !! k
  = (λ body, Log.mk (LogMeta.mk (u64_add (u64_add lastLogIndex 1) (N.of_nat k)) term)
                    (LogBody.Copy body)) <$> bodies !! k.
Proof. unfold newLogs. apply list_lookup_imap. Qed.

(** Every entry [appendLogs] builds carries the server's current term,
    whatever term the leader sent with it. *)
Lemma newLogs_term (lastLogIndex term : N) (bodies : list LogBody.t) (k : nat) (log : Log.t) :
  newLogs lastLogIndex term bodies !! k = Some log → logStore.termOf log = term.
Proof.
  rewrite newLogs_lookup. destruct (bodies !! k); [|done].
  cbn. by intros [= <-].
Qed.

Lemma newLogs_index (lastLogIndex term : N) (bodies : list LogBody.t) (k : nat) (log : Log.t) :
  lastLogIndex + N.of_nat (length bodies) < uint64_modulus →
  newLogs lastLogIndex term bodies !! k = Some log →
  logStore.indexOf log = lastLogIndex + 1 + N.of_nat k.
Proof.
  intros Hbound. rewrite newLogs_lookup. destruct (bodies !! k) eqn:Hk; [|done].
  apply lookup_lt_Some in Hk. cbn. intros [= <-]. cbn.
  rewrite (u64_add_small lastLogIndex 1) by lia. apply u64_add_small. lia.
Qed.

Lemma newLogs_indexed (lastLogIndex term : N) (bodies : list LogBody.t) :
  lastLogIndex + N.of_nat (length bodies) < uint64_modulus →
  indexed_from (lastLogIndex + 1) (newLogs lastLogIndex term bodies).
Proof. intros Hbound k log. by apply newLogs_index. Qed.


(** *** The conflict scan on a contiguous log *)

Lemma matchLen_le (B es : list Log.t) :
  (matchLen B es ≤ length B)%nat ∧ (matchLen B es ≤ length es)%nat.
Proof.
  revert es. induction B as [|b B IH]; intros [|e es]; cbn; try lia.
  destruct (logStore.termOf b =? logStore.termOf e); [|lia].
  specialize (IH es). lia.
Qed.

(** The scan passes the entries that match the local ones in term, and
    reports a conflict exactly when both lists go on behind them. *)
Lemma scanConflicts_indexed (store B : list Log.t) (p : N) :
  (∀ k : nat, logStore.Entry store (p + 1 + N.of_nat k) = B !! k) →
  ∀ (es : list Log.t) (k0 i : nat),
    indexed_from (p + 1 + N.of_nat k0) es →
    let j := matchLen (drop k0 B) es in
    scanConflicts store (p + N.of_nat (length B)) es i
    = Returns ((i + j)%nat,
               if (j <? length es)%nat && (j <? length (drop k0 B))%nat
               then p + 1 + N.of_nat (k0 + j) else 0).
Proof.
  intros Hstore es. induction es as [|e es IH]; intros k0 i Hes; cbn zeta.
  - cbn [scanConflicts]. destruct (drop k0 B); cbn; by rewrite Nat.add_0_r.
  - apply indexed_from_cons in Hes as [He Hes].
    cbn [scanConflicts]. rewrite He.
    destruct (B !! k0) as [b|] eqn:Hb.
    + assert (k0 < length B)%nat as Hlt by (by eapply lookup_lt_Some).
      replace (p + N.of_nat (length B) <? p + 1 + N.of_nat k0) with false
        by (symmetry; apply N.ltb_ge; lia).
      rewrite Hstore, Hb.
      rewrite (drop_S _ _ _ Hb). cbn [matchLen length].
      assert (logStore.indexOf b = p + 1 + N.of_nat k0) as Hib
        by (apply (Entry_index store); by rewrite Hstore).
      destruct (logStore.termOf b =? logStore.termOf e) eqn:Hterm; cbn [negb].
      * replace (p + 1 + N.of_nat k0 + 1) with (p + 1 + N.of_nat (S k0)) in Hes by lia.
        rewrite (IH (S k0) (S i) Hes). cbn zeta.
        f_equal. f_equal; [lia|].
        change (S ?a <? S ?b)%nat with (a <? b)%nat.
        destruct ((_ <? _)%nat && (_ <? _)%nat); [|done]. f_equal. lia.
      * rewrite Hib, Nat.add_0_r. cbn. do 3 f_equal. lia.
    + apply lookup_ge_None in Hb.
      replace (p + N.of_nat (length B) <? p + 1 + N.of_nat k0) with true
        by (symmetry; apply N.ltb_lt; lia).
      rewrite (drop_ge _ _ Hb). cbn. by rewrite Nat.add_0_r.
Qed.

(** *** Which batches [appendLogs] accepts *)

Lemma LogBody_Copy_id (body : LogBody.t) : LogBody.Copy body = body.
Proof. by destruct body. Qed.

Lemma lastConfArrayIndex_lookup (logs pre : list Log.t) (acc : nat) :
  (pre ++ logs) !! lastConfArrayIndex_from (length pre) logs acc
  = match last (List.filter (λ log, isConfiguration (Log.Body log)) logs) with
    | Some log => Some log
    | None => (pre ++ logs) !! acc
    end.
Proof.
  revert pre acc. induction logs as [|log logs IH]; intros pre acc; [reflexivity|].
  cbn [lastConfArrayIndex_from List.filter].
  specialize (IH (pre ++ [log])). rewrite length_app, <- app_assoc in IH.
  cbn [length app] in IH. rewrite Nat.add_1_r in IH. rewrite IH.
  unfold isConfiguration at 2.
  destruct (LogBody.Type_ (Log.Body log)).
  - reflexivity.
  - rewrite last_cons. destruct (last _); [reflexivity|].
    by rewrite list_lookup_middle.
Qed.

Lemma filter_fmap_Body (logs : list Log.t) :
  Log.Body <$> List.filter (λ log, isConfiguration (Log.Body log)) logs
  = List.filter isConfiguration (Log.Body <$> logs).
Proof.
  induction logs as [|log logs IH]; [reflexivity|].
  cbn. destruct (isConfiguration (Log.Body log)); cbn; by rewrite IH.
Qed.

Lemma newLogs_bodies (lastLogIndex term : N) (bodies : list LogBody.t) :
  Log.Body <$> newLogs lastLogIndex term bodies = bodies.
Proof.
  apply list_eq. intros k. rewrite list_lookup_fmap, newLogs_lookup.
  destruct (bodies !! k); [|done]. cbn. by rewrite LogBody_Copy_id.
Qed.

Section Decoding.

Context (proto_Unmarshal : list byte → result Configuration.t).

Lemma appendLogs_decoded_accepted (lastLogIndex term : N) (bodies : list LogBody.t) :
  match appendLogs_decoded proto_Unmarshal (newLogs lastLogIndex term bodies) with
  | Ok _ => true
  | Err _ => false
  end = accepted proto_Unmarshal bodies.
Proof.
  unfold appendLogs_decoded, accepted.
  pose proof (newLogs_bodies lastLogIndex term bodies) as Hbodies.
  set (logs := newLogs lastLogIndex term bodies) in *.
  pose proof (lastConfArrayIndex_lookup logs [] (length logs)) as H.
  cbn [app length] in H. rewrite H. clear H.
  rewrite <- Hbodies, <- filter_fmap_Body, fmap_last.
  destruct (last _) as [log|]; cbn.
  - by destruct (proto_Unmarshal _).
  - by rewrite lookup_ge_None_2.
Qed.

End Decoding.

(** *** The log seen as a prefix [A] up to index [p] and the part [B] behind it *)

Lemma bodiesOf_length (es : list Log.t) : length (bodiesOf es) = length es.
Proof. unfold bodiesOf. apply length_fmap. Qed.

Section EntriesPhase.

Context (proto_Unmarshal : list byte → result Configuration.t).

Lemma appendLogs_view (A B : list Log.t) (p : N) (bodies : list LogBody.t) (s : Server.t) :
  prefixUpTo A p →
  indexed_from (p + 1) B →
  logView A B p s →
  (bodies ≠ [] → p + N.of_nat (length B) + N.of_nat (length bodies) < uint64_modulus) →
  ∃ r s',
    appendLogs proto_Unmarshal bodies s = Returns (r, s')
    ∧ outsideLog s' = outsideLog s
    ∧ logView A (if accepted proto_Unmarshal bodies
                 then B ++ newLogs (p + N.of_nat (length B)) (currentTerm s) bodies
                 else B) p s'
    ∧ indexed_from (p + 1)
        (if accepted proto_Unmarshal bodies
         then B ++ newLogs (p + N.of_nat (length B)) (currentTerm s) bodies
         else B).
Proof.
  intros [HA HAlast] HB [Hstore Hlast] Hbound.
  rewrite appendLogs_unfold. cbv zeta. rewrite Hlast.
  rewrite <- (appendLogs_decoded_accepted proto_Unmarshal
                (p + N.of_nat (length B)) (currentTerm s) bodies).
  set (logs := newLogs (p + N.of_nat (length B)) (currentTerm s) bodies).
  destruct (appendLogs_decoded proto_Unmarshal logs) as [conf|err].
  - eexists _, _. split; [reflexivity|]. split; [by destruct conf|].
    assert (indexed_from (p + 1) (B ++ logs)) as Hall.
    { apply indexed_from_app. split; [done|].
      destruct bodies as [|body bodies]; [apply indexed_from_nil|].
      replace (p + 1 + N.of_nat (length B)) with (p + N.of_nat (length B) + 1) by lia.
      apply newLogs_indexed. by apply Hbound. }
    split; [split|exact Hall].
    + destruct conf; cbn; unfold logStore.AppendLogs; by rewrite Hstore, app_assoc.
    + transitivity (logStore.LastIndex (logStore.AppendLogs (Server.logStore s) logs));
        [by destruct conf|].
      unfold logStore.AppendLogs. rewrite Hstore, <- app_assoc.
      by apply LastIndex_app_indexed.
  - eexists _, _. split; [reflexivity|]. split; [reflexivity|]. by split.
Qed.

(** On a log without a conflicting entry the scan passes every local
    entry. *)
Lemma matchLen_no_conflict (B es : list Log.t) :
  (∀ (k : nat) b e, B !! k = Some b → es !! k = Some e →
     logStore.termOf b = logStore.termOf e) →
  matchLen B es = (length B `min` length es)%nat.
Proof.
  revert es. induction B as [|b B IH]; intros [|e es] H; cbn [matchLen length Nat.min];
    try reflexivity.
  rewrite (H 0%nat b e eq_refl eq_refl), N.eqb_refl. f_equal.
  apply IH. intros k b' e' Hb He. by apply (H (S k)).
Qed.

Lemma termConflict_elem_of (es store : list Log.t) :
  termConflict es store = false →
  ∀ e local,
    e ∈ es → logStore.Entry store (logStore.indexOf e) = Some local →
    logStore.termOf local = logStore.termOf e.
Proof.
  unfold termConflict. induction es as [|e0 es IH]; intros H e local Hin Hentry.
  - by apply elem_of_nil in Hin.
  - cbn [existsb] in H. apply orb_false_iff in H as [H0 H].
    apply elem_of_cons in Hin as [->|Hin]; [|by apply (IH H e)].
    rewrite Hentry in H0. by apply negb_false_iff, N.eqb_eq in H0.
Qed.

(** Without a conflict, the incoming entries agree in term with the local
    entries at the same positions behind index [p]. *)
Lemma termConflict_positions (A B es : list Log.t) (p : N) :
  prefixUpTo A p →
  indexed_from (p + 1) B →
  indexed_from (p + 1) es →
  termConflict es (A ++ B) = false →
  ∀ (k : nat) b e, B !! k = Some b → es !! k = Some e →
    logStore.termOf b = logStore.termOf e.
Proof.
  intros [HA _] HB Hes Hnc k b e Hb He.
  apply (termConflict_elem_of es (A ++ B) Hnc e b).
  - by eapply list_elem_of_lookup_2.
  - rewrite (Hes k e He), Entry_app_skip.
    + by rewrite (Entry_indexed (p + 1) B HB k).
    + eapply Forall_impl; [exact HA|]. cbn. intros; lia.
Qed.

(** The entries phase of the handler on a contiguous log, when no incoming
    entry conflicts with a local one: nothing is truncated, the entries
    beyond the log are appended. *)
Lemma appendRequestEntries_view (A B es : list Log.t) (p : N) (s : Server.t) :
  es ≠ [] →
  prefixUpTo A p →
  indexed_from (p + 1) B →
  logView A B p s →
  indexed_from (p + 1) es →
  p + N.of_nat (length es) < uint64_modulus →
  (∀ (k : nat) b e, B !! k = Some b → es !! k = Some e →
     logStore.termOf b = logStore.termOf e) →
  ∃ s',
    appendRequestEntries proto_Unmarshal es s = Returns (tt, s')
    ∧ outsideLog s' = outsideLog s
    ∧ logView A (appendedLog (accepted proto_Unmarshal) p (currentTerm s) B es) p s'
    ∧ indexed_from (p + 1) (appendedLog (accepted proto_Unmarshal) p (currentTerm s) B es).
Proof.
  intros Hne HA HB Hview Hes Hbound Hnc.
  pose proof Hview as [Hstore Hlast].
  pose proof (matchLen_no_conflict B es Hnc) as Hj.
  assert (drop (matchLen B es) es = drop (length B) es) as Hdrop.
  { rewrite Hj. destruct (Nat.le_ge_cases (length B) (length es)) as [Hle|Hge].
    - by rewrite Nat.min_l.
    - rewrite Nat.min_r by done. by rewrite !drop_ge by lia. }
  assert (appendRequestEntries proto_Unmarshal es s
          = (let* _ := appendLogs proto_Unmarshal (bodiesOf (drop (length B) es)) in ret tt) s)
    as Hstep.
  { assert (∀ k : nat, logStore.Entry (Server.logStore s) (p + 1 + N.of_nat k) = B !! k)
      as Hentry.
    { intros k. rewrite Hstore, Entry_app_skip; [by apply Entry_indexed|].
      destruct HA as [HA _]. eapply Forall_impl; [exact HA|]. cbn. intros; lia. }
    assert (indexed_from (p + 1 + N.of_nat 0) es) as Hes0
      by (by replace (p + 1 + N.of_nat 0) with (p + 1) by lia).
    pose proof (scanConflicts_indexed (Server.logStore s) B p Hentry es 0 0 Hes0) as Hscan.
    cbn zeta in Hscan. rewrite drop_0, !Nat.add_0_l in Hscan.
    replace ((matchLen B es <? length es)%nat && (matchLen B es <? length B)%nat)
      with false in Hscan
      by (symmetry; rewrite Hj; apply andb_false_iff;
          destruct (Nat.le_ge_cases (length B) (length es));
          [right|left]; apply Nat.ltb_ge; lia).
    unfold appendRequestEntries. unfold_M. rewrite Hlast.
    destruct es as [|e0 es']; [done|].
    destruct (proj1 (indexed_from_cons _ _ _) Hes) as [He0 _]. rewrite He0.
    destruct (Nat.eq_dec (length B) 0%nat) as [HBlen|HBlen].
    - replace (p + 1 <=? p + N.of_nat (length B)) with false
        by (symmetry; apply N.leb_gt; lia).
      rewrite HBlen. reflexivity.
    - replace (p + 1 <=? p + N.of_nat (length B)) with true
        by (symmetry; apply N.leb_le; lia).
      cbv beta. rewrite Hscan. change (0 <? 0) with false. cbv beta iota.
      by rewrite Hdrop. }
  assert (bodiesOf (drop (length B) es) ≠ [] →
          p + N.of_nat (length B) + N.of_nat (length (bodiesOf (drop (length B) es)))
          < uint64_modulus) as Hroom.
  { intros Hbodies. rewrite bodiesOf_length, length_drop.
    assert (length B < length es)%nat as Hlt.
    { destruct (decide (length B < length es)%nat) as [|Hge]; [done|].
      exfalso. apply Hbodies. rewrite drop_ge by lia. reflexivity. }
    lia. }
  destruct (appendLogs_view A B p (bodiesOf (drop (length B) es)) s HA HB Hview Hroom)
    as (r & s2 & Happend & Hout2 & Hview2 & Hindexed2).
  exists s2. split; [|split; [|split]].
  - rewrite Hstep. unfold_M. by rewrite Happend.
  - exact Hout2.
  - exact Hview2.
  - exact Hindexed2.
Qed.

End EntriesPhase.

Section Replay.

Context (proto_Unmarshal : list byte → result Configuration.t).



End Replay.

(** *** Frame properties of the handler's steps *)

Lemma AppendEntries_prelude_frame (request : AppendEntriesRequest.t) (s : Server.t) :
  let t := AppendEntries_term request (AppendEntries_leader request s) in
  Server.logStore t = Server.logStore s
  ∧ lastLogIndex t = lastLogIndex s
  ∧ Server.commit t = Server.commit s
  ∧ Server.channels t = Server.channels s
  ∧ Server.stateMachine t = Server.stateMachine s
  ∧ lastVoteSummary t = lastVoteSummary s
  ∧ currentTerm t = N.max (currentTerm s) (AppendEntriesRequest.Term request)
  ∧ (AppendEntriesRequest.Term request ≤ currentTerm s → role t = role s).
Proof.
  unfold AppendEntries_term, AppendEntries_leader.
  destruct (negb (String.eqb _ _)); cbv zeta;
    match goal with
    | |- context [currentTerm ?x <? AppendEntriesRequest.Term request] =>
        change (currentTerm x) with (currentTerm s);
        destruct (currentTerm s <? AppendEntriesRequest.Term request) eqn:Hadopt
    end;
    try destruct (negb (ServerRole_eqb _ Follower));
    rewrite ?N.ltb_lt, ?N.ltb_ge in Hadopt;
    repeat split; try reflexivity;
    unfold currentTerm in *; cbn; try lia.
Qed.

Lemma AppendEntries_commit_frame (request : AppendEntriesRequest.t) (s : Server.t) :
  let s' := AppendEntries_commit request s in
  Server.logStore s' = Server.logStore s
  ∧ lastLogIndex s' = lastLogIndex s
  ∧ Server.commit s' = Server.commit s
  ∧ Server.stateMachine s' = Server.stateMachine s
  ∧ lastVoteSummary s' = lastVoteSummary s
  ∧ currentTerm s' = currentTerm s
  ∧ role s' = role s
  ∧ serverChannels.commitCh (Server.channels s')
    = serverChannels.commitCh (Server.channels s)
      ++ (if commitIndex s <? AppendEntriesRequest.LeaderCommit request
          then [AppendEntriesRequest.LeaderCommit request] else []).
Proof.
  unfold AppendEntries_commit.
  destruct (commitIndex s <? _); cbv zeta; repeat split; try reflexivity.
  by rewrite app_nil_r.
Qed.

Section Frames.

Context (proto_Unmarshal : list byte → result Configuration.t).

Lemma appendLogs_outsideLog (bodies : list LogBody.t) (s : Server.t) :
  ∃ r s', appendLogs proto_Unmarshal bodies s = Returns (r, s')
          ∧ outsideLog s' = outsideLog s.
Proof.
  rewrite appendLogs_unfold. cbv zeta.
  destruct (appendLogs_decoded _ _) as [[c|]|err]; eexists _, _; split; reflexivity.
Qed.

(** Whatever the log looks like, the entries phase touches the log, the
    index state, the configuration store and the reselect flag only. *)
Lemma appendRequestEntries_outsideLog (es : list Log.t) (s s' : Server.t) :
  appendRequestEntries proto_Unmarshal es s = Returns (tt, s') →
  outsideLog s' = outsideLog s.
Proof.
  unfold appendRequestEntries. unfold_M. intros H.
  assert (∀ (k : nat) (x : Server.t),
            match appendLogs proto_Unmarshal
                    ((λ e, LogBody.Copy (Log.Body e)) <$> drop k es) x with
            | Returns (_, s'0) => Returns (tt, s'0)
            | Crashes f => Crashes f
            end = Returns (tt, s') →
            outsideLog s' = outsideLog x) as Hlogs.
  { intros k x Hx.
    destruct (appendLogs_outsideLog ((λ e, LogBody.Copy (Log.Body e)) <$> drop k es) x)
      as (r & x' & Heq & Hout).
    rewrite Heq in Hx. by injection Hx as <-. }
  destruct es as [|e0 es']; [by apply (Hlogs 0%nat)|].
  destruct (logStore.indexOf e0 <=? lastLogIndex s); [|by apply (Hlogs 0%nat)].
  destruct (scanConflicts _ _ _ _) as [[j c]|f]; [|done].
  destruct (0 <? c).
  - by rewrite (Hlogs j _ H).
  - by apply (Hlogs j).
Qed.

End Frames.

(** *** Splitting a contiguous log at the previous index of a request *)

Lemma LastIndex_indexed (f : N) (l : list Log.t) :
  indexed_from f l → l ≠ [] → logStore.LastIndex l + 1 = f + N.of_nat (length l).
Proof.
  intros Hl Hne. unfold logStore.LastIndex. rewrite last_lookup.
  destruct l as [|e l]; [done|]. cbn [length Nat.pred].
  destruct ((e :: l) !! length l) as [x|] eqn:Hx.
  - rewrite (Hl _ _ Hx). lia.
  - apply lookup_ge_None in Hx. cbn in Hx. lia.
Qed.

Lemma Entry_range (f i : N) (l : list Log.t) :
  indexed_from f l → is_Some (logStore.Entry l i) → f ≤ i < f + N.of_nat (length l).
Proof.
  intros Hl [e He]. pose proof (Entry_index _ _ _ He) as <-.
  unfold logStore.Entry in He. apply find_some in He as [Hin _].
  apply list_elem_of_In in Hin.
  pose proof (indexed_from_Forall _ _ Hl) as Hall.
  rewrite Forall_forall in Hall. by apply Hall.
Qed.



Lemma log_split (f p : N) (store : list Log.t) :
  indexed_from f store →
  f ≤ p + 1 →
  p = 0 ∨ is_Some (logStore.Entry store p) →
  ∃ A B, store = A ++ B ∧ prefixUpTo A p ∧ indexed_from (p + 1) B.
Proof.
  intros Hstore Hf Hp.
  set (a := N.to_nat (p + 1 - f)).
  exists (take a store), (drop a store).
  split; [by rewrite take_drop|]. split; [split|].
  - eapply Forall_impl;
      [apply indexed_from_Forall, (indexed_from_take f a store Hstore)|].
    cbn. intros e [_ H]. rewrite length_take in H. lia.
  - destruct (decide (take a store = [])) as [Hnil|Hne].
    + rewrite Hnil. cbn. destruct Hp as [->|Hsome]; [done|].
      apply (Entry_range f p store Hstore) in Hsome.
      apply (f_equal length) in Hnil. rewrite length_take in Hnil. cbn in Hnil. lia.
    + pose proof (LastIndex_indexed f _ (indexed_from_take f a store Hstore) Hne) as H.
      rewrite length_take in H.
      assert (a ≤ length store)%nat; [|lia].
      destruct Hp as [->|Hsome].
      * destruct store; [by rewrite take_nil in Hne|]. cbn. lia.
      * apply (Entry_range f p store Hstore) in Hsome. lia.
  - replace (p + 1) with (f + N.of_nat a) by lia.
    by apply indexed_from_drop.
Qed.

(** ** Replaying an AppendEntries request (C7) *)

Section ReplayTheorem.

Context (proto_Unmarshal : list byte → result Configuration.t).

(** After the previous-log check has passed on a contiguous log, the log
    splits at the previous index; the one exception, a log cut by a
    snapshot that is offered entries from index 1, makes the scan read a
    missing entry. *)
Lemma entries_split_or_crash (f : N) (request : AppendEntriesRequest.t) (t : Server.t) :
  indexed_from f (Server.logStore t) →
  lastLogIndex t = logStore.LastIndex (Server.logStore t) →
  prevLogMismatch request (Server.logStore t) = false →
  AppendEntriesRequest.Entries request ≠ [] →
  indexed_from (AppendEntriesRequest.PrevLogIndex request + 1)
               (AppendEntriesRequest.Entries request) →
  (∃ A B, Server.logStore t = A ++ B
          ∧ prefixUpTo A (AppendEntriesRequest.PrevLogIndex request)
          ∧ indexed_from (AppendEntriesRequest.PrevLogIndex request + 1) B)
  ∨ appendRequestEntries proto_Unmarshal (AppendEntriesRequest.Entries request) t
    = Crashes NilDereference.
Proof.
  set (p := AppendEntriesRequest.PrevLogIndex request).
  intros Hstore Hlast Hprev Hne Hes.
  assert (p = 0 ∨ is_Some (logStore.Entry (Server.logStore t) p)) as Hp.
  { unfold prevLogMismatch in Hprev. fold p in Hprev.
    destruct (0 <? p) eqn:H0.
    - right. by destruct (logStore.Entry _ p).
    - left. apply N.ltb_ge in H0. lia. }
  destruct (Server.logStore t) as [|x store'] eqn:Hst.
  - left. exists [], []. split; [done|]. split; [|apply indexed_from_nil].
    split; [done|]. destruct Hp as [->|[? Hsome]]; [done|discriminate].
  - destruct (decide (f ≤ p + 1)) as [Hf|Hf].
    + left. by apply (log_split f).
    + right.
      assert (p = 0) as Hp0.
      { destruct Hp as [?|Hsome]; [done|].
        apply (Entry_range f p _ Hstore) in Hsome. lia. }
      pose proof (LastIndex_indexed f _ Hstore ltac:(done)) as Hli.
      cbn [length] in Hli.
      destruct (AppendEntriesRequest.Entries request) as [|e0 es]; [done|].
      apply indexed_from_cons in Hes as [He0 _]. rewrite Hp0 in He0.
      unfold appendRequestEntries. unfold_M. rewrite Hlast, He0.
      replace (0 + 1 <=? logStore.LastIndex (x :: store')) with true
        by (symmetry; apply N.leb_le; lia).
      cbv beta. rewrite Hst. cbn [scanConflicts]. rewrite He0.
      replace (logStore.LastIndex (x :: store') <? 0 + 1) with false
        by (symmetry; apply N.ltb_ge; lia).
      rewrite (Entry_below f (0 + 1) _ Hstore) by lia.
      reflexivity.
Qed.


End ReplayTheorem.



(** ** The entries a follower stores (C1) *)

(** C1 (the code departs from the claim).  B, a follower at term 2 with an
    empty log, receives from the leader of term 2 the entry (index 1,
    term 1).  The request succeeds, and the store holds at index 1 an entry
    of term 2, not of the entry's term 1: [appendLogs] stamps every entry
    with the server's current term.  The handler's own previous-log check
    then rejects the leader's next request, which names (index 1, term 1)
    as the entry before. *)
Theorem AppendEntries_stores_current_term :
  ∃ response s' response' s'',
    AppendEntries Examples.proto_Unmarshal Examples.replicateOldEntry Examples.followerB
    = Returns (response, s')
    ∧ AppendEntriesResponse.Success response = true
    ∧ AppendEntriesRequest.Entries Examples.replicateOldEntry = [Examples.entry 1 1 "x"]
    ∧ logStore.Entry (Server.logStore s') 1 = Some (Examples.entry 1 2 "x")
    ∧ AppendEntries Examples.proto_Unmarshal Examples.replicateNextEntry s'
      = Returns (response', s'')
    ∧ AppendEntriesResponse.Success response' = false.
Proof.
  eexists _, _, _, _. split; [vm_compute; reflexivity|].
  split; [reflexivity|]. split; [reflexivity|]. split; [reflexivity|].
  split; [vm_compute; reflexivity|]. reflexivity.
Qed.

(** ** The apply step on a commit state that is in order *)

(** The apply loop runs through a range whose entries exist, on enough
    fuel, and touches the state machine only. *)
Lemma applyLoop_returns (fuel : nat) :
  ∀ (i commitIndex commitTerm : N) (lastConfigurationLog : option Log.t) (s : Server.t),
    commitIndex + 1 < uint64_modulus →
    i ≤ commitIndex + 1 →
    (∀ k, i ≤ k ≤ commitIndex → is_Some (logStore.Entry (Server.logStore s) k)) →
    (N.to_nat (commitIndex + 1 - i) < fuel)%nat →
    ∃ r s',
      applyLoop fuel i commitIndex commitTerm lastConfigurationLog s = Some (Returns (r, s'))
      ∧ Server.commit s' = Server.commit s
      ∧ Server.confStore s' = Server.confStore s.
Proof.
  induction fuel as [|fuel IH]; intros i ci ct lcl s Hci Hi Hentries Hfuel; [lia|].
  cbn [applyLoop]. destruct (i <=? ci) eqn:Hle.
  - apply N.leb_le in Hle.
    destruct (Hentries i ltac:(lia)) as [log Hlog]. rewrite Hlog.
    rewrite (u64_add_small i 1) by lia.
    destruct (LogBody.Type_ (Log.Body log)).
    + destruct (IH (i + 1) ci
                  (if i =? ci then LogMeta.Term (Log.Meta log) else ct) lcl
                  (Server.with_stateMachine
                     (Server.stateMachine s ++ [LogBody.Data (Log.Body log)]) s))
        as (r & s' & Hrun & Hcommit & Hconf); try lia.
      { intros k Hk. apply Hentries. lia. }
      exists r, s'. by rewrite Hrun.
    + destruct (IH (i + 1) ci
                  (if i =? ci then LogMeta.Term (Log.Meta log) else ct) (Some log) s)
        as (r & s' & Hrun & Hcommit & Hconf); try lia.
      { intros k Hk. apply Hentries. lia. }
      exists r, s'. by rewrite Hrun.
  - eexists _, _. split; [reflexivity|]. by split.
Qed.

Section ApplyStep.

Context (proto_Unmarshal : list byte → result Configuration.t).
Context (proto_Marshal : Configuration.t → result (list byte)).

(** With a marshaller that does not fail, committing a configuration entry
    returns and leaves the commit state alone. *)
Lemma commitConfiguration_returns (log : Log.t) (s : Server.t) :
  (∀ c, ∃ data, proto_Marshal c = Ok data) →
  ∃ s', commitConfiguration proto_Unmarshal proto_Marshal log s = Returns (tt, s')
        ∧ Server.commit s' = Server.commit s.
Proof.
  intros Hmarshal. unfold commitConfiguration, confStore_CommitTransition. unfold_M.
  destruct (configuration.Joint (confStore_Latest s)
            && (configuration.LogIndex (confStore_Latest s)
                =? LogMeta.Index (Log.Meta log))).
  - destruct (Hmarshal (Configuration.mk
                (Config.mk (config.Peers (configuration.NextConfig (confStore_Latest s))))
                None)) as [data ->].
    eexists. split; reflexivity.
  - eexists. split; reflexivity.
Qed.

(** The apply step on a state whose commit state is in order. *)
Lemma commitAndApply_returns (fuel : nat) (leaderCommit : N) (s : Server.t) :
  let target := N.min leaderCommit (lastLogIndex s) in
  LogMeta.Index (lastApplied s) ≤ commitIndex s →
  commitIndex s ≤ target →
  (∀ k, LogMeta.Index (lastApplied s) < k ≤ target →
        is_Some (logStore.Entry (Server.logStore s) k)) →
  target + 1 < uint64_modulus →
  (∀ c, ∃ data, proto_Marshal c = Ok data) →
  (N.to_nat (target - LogMeta.Index (lastApplied s)) < fuel)%nat →
  ∃ s', commitAndApply proto_Unmarshal proto_Marshal fuel leaderCommit s
        = Some (Returns (tt, s'))
        ∧ commitIndex s' = target
        ∧ LogMeta.Index (lastApplied s') = target.
Proof.
  intros target Hla Hci Hentries Hroom Hmarshal Hfuel.
  unfold commitAndApply.
  replace (if lastLogIndex s <? leaderCommit then lastLogIndex s else leaderCommit)
    with target.
  2:{ unfold target. destruct (lastLogIndex s <? leaderCommit) eqn:H.
      - apply N.ltb_lt in H. lia.
      - apply N.ltb_ge in H. lia. }
  destruct (LogMeta.Index (lastApplied s) =? target) eqn:Heq.
  - apply N.eqb_eq in Heq. exists s. split; [reflexivity|]. split; lia.
  - apply N.eqb_neq in Heq.
    replace (target <? LogMeta.Index (lastApplied s)) with false
      by (symmetry; apply N.ltb_ge; lia).
    rewrite (u64_add_small _ 1) by lia.
    destruct (applyLoop_returns fuel (LogMeta.Index (lastApplied s) + 1) target 0 None
                (setCommitIndex target s))
      as ([commitTerm lastConfigurationLog] & s1 & Hloop & Hcommit1 & _); try lia.
    { intros k Hk. apply Hentries. lia. }
    rewrite Hloop. unfold_M.
    destruct lastConfigurationLog as [log|].
    + destruct (commitConfiguration_returns log s1 Hmarshal) as (s2 & -> & Hcommit2).
      eexists. split; [reflexivity|].
      unfold commitIndex, lastApplied. cbn. rewrite Hcommit2, Hcommit1. by split.
    + eexists. split; [reflexivity|].
      unfold commitIndex, lastApplied. cbn. rewrite Hcommit1. by split.
Qed.

End ApplyStep.

(** * Further properties *)

(** Discharges a side condition on concrete values by evaluation. *)
Ltac by_evaluation :=
  vm_compute; first [reflexivity | discriminate | lia | by repeat constructor].

(** ** [appendLogs] *)

Section AppendLogsProperties.

Context (proto_Unmarshal : list byte → result Configuration.t).

(** The configuration payload [appendLogs] decodes is the one of the last
    configuration body of the batch. *)
Lemma appendLogs_decoded_last (lastLogIndex term : N) (bodies : list LogBody.t) :
  appendLogs_decoded proto_Unmarshal (newLogs lastLogIndex term bodies)
  = match last (List.filter (λ log, isConfiguration (Log.Body log))
                  (newLogs lastLogIndex term bodies)) with
    | Some log =>
        match proto_Unmarshal (LogBody.Data (Log.Body log)) with
        | Err err => Err err
        | Ok c => Ok (Some (newConfiguration c (LogMeta.Index (Log.Meta log))))
        end
    | None => Ok None
    end.
Proof.
  unfold appendLogs_decoded.
  set (logs := newLogs lastLogIndex term bodies).
  pose proof (lastConfArrayIndex_lookup logs [] (length logs)) as H.
  cbn [app length] in H. rewrite H.
  destruct (last _) as [log|]; [reflexivity|].
  by rewrite lookup_ge_None_2.
Qed.

Lemma last_filter_newLogs (lastLogIndex term : N) (bodies : list LogBody.t) :
  Log.Body <$> last (List.filter (λ log, isConfiguration (Log.Body log))
                       (newLogs lastLogIndex term bodies))
  = last (List.filter isConfiguration bodies).
Proof.
  rewrite <- fmap_last, filter_fmap_Body. by rewrite newLogs_bodies.
Qed.

Lemma appendLogs_decode_error
    (bodies : list LogBody.t) (body : LogBody.t) (err : error) (s : Server.t) :
  last (List.filter isConfiguration bodies) = Some body →
  proto_Unmarshal (LogBody.Data body) = Err err →
  appendLogs proto_Unmarshal bodies s = Returns (Err err, s).
Proof.
  intros Hlast Herr. rewrite appendLogs_unfold. cbv zeta.
  rewrite appendLogs_decoded_last.
  pose proof (last_filter_newLogs (lastLogIndex s) (currentTerm s) bodies) as H.
  rewrite Hlast in H. revert H.
  destruct (last (List.filter _ (newLogs _ _ _))) as [log|]; [|done].
  change (Log.Body <$> Some log) with (Some (Log.Body log)).
  intros [= Hbody]. by rewrite Hbody, Herr.
Qed.

Lemma filter_none {A} (P : A → bool) (l : list A) :
  Forall (λ x, P x = false) l → List.filter P l = [].
Proof.
  induction 1 as [|x l Hx _ IH]; [reflexivity|]. cbn. by rewrite Hx.
Qed.

Lemma last_filter_lookup {A} (P : A → bool) (l : list A) (k : nat) (x : A) :
  l !! k = Some x → P x = true →
  (∀ k' y, (k < k')%nat → l !! k' = Some y → P y = false) →
  last (List.filter P l) = Some x.
Proof.
  intros Hk HP Hafter.
  rewrite <- (take_drop_middle l k x Hk), List.filter_app. cbn [List.filter].
  rewrite HP, (filter_none P (drop (S k) l)); [by rewrite last_snoc|].
  apply Forall_lookup_2. intros i y Hi. rewrite lookup_drop in Hi.
  by apply (Hafter (S k + i)%nat); [lia|].
Qed.

(** X1.  [appendLogs] decodes the payload of the last configuration body of
    the batch and no other.  When that payload does not decode, the call
    returns the decoder's error and leaves the server as it was: no entry of
    the batch is stored, whatever the other bodies are. *)
Theorem appendLogs_undecodable_configuration
    (bodies : list LogBody.t) (k : nat) (body : LogBody.t) (err : error) (s : Server.t) :
  bodies !! k = Some body →
  isConfiguration body = true →
  (∀ k' body', (k < k')%nat → bodies !! k' = Some body' → isConfiguration body' = false) →
  proto_Unmarshal (LogBody.Data body) = Err err →
  appendLogs proto_Unmarshal bodies s = Returns (Err err, s).
Proof.
  intros Hk Hconf Hafter Herr.
  apply (appendLogs_decode_error bodies body err s); [|exact Herr].
  by apply (last_filter_lookup _ bodies k).
Qed.

(** X3.  When the last configuration body of the batch (at position [k])
    decodes, the call succeeds, the decoded configuration becomes the latest
    configuration under the index assigned to that body, the committed
    configuration stays and the server loop is asked to reselect. *)
Theorem appendLogs_adopts_last_configuration
    (bodies : list LogBody.t) (k : nat) (body : LogBody.t) (c : Configuration.t)
    (s : Server.t) :
  bodies !! k = Some body →
  isConfiguration body = true →
  (∀ k' body', (k < k')%nat → bodies !! k' = Some body' → isConfiguration body' = false) →
  proto_Unmarshal (LogBody.Data body) = Ok c →
  ∃ metas s',
    appendLogs proto_Unmarshal bodies s = Returns (Ok metas, s')
    ∧ confStore_Latest s'
      = newConfiguration c (u64_add (u64_add (lastLogIndex s) 1) (N.of_nat k))
    ∧ configurationStore.committed (Server.confStore s')
      = configurationStore.committed (Server.confStore s)
    ∧ shouldReselectLoop s' = true.
Proof.
  intros Hk Hconf Hafter Hdecode. rewrite appendLogs_unfold. cbv zeta.
  rewrite appendLogs_decoded_last.
  set (logs := newLogs (lastLogIndex s) (currentTerm s) bodies).
  set (log := Log.mk (LogMeta.mk (u64_add (u64_add (lastLogIndex s) 1) (N.of_nat k))
                        (currentTerm s)) (LogBody.Copy body)).
  assert (last (List.filter (λ log, isConfiguration (Log.Body log)) logs) = Some log) as ->.
  { apply (last_filter_lookup _ logs k).
    - unfold logs. by rewrite newLogs_lookup, Hk.
    - cbn. by rewrite LogBody_Copy_id.
    - intros k' y Hlt Hy. unfold logs in Hy. rewrite newLogs_lookup in Hy.
      destruct (bodies !! k') as [body'|] eqn:Hk'; [|done].
      injection Hy as <-. cbn. rewrite LogBody_Copy_id. by apply (Hafter k'). }
  cbn [log Log.Body Log.Meta LogMeta.Index]. rewrite LogBody_Copy_id, Hdecode.
  eexists _, _. split; [reflexivity|]. by repeat split.
Qed.

(** Without a configuration body nothing is decoded: the entries are
    appended, the configuration store and the reselect flag stay. *)
Lemma appendLogs_commands_only (bodies : list LogBody.t) (s : Server.t) :
  Forall (λ body, isConfiguration body = false) bodies →
  appendLogs proto_Unmarshal bodies s
  = Returns (Ok (Log.Meta <$> newLogs (lastLogIndex s) (currentTerm s) bodies),
             appendLogs_done None (newLogs (lastLogIndex s) (currentTerm s) bodies) s).
Proof.
  intros Hcmd. rewrite appendLogs_unfold. cbv zeta.
  rewrite appendLogs_decoded_last.
  pose proof (last_filter_newLogs (lastLogIndex s) (currentTerm s) bodies) as H.
  rewrite (filter_none _ _ Hcmd) in H. revert H.
  by destruct (last (List.filter _ (newLogs _ _ _))) as [log|].
Qed.

(** X2.  An accepted batch, appended to a log whose last index the server
    holds, gets the next indices in order and the current term: the metas
    returned and the entries stored agree, and every body is stored as it
    was given. *)
Theorem appendLogs_assigns_consecutive_indices (bodies : list LogBody.t) (s : Server.t) :
  accepted proto_Unmarshal bodies = true →
  lastLogIndex s + N.of_nat (length bodies) < uint64_modulus →
  lastLogIndex s = logStore.LastIndex (Server.logStore s) →
  Forall (λ e, logStore.indexOf e ≤ lastLogIndex s) (Server.logStore s) →
  ∃ metas s',
    appendLogs proto_Unmarshal bodies s = Returns (Ok metas, s')
    ∧ length metas = length bodies
    ∧ lastLogIndex s' = lastLogIndex s + N.of_nat (length bodies)
    ∧ currentTerm s' = currentTerm s
    ∧ ∀ (i : nat) (body : LogBody.t),
        bodies !! i = Some body →
        let meta := LogMeta.mk (lastLogIndex s + 1 + N.of_nat i) (currentTerm s) in
        metas !! i = Some meta
        ∧ logStore.Entry (Server.logStore s') (lastLogIndex s + 1 + N.of_nat i)
          = Some (Log.mk meta body).
Proof.
  intros Hacc Hbound Hlast Hbelow. rewrite appendLogs_unfold. cbv zeta.
  pose proof (appendLogs_decoded_accepted proto_Unmarshal (lastLogIndex s) (currentTerm s)
                bodies) as Hdec.
  rewrite Hacc in Hdec.
  set (logs := newLogs (lastLogIndex s) (currentTerm s) bodies) in *.
  destruct (appendLogs_decoded proto_Unmarshal logs) as [conf|err]; [|done].
  assert (indexed_from (lastLogIndex s + 1) logs) as Hlogs by (by apply newLogs_indexed).
  eexists _, _. split; [reflexivity|].
  split; [by rewrite length_fmap; apply newLogs_length|].
  split; [|split].
  - transitivity (logStore.LastIndex (logStore.AppendLogs (Server.logStore s) logs));
      [by destruct conf|].
    unfold logStore.AppendLogs.
    rewrite (LastIndex_app_indexed _ logs (lastLogIndex s)); [|done|done].
    unfold logs. by rewrite newLogs_length.
  - by destruct conf.
  - intros i body Hi.
    set (meta := LogMeta.mk (lastLogIndex s + 1 + N.of_nat i) (currentTerm s)).
    assert (logs !! i = Some (Log.mk meta body)) as Hlog.
    { unfold logs. rewrite newLogs_lookup, Hi. cbn. rewrite LogBody_Copy_id.
      apply lookup_lt_Some in Hi.
      rewrite (u64_add_small (lastLogIndex s) 1) by lia.
      by rewrite u64_add_small by lia. }
    split.
    + by rewrite list_lookup_fmap, Hlog.
    + replace (Server.logStore (appendLogs_done conf logs s))
        with (Server.logStore s ++ logs) by (by destruct conf).
      rewrite Entry_app_skip.
      * rewrite (Entry_indexed _ _ Hlogs). exact Hlog.
      * eapply Forall_impl; [exact Hbelow|]. cbn. intros; lia.
Qed.

End AppendLogsProperties.

(** X1 (witness).  B gets a batch whose first configuration body decodes and
    whose last one does not. *)
Lemma appendLogs_undecodable_configuration_witness :
  appendLogs Examples.Wire.proto_Unmarshal Examples.mixedBatch Examples.followerB
  = Returns (Err Examples.Wire.malformed, Examples.followerB).
Proof.
  apply (appendLogs_undecodable_configuration Examples.Wire.proto_Unmarshal
           Examples.mixedBatch 2 Examples.brokenConfiguration).
  - reflexivity.
  - reflexivity.
  - intros k' body' Hlt Hk'.
    destruct k' as [|[|[|[|k']]]]; try lia; vm_compute in Hk'; [|discriminate].
    by injection Hk' as <-.
  - reflexivity.
Defined.

(** X2 (witness).  B, with two entries, appends a command, the configuration
    of A alone and a command. *)
Lemma appendLogs_assigns_consecutive_indices_witness :
  ∃ metas s',
    appendLogs Examples.Wire.proto_Unmarshal Examples.reconfigureBatch
      Examples.followerB_applied2 = Returns (Ok metas, s')
    ∧ length metas = length Examples.reconfigureBatch
    ∧ lastLogIndex s' = 5
    ∧ currentTerm s' = 2
    ∧ ∀ (i : nat) (body : LogBody.t),
        Examples.reconfigureBatch !! i = Some body →
        let meta := LogMeta.mk (2 + 1 + N.of_nat i) 2 in
        metas !! i = Some meta
        ∧ logStore.Entry (Server.logStore s') (2 + 1 + N.of_nat i) = Some (Log.mk meta body).
Proof.
  apply (appendLogs_assigns_consecutive_indices Examples.Wire.proto_Unmarshal
           Examples.reconfigureBatch Examples.followerB_applied2).
  - reflexivity.
  - reflexivity.
  - reflexivity.
  - repeat constructor; by_evaluation.
Defined.

(** X3 (witness).  The configuration of A alone is the second body of the
    batch B appends. *)
Lemma appendLogs_adopts_last_configuration_witness :
  ∃ metas s',
    appendLogs Examples.Wire.proto_Unmarshal Examples.reconfigureBatch Examples.followerB
    = Returns (Ok metas, s')
    ∧ confStore_Latest s' = newConfiguration Examples.aloneA 2
    ∧ configurationStore.committed (Server.confStore s')
      = configurationStore.committed (Server.confStore Examples.followerB)
    ∧ shouldReselectLoop s' = true.
Proof.
  apply (appendLogs_adopts_last_configuration Examples.Wire.proto_Unmarshal
           Examples.reconfigureBatch 1
           (LogBody.mk LogType_CONFIGURATION Examples.aloneA_encoded)).
  - reflexivity.
  - reflexivity.
  - intros k' body' Hlt Hk'.
    destruct k' as [|[|[|k']]]; try lia; vm_compute in Hk'; [|discriminate].
    by injection Hk' as <-.
  - reflexivity.
Defined.

(** ** [commitAndApply] *)

Lemma applyLoop_commands (fuel : nat) :
  ∀ (i commitIndex commitTerm : N) (lastConfigurationLog : option Log.t) (s : Server.t),
    commitIndex + 1 < uint64_modulus →
    i ≤ commitIndex + 1 →
    (∀ k, i ≤ k ≤ commitIndex → is_Some (logStore.Entry (Server.logStore s) k)) →
    (N.to_nat (commitIndex + 1 - i) < fuel)%nat →
    ∃ commitTerm' lastConfigurationLog',
      applyLoop fuel i commitIndex commitTerm lastConfigurationLog s
      = Some (Returns
                ((commitTerm', lastConfigurationLog'),
                 Server.with_stateMachine
                   (Server.stateMachine s
                    ++ commandsFrom (Server.logStore s) i (N.to_nat (commitIndex + 1 - i)))
                   s))
      ∧ (i ≤ commitIndex →
         Some commitTerm' = logStore.termOf <$> logStore.Entry (Server.logStore s) commitIndex)
      ∧ (lastConfigurationLog' = lastConfigurationLog
         ∨ ∃ k log, i ≤ k ≤ commitIndex
                    ∧ logStore.Entry (Server.logStore s) k = Some log
                    ∧ isConfiguration (Log.Body log) = true).
Proof.
  induction fuel as [|fuel IH]; intros i ci ct lcl s Hci Hi Hentries Hfuel; [lia|].
  cbn [applyLoop]. destruct (i <=? ci) eqn:Hle.
  - apply N.leb_le in Hle.
    destruct (Hentries i ltac:(lia)) as [log Hlog]. rewrite Hlog.
    rewrite (u64_add_small i 1) by lia.
    replace (N.to_nat (ci + 1 - i)) with (S (N.to_nat (ci + 1 - (i + 1)))) by lia.
    cbn [commandsFrom]. rewrite Hlog.
    set (ct1 := if i =? ci then LogMeta.Term (Log.Meta log) else ct).
    assert (∀ ct2, (i + 1 ≤ ci →
                    Some ct2 = logStore.termOf <$> logStore.Entry (Server.logStore s) ci) →
                   (ci < i + 1 → ct2 = ct1) →
                   Some ct2 = logStore.termOf <$> logStore.Entry (Server.logStore s) ci)
      as Hterm.
    { intros ct2 H1 H2. destruct (decide (i + 1 ≤ ci)) as [Hlt|Hge]; [by apply H1|].
      rewrite H2 by lia. assert (i = ci) as <- by lia.
      unfold ct1. by rewrite N.eqb_refl, Hlog. }
    destruct (LogBody.Type_ (Log.Body log)) eqn:Htype.
    + destruct (IH (i + 1) ci ct1 lcl
                  (Server.with_stateMachine
                     (Server.stateMachine s ++ [LogBody.Data (Log.Body log)]) s))
        as (ct2 & lcl2 & Hrun & Hct2 & Hlcl2); try lia.
      { intros k Hk. apply Hentries. lia. }
      rewrite Hrun. cbn [Server.logStore Server.stateMachine Server.with_stateMachine].
      rewrite <- app_assoc. eexists _, _. split; [reflexivity|]. split.
      * intros _. apply Hterm; [done|].
        intros Hgt. revert Hrun. clear -Hgt Hci Hfuel.
        destruct fuel as [|fuel]; cbn [applyLoop]; [discriminate|].
        replace (i + 1 <=? ci) with false by (symmetry; apply N.leb_gt; lia).
        by intros [= <- _].
      * destruct Hlcl2 as [->|(k & log' & Hk & Hlog' & Hconf)]; [by left|].
        right. exists k, log'. split; [lia|]. by split.
    + destruct (IH (i + 1) ci ct1 (Some log) s) as (ct2 & lcl2 & Hrun & Hct2 & Hlcl2);
        try lia.
      { intros k Hk. apply Hentries. lia. }
      rewrite Hrun. cbn [app]. eexists _, _. split; [reflexivity|]. split.
      * intros _. apply Hterm; [done|].
        intros Hgt. revert Hrun. clear -Hgt Hci Hfuel.
        destruct fuel as [|fuel]; cbn [applyLoop]; [discriminate|].
        replace (i + 1 <=? ci) with false by (symmetry; apply N.leb_gt; lia).
        by intros [= <- _].
      * right. exists i, log. split; [lia|]. split; [done|].
        unfold isConfiguration. by rewrite Htype.
  - apply N.leb_gt in Hle.
    replace (N.to_nat (ci + 1 - i)) with 0%nat by lia. cbn [commandsFrom].
    rewrite app_nil_r. destruct s. eexists _, _. split; [reflexivity|].
    split; [lia|by left].
Qed.

Lemma applyLoop_gap (fuel : nat) :
  ∀ (i commitIndex commitTerm k : N) (lastConfigurationLog : option Log.t) (s : Server.t),
    commitIndex + 1 < uint64_modulus →
    i ≤ k ≤ commitIndex →
    logStore.Entry (Server.logStore s) k = None →
    (N.to_nat (commitIndex + 1 - i) < fuel)%nat →
    applyLoop fuel i commitIndex commitTerm lastConfigurationLog s
    = Some (Crashes (Panicw "one or more log gaps are detected")).
Proof.
  induction fuel as [|fuel IH]; intros i ci ct k lcl s Hci Hk Hgap Hfuel; [lia|].
  cbn [applyLoop]. replace (i <=? ci) with true by (symmetry; apply N.leb_le; lia).
  destruct (logStore.Entry (Server.logStore s) i) as [log|] eqn:Hlog; [|reflexivity].
  assert (i ≠ k) as Hik by (intros ->; congruence).
  rewrite (u64_add_small i 1) by lia.
  destruct (LogBody.Type_ (Log.Body log)); apply (IH _ _ _ k); try done; lia.
Qed.

Lemma applyLoop_outsideCommit (fuel : nat) :
  ∀ (i commitIndex commitTerm : N) (lastConfigurationLog : option Log.t) (s : Server.t)
    r (s' : Server.t),
    applyLoop fuel i commitIndex commitTerm lastConfigurationLog s = Some (Returns (r, s')) →
    outsideCommit s' = outsideCommit s.
Proof.
  induction fuel as [|fuel IH]; intros i ci ct lcl s r s'; [done|].
  cbn [applyLoop]. destruct (i <=? ci); [|by intros [= _ <-]].
  destruct (logStore.Entry (Server.logStore s) i) as [log|]; [|done].
  destruct (LogBody.Type_ (Log.Body log)); intros H; apply IH in H; by rewrite H.
Qed.

Section CommitAndApplyProperties.

Context (proto_Unmarshal : list byte → result Configuration.t).
Context (proto_Marshal : Configuration.t → result (list byte)).

Lemma commitConfiguration_frame (log : Log.t) (s : Server.t) :
  (∀ c, ∃ data, proto_Marshal c = Ok data) →
  ∃ s', commitConfiguration proto_Unmarshal proto_Marshal log s = Returns (tt, s')
        ∧ Server.commit s' = Server.commit s
        ∧ Server.stateMachine s' = Server.stateMachine s
        ∧ Server.logStore s' = Server.logStore s
        ∧ Server.state s' = Server.state s.
Proof.
  intros Hmarshal. unfold commitConfiguration, confStore_CommitTransition. unfold_M.
  destruct (configuration.Joint (confStore_Latest s)
            && (configuration.LogIndex (confStore_Latest s)
                =? LogMeta.Index (Log.Meta log))).
  - destruct (Hmarshal (Configuration.mk
                (Config.mk (config.Peers (configuration.NextConfig (confStore_Latest s))))
                None)) as [data ->].
    eexists. split; [reflexivity|]. by repeat split.
  - eexists. split; [reflexivity|]. by repeat split.
Qed.

Lemma commitAndApply_run (fuel : nat) (newCommitIndex : N) (s : Server.t) :
  let target := N.min newCommitIndex (lastLogIndex s) in
  let applied := LogMeta.Index (lastApplied s) in
  applied ≤ target →
  (∀ k, applied < k ≤ target → is_Some (logStore.Entry (Server.logStore s) k)) →
  target + 1 < uint64_modulus →
  ((∀ c, ∃ data, proto_Marshal c = Ok data)
   ∨ ∀ k log, applied < k ≤ target →
              logStore.Entry (Server.logStore s) k = Some log →
              isConfiguration (Log.Body log) = false) →
  (N.to_nat (target - applied) < fuel)%nat →
  ∃ s',
    commitAndApply proto_Unmarshal proto_Marshal fuel newCommitIndex s = Some (Returns (tt, s'))
    ∧ Server.stateMachine s'
      = Server.stateMachine s
        ++ commandsFrom (Server.logStore s) (applied + 1) (N.to_nat (target - applied))
    ∧ LogMeta.Index (lastApplied s') = target
    ∧ (applied < target →
       commitIndex s' = target
       ∧ Some (LogMeta.Term (lastApplied s'))
         = logStore.termOf <$> logStore.Entry (Server.logStore s) target)
    ∧ Server.logStore s' = Server.logStore s
    ∧ Server.state s' = Server.state s.
Proof.
  intros target applied Hle Hentries Hroom Hmarshal Hfuel.
  unfold commitAndApply.
  replace (if lastLogIndex s <? newCommitIndex then lastLogIndex s else newCommitIndex)
    with target.
  2:{ unfold target. destruct (lastLogIndex s <? newCommitIndex) eqn:H.
      - apply N.ltb_lt in H. lia.
      - apply N.ltb_ge in H. lia. }
  fold applied.
  destruct (applied =? target) eqn:Heq.
  - apply N.eqb_eq in Heq. exists s. split; [reflexivity|].
    replace (N.to_nat (target - applied)) with 0%nat by lia.
    cbn [commandsFrom]. rewrite app_nil_r. repeat split; try done; lia.
  - apply N.eqb_neq in Heq.
    replace (target <? applied) with false by (symmetry; apply N.ltb_ge; lia).
    rewrite (u64_add_small _ 1) by lia.
    destruct (applyLoop_commands fuel (applied + 1) target 0 None (setCommitIndex target s))
      as (commitTerm & lastConfigurationLog & Hloop & Hterm & Hlcl); try lia.
    { intros k Hk. apply Hentries. lia. }
    rewrite Hloop. unfold_M.
    replace (N.to_nat (target + 1 - (applied + 1))) with (N.to_nat (target - applied)) by lia.
    cbn [Server.logStore Server.stateMachine setCommitIndex Server.with_commit].
    set (s1 := Server.with_stateMachine _ _).
    specialize (Hterm ltac:(lia)). cbn [Server.logStore setCommitIndex Server.with_commit] in Hterm.
    destruct lastConfigurationLog as [log|].
    + assert (∀ c, ∃ data, proto_Marshal c = Ok data) as Hmarshal'.
      { destruct Hmarshal as [H|Hnone]; [exact H|]. exfalso.
        destruct Hlcl as [?|(k & log' & Hk & Hlog' & Hconf)]; [done|].
        cbn [Server.logStore setCommitIndex Server.with_commit] in Hlog'.
        rewrite (Hnone k log' ltac:(lia) Hlog') in Hconf. discriminate. }
      destruct (commitConfiguration_frame log s1 Hmarshal')
        as (s2 & -> & Hcommit2 & Hsm2 & Hstore2 & Hstate2).
      eexists. split; [reflexivity|].
      unfold commitIndex, lastApplied.
      cbn [setLastApplied Server.with_commit Server.commit Server.stateMachine
           Server.logStore Server.state commitState.stateCommitIndex
           commitState.stateLastApplied LogMeta.Index LogMeta.Term].
      rewrite Hcommit2, Hsm2, Hstore2, Hstate2. by repeat split.
    + eexists. split; [reflexivity|]. by repeat split.
Qed.

Lemma commitConfiguration_outsideCommit (log : Log.t) (s s' : Server.t) :
  commitConfiguration proto_Unmarshal proto_Marshal log s = Returns (tt, s') →
  outsideCommit s' = outsideCommit s.
Proof.
  unfold commitConfiguration, confStore_CommitTransition. unfold_M.
  destruct (configuration.Joint (confStore_Latest s) && _).
  - destruct (proto_Marshal _); [|done]. by intros [= <-].
  - by intros [= <-].
Qed.

Lemma commitAndApply_outsideCommit (fuel : nat) (newCommitIndex : N) (s s' : Server.t) :
  commitAndApply proto_Unmarshal proto_Marshal fuel newCommitIndex s
  = Some (Returns (tt, s')) →
  outsideCommit s' = outsideCommit s.
Proof.
  unfold commitAndApply.
  destruct (LogMeta.Index (lastApplied s) =? _); [by intros [= <-]|].
  destruct (_ <? LogMeta.Index (lastApplied s)); [done|].
  destruct (applyLoop _ _ _ _ _ _) as [[[[ct lcl] s1]|f]|] eqn:Hloop; [|done|done].
  apply applyLoop_outsideCommit in Hloop. unfold_M.
  destruct lcl as [log|].
  - destruct (commitConfiguration _ _ log s1) as [[[] s2]|f] eqn:Hconf; [|done].
    apply commitConfiguration_outsideCommit in Hconf.
    intros [= <-]. unfold outsideCommit in *. cbn in *. congruence.
  - intros [= <-]. unfold outsideCommit in *. cbn in *. congruence.
Qed.

(** X5.  When an entry between the last applied index and the target (the
    smaller of the new commit index and the last log index) is missing,
    [commitAndApply] panics with the message about log gaps. *)
Theorem commitAndApply_gap_panics (fuel : nat) (newCommitIndex k : N) (s : Server.t) :
  let target := N.min newCommitIndex (lastLogIndex s) in
  LogMeta.Index (lastApplied s) < k ≤ target →
  logStore.Entry (Server.logStore s) k = None →
  target + 1 < uint64_modulus →
  (N.to_nat (target - LogMeta.Index (lastApplied s)) < fuel)%nat →
  commitAndApply proto_Unmarshal proto_Marshal fuel newCommitIndex s
  = Some (Crashes (Panicw "one or more log gaps are detected")).
Proof.
  intros target Hk Hgap Hroom Hfuel.
  unfold commitAndApply.
  replace (if lastLogIndex s <? newCommitIndex then lastLogIndex s else newCommitIndex)
    with target.
  2:{ unfold target. destruct (lastLogIndex s <? newCommitIndex) eqn:H.
      - apply N.ltb_lt in H. lia.
      - apply N.ltb_ge in H. lia. }
  replace (LogMeta.Index (lastApplied s) =? target) with false
    by (symmetry; apply N.eqb_neq; lia).
  replace (target <? LogMeta.Index (lastApplied s)) with false
    by (symmetry; apply N.ltb_ge; lia).
  rewrite (u64_add_small _ 1) by lia.
  rewrite (applyLoop_gap fuel _ target 0 k None (setCommitIndex target s)); try done; lia.
Qed.

(** X4.  When every entry between the last applied index and the target is
    stored, [commitAndApply] passes the payloads of the command entries in
    that range to the state machine in index order and no other, moves the
    last applied index to the target and, when it advanced, the commit index
    too; the applied term is that of the target entry.  The log and the
    role, term and vote are untouched. *)
Theorem commitAndApply_applies_in_order (fuel : nat) (newCommitIndex : N) (s : Server.t) :
  let target := N.min newCommitIndex (lastLogIndex s) in
  let applied := LogMeta.Index (lastApplied s) in
  applied ≤ target →
  (∀ k, applied < k ≤ target → is_Some (logStore.Entry (Server.logStore s) k)) →
  target + 1 < uint64_modulus →
  (∀ c, ∃ data, proto_Marshal c = Ok data) →
  (N.to_nat (target - applied) < fuel)%nat →
  ∃ s',
    commitAndApply proto_Unmarshal proto_Marshal fuel newCommitIndex s
    = Some (Returns (tt, s'))
    ∧ Server.stateMachine s'
      = Server.stateMachine s
        ++ commandsFrom (Server.logStore s) (applied + 1) (N.to_nat (target - applied))
    ∧ LogMeta.Index (lastApplied s') = target
    ∧ (applied < target →
       commitIndex s' = target
       ∧ Some (LogMeta.Term (lastApplied s'))
         = logStore.termOf <$> logStore.Entry (Server.logStore s) target)
    ∧ Server.logStore s' = Server.logStore s
    ∧ Server.state s' = Server.state s.
Proof.
  intros target applied Hle Hentries Hroom Hmarshal Hfuel.
  apply commitAndApply_run; auto.
Qed.

End CommitAndApplyProperties.

(** X4 (witness).  B applies its two entries when told commit index 5. *)
Lemma commitAndApply_applies_in_order_witness :
  ∃ s',
    commitAndApply Examples.proto_Unmarshal Examples.proto_Marshal 3 5
      Examples.followerB_unapplied = Some (Returns (tt, s'))
    ∧ Server.stateMachine s' = [["x"%byte]; ["y"%byte]]
    ∧ LogMeta.Index (lastApplied s') = 2
    ∧ (0 < 2 →
       commitIndex s' = 2
       ∧ Some (LogMeta.Term (lastApplied s')) = Some 2)
    ∧ Server.logStore s' = Server.logStore Examples.followerB_unapplied
    ∧ Server.state s' = Server.state Examples.followerB_unapplied.
Proof.
  apply (commitAndApply_applies_in_order Examples.proto_Unmarshal Examples.proto_Marshal
           3 5 Examples.followerB_unapplied).
  - by_evaluation.
  - intros k Hk. change (0 < k ≤ 2) in Hk.
    assert (k = 1 ∨ k = 2) as [-> | ->] by lia; by eexists.
  - reflexivity.
  - intros c. by eexists.
  - by_evaluation.
Defined.

(** X5 (witness).  B holds the entries 1 and 3 and is told commit index 3. *)
Lemma commitAndApply_gap_panics_witness :
  commitAndApply Examples.proto_Unmarshal Examples.proto_Marshal 4 3 Examples.followerB_gap
  = Some (Crashes (Panicw "one or more log gaps are detected")).
Proof.
  apply (commitAndApply_gap_panics Examples.proto_Unmarshal Examples.proto_Marshal
           4 3 2 Examples.followerB_gap).
  - split; by_evaluation.
  - reflexivity.
  - reflexivity.
  - by_evaluation.
Defined.

(** ** The commit trigger (C4) *)

(** The conflict scan fails in one way only: it reads the term of a
    missing entry. *)
Lemma scanConflicts_crash (store : list Log.t) (lastLogIndex : N) (entries : list Log.t) :
  ∀ (i : nat) (f : Fault),
    scanConflicts store lastLogIndex entries i = Crashes f → f = NilDereference.
Proof.
  induction entries as [|e entries IH]; intros i f; cbn [scanConflicts]; [done|].
  destruct (lastLogIndex <? logStore.indexOf e); [done|].
  destruct (logStore.Entry store (logStore.indexOf e)) as [log|]; [|by intros [= <-]].
  destruct (negb _); [done|apply IH].
Qed.

Lemma applyLoop_channels (fuel : nat) :
  ∀ (i commitIndex commitTerm : N) (lastConfigurationLog : option Log.t) (s : Server.t)
    r (s' : Server.t),
    applyLoop fuel i commitIndex commitTerm lastConfigurationLog s = Some (Returns (r, s')) →
    Server.channels s' = Server.channels s.
Proof.
  induction fuel as [|fuel IH]; intros i ci ct lcl s r s'; [done|].
  cbn [applyLoop]. destruct (i <=? ci); [|by intros [= _ <-]].
  destruct (logStore.Entry (Server.logStore s) i) as [log|]; [|done].
  destruct (LogBody.Type_ (Log.Body log)); intros H; apply IH in H; by rewrite H.
Qed.

Section CommitTriggerTheorem.

Context (proto_Unmarshal : list byte → result Configuration.t).
Context (proto_Marshal : Configuration.t → result (list byte)).

Lemma appendRequestEntries_crash (es : list Log.t) (s : Server.t) (f : Fault) :
  appendRequestEntries proto_Unmarshal es s = Crashes f → f = NilDereference.
Proof.
  unfold appendRequestEntries. unfold_M.
  assert (∀ (k : nat) (x : Server.t),
            match appendLogs proto_Unmarshal
                    ((λ e, LogBody.Copy (Log.Body e)) <$> drop k es) x with
            | Returns (_, s'0) => Returns (tt, s'0)
            | Crashes f => Crashes f
            end ≠ Crashes f) as Hlogs.
  { intros k x.
    destruct (appendLogs_outsideLog proto_Unmarshal
                ((λ e, LogBody.Copy (Log.Body e)) <$> drop k es) x) as (r & x' & -> & _).
    done. }
  destruct es as [|e0 es']; [intros H; by apply Hlogs in H|].
  destruct (logStore.indexOf e0 <=? lastLogIndex s); [|intros H; by apply Hlogs in H].
  destruct (scanConflicts _ _ _ _) as [[j c]|f0] eqn:Hscan.
  - destruct (0 <? c); intros H; by apply Hlogs in H.
  - intros [= <-]. by apply scanConflicts_crash in Hscan.
Qed.

(** The apply step sends nothing on the commit channel. *)
Lemma commitAndApply_commitCh (fuel : nat) (newCommitIndex : N) (s s' : Server.t) :
  commitAndApply proto_Unmarshal proto_Marshal fuel newCommitIndex s
  = Some (Returns (tt, s')) →
  serverChannels.commitCh (Server.channels s')
  = serverChannels.commitCh (Server.channels s).
Proof.
  unfold commitAndApply.
  destruct (LogMeta.Index (lastApplied s) =? _); [by intros [= <-]|].
  destruct (_ <? LogMeta.Index (lastApplied s)); [done|].
  destruct (applyLoop _ _ _ _ _ _) as [[[[ct lcl] s1]|f]|] eqn:Hloop; [|done|done].
  apply applyLoop_channels in Hloop. cbn in Hloop. unfold_M.
  destruct lcl as [log|]; [|intros [= <-]; cbn; by rewrite Hloop].
  unfold commitConfiguration, confStore_CommitTransition. unfold_M.
  destruct (configuration.Joint (confStore_Latest s1) && _).
  - destruct (proto_Marshal _); [|done]. intros [= <-]. cbn. by rewrite Hloop.
  - intros [= <-]. cbn. by rewrite Hloop.
Qed.

(** C4 (amended).  A request that passes the term and previous-log checks
    either makes the handler read a missing entry in its conflict scan (a
    nil dereference) or is answered with success.  In the latter case the
    handler leaves the commit index as it is: when [leaderCommit] exceeds
    the commit index it is sent on the commit channel (the apply step is
    triggered), otherwise nothing is sent.  The step runs when the server's
    loop takes [leaderCommit] from the channel: if, in the state the loop is
    in then, the commit state is in order ([lastApplied ≤ commitIndex ≤
    min(leaderCommit, lastLogIndex)]), the log holds every entry up to that
    index, the index is below the wrap-around of the loop counter and the
    configuration marshaller does not fail, the step ends with
    [commitIndex = lastApplied = min(leaderCommit, lastLogIndex)], in
    whichever of the three loops the server is. *)
Theorem AppendEntries_commit_trigger (request : AppendEntriesRequest.t) (s : Server.t) :
  currentTerm s ≤ AppendEntriesRequest.Term request →
  prevLogMismatch request (Server.logStore s) = false →
  let leaderCommit := AppendEntriesRequest.LeaderCommit request in
  AppendEntries proto_Unmarshal request s = Crashes NilDereference
  ∨ ∃ response s1,
      AppendEntries proto_Unmarshal request s = Returns (response, s1)
      ∧ AppendEntriesResponse.Success response = true
      ∧ commitIndex s1 = commitIndex s
      ∧ serverChannels.commitCh (Server.channels s1)
        = serverChannels.commitCh (Server.channels s)
          ++ (if commitIndex s <? leaderCommit then [leaderCommit] else [])
      ∧ ∀ (fuel : nat) (s2 : Server.t) (rest : list N),
          serverChannels.commitCh (Server.channels s2) = leaderCommit :: rest →
          let target := N.min leaderCommit (lastLogIndex s2) in
          LogMeta.Index (lastApplied s2) ≤ commitIndex s2 →
          commitIndex s2 ≤ target →
          (∀ k, LogMeta.Index (lastApplied s2) < k ≤ target →
                is_Some (logStore.Entry (Server.logStore s2) k)) →
          target + 1 < uint64_modulus →
          (∀ c, ∃ data, proto_Marshal c = Ok data) →
          (N.to_nat (target - LogMeta.Index (lastApplied s2)) < fuel)%nat →
          ∃ s2' s3,
            takeCommitCh s2 = Some (leaderCommit, s2')
            ∧ commitAndApply proto_Unmarshal proto_Marshal fuel leaderCommit s2'
              = Some (Returns (tt, s3))
            ∧ commitIndex s3 = target
            ∧ LogMeta.Index (lastApplied s3) = target
            ∧ serverChannels.commitCh (Server.channels s3) = rest
            ∧ (role s2 = Follower →
               ∃ exit,
                 runLoopFollower proto_Unmarshal proto_Marshal [followerCommitChHead fuel] s2
                 = Returns ((exit, []), s3))
            ∧ (role s2 = Candidate →
               ∀ c currentVotes nextVotes, ∃ exit,
                 candidateLoop proto_Unmarshal proto_Marshal c [commitChHead fuel]
                   currentVotes nextVotes s2
                 = Returns (exit, s3))
            ∧ (role s2 = Leader →
               ∃ exit,
                 runLoopLeader proto_Unmarshal proto_Marshal [leaderCommitChHead fuel] s2
                 = Returns ((exit, []), s3)).
Proof.
  intros Hterm Hprev leaderCommit.
  rewrite AppendEntries_unfold.
  replace (AppendEntriesRequest.Term request <? currentTerm s) with false
    by (symmetry; apply N.ltb_ge; lia).
  cbv zeta.
  set (t := AppendEntries_term request (AppendEntries_leader request s)) in *.
  destruct (AppendEntries_prelude_frame request s)
    as (Hstore_t & _ & Hcommit_t & Hchannels_t & _).
  fold t in Hstore_t, Hcommit_t, Hchannels_t.
  rewrite Hstore_t, Hprev.
  assert ((if (0 <? length (AppendEntriesRequest.Entries request))%nat
           then appendRequestEntries proto_Unmarshal (AppendEntriesRequest.Entries request) t
           else Returns (tt, t)) = Crashes NilDereference
          ∨ ∃ t2, (if (0 <? length (AppendEntriesRequest.Entries request))%nat
                   then appendRequestEntries proto_Unmarshal
                          (AppendEntriesRequest.Entries request) t
                   else Returns (tt, t)) = Returns (tt, t2)
                  ∧ Server.commit t2 = Server.commit s
                  ∧ Server.channels t2 = Server.channels s) as [->|(t2 & -> & Hcommit2 & Hch2)].
  { destruct (0 <? length (AppendEntriesRequest.Entries request))%nat.
    - destruct (appendRequestEntries _ _ t) as [[[] t2]|fault] eqn:Hphase.
      + right. exists t2. split; [reflexivity|].
        apply appendRequestEntries_outsideLog in Hphase. unfold outsideLog in Hphase.
        split; congruence.
      + left. by apply appendRequestEntries_crash in Hphase as ->.
    - right. exists t. by split. }
  { by left. }
  right. eexists _, _. split; [reflexivity|]. split; [reflexivity|].
  destruct (AppendEntries_commit_frame request t2)
    as (_ & _ & Hc3 & _ & _ & _ & _ & Hch).
  assert (commitIndex t2 = commitIndex s) as Hci2 by (unfold commitIndex; congruence).
  rewrite Hci2, Hch2 in Hch. fold leaderCommit in Hch.
  split; [unfold commitIndex; congruence|]. split; [exact Hch|].
  intros fuel s2 rest Hqueue Hla Hci Hentries Hroom Hmarshal Hfuel.
  set (target := N.min leaderCommit (lastLogIndex s2)) in *.
  set (s2' := Server.with_channels
                (serverChannels.mk rest (serverChannels.logOpsCh (Server.channels s2))) s2).
  assert (takeCommitCh s2 = Some (leaderCommit, s2')) as Htake
    by (unfold takeCommitCh; by rewrite Hqueue).
  destruct (commitAndApply_returns proto_Unmarshal proto_Marshal fuel leaderCommit s2')
    as (s3 & Hstep & Htarget & Happlied); try done.
  pose proof (commitAndApply_outsideCommit proto_Unmarshal proto_Marshal _ _ _ _ Hstep)
    as Hout.
  unfold outsideCommit in Hout.
  assert (role s3 = role s2 ∧ shouldReselectLoop s3 = shouldReselectLoop s2)
    as [Hrole3 Hflag3].
  { unfold role, shouldReselectLoop. split.
    - replace (Server.state s3) with (Server.state s2') by congruence. reflexivity.
    - replace (Server.flagReselectLoop s3) with (Server.flagReselectLoop s2')
        by congruence.
      reflexivity. }
  exists s2', s3. split; [exact Htake|]. split; [exact Hstep|].
  split; [exact Htarget|]. split; [exact Happlied|].
  split; [by rewrite (commitAndApply_commitCh _ _ _ _ Hstep)|].
  split; [|split].
  - intros Hrole. unfold runLoopFollower, followerLoop. unfold_M. rewrite Hrole.
    change (negb (ServerRole_eqb Follower Follower)) with false. cbv iota.
    cbn [followerSelect]. unfold_M. rewrite Htake, Hstep, Hflag3.
    destruct (shouldReselectLoop s2); [eexists; reflexivity|].
    cbv beta. rewrite Hrole3, Hrole. eexists; reflexivity.
  - intros Hrole c cv nv. unfold candidateLoop. unfold_M. rewrite Hrole.
    change (negb (ServerRole_eqb Candidate Candidate)) with false. cbv iota.
    cbn [candidateSelect]. unfold_M. rewrite Htake, Hstep, Hflag3.
    destruct (shouldReselectLoop s2); [eexists; reflexivity|].
    cbv beta. rewrite Hrole3, Hrole. eexists; reflexivity.
  - intros Hrole. unfold runLoopLeader, leaderLoop. unfold_M. rewrite Hrole.
    change (negb (ServerRole_eqb Leader Leader)) with false. cbv iota.
    cbn [leaderSelect]. unfold_M. rewrite Htake, Hstep, Hflag3.
    destruct (shouldReselectLoop s2); [eexists; reflexivity|].
    cbv beta. rewrite Hrole3, Hrole. eexists; reflexivity.
Qed.

End CommitTriggerTheorem.

(** B, with an empty log, stores the entries 1 and 2 and is told commit
    index 1: the index is on the commit channel, the commit index is still
    0, and the follower loop that takes it from the channel sets the commit
    index to 1. *)
Lemma AppendEntries_commit_trigger_witness :
  AppendEntries Examples.proto_Unmarshal Examples.twoEntries Examples.followerB
  = Returns (AppendEntriesResponse.mk "B" 2 true, Examples.followerB_twoEntries)
  ∧ commitIndex Examples.followerB_twoEntries = 0
  ∧ serverChannels.commitCh (Server.channels Examples.followerB_twoEntries) = [1]
  ∧ ∃ exit s3,
      runLoopFollower Examples.proto_Unmarshal Examples.proto_Marshal
        [followerCommitChHead 2] Examples.followerB_twoEntries
      = Returns ((exit, []), s3)
      ∧ commitIndex s3 = 1
      ∧ LogMeta.Index (lastApplied s3) = 1
      ∧ serverChannels.commitCh (Server.channels s3) = [].
Proof.
  destruct (AppendEntries_commit_trigger Examples.proto_Unmarshal Examples.proto_Marshal
              Examples.twoEntries Examples.followerB)
    as [Hcrash|(response & s1 & Hrun & _ & Hci & Hsent & Hstep)].
  - vm_compute. discriminate.
  - reflexivity.
  - vm_compute in Hcrash. discriminate Hcrash.
  - vm_compute in Hrun. injection Hrun as <- <-.
    split; [reflexivity|]. split; [exact Hci|]. split; [exact Hsent|].
    destruct (Hstep 2%nat Examples.followerB_twoEntries [])
      as (s2' & s3 & _ & _ & Htarget & Happlied & Hrest & Hloop & _).
    + reflexivity.
    + vm_compute. discriminate.
    + vm_compute. discriminate.
    + intros k Hk. change (0 < k ≤ 1) in Hk. assert (k = 1) as -> by lia.
      vm_compute. eexists. reflexivity.
    + vm_compute. reflexivity.
    + intros c. eexists. reflexivity.
    + vm_compute. lia.
    + destruct (Hloop eq_refl) as [exit Hexit].
      exists exit, s3. by repeat split.
Defined.

(** C4 (counterexample).  B holds five entries of term 2, none committed.
    Two heartbeats of the leader arrive, the first with commit index 5, the
    second with commit index 3; both pass the term and previous-log checks
    and find [leaderCommit] above B's commit index 0, because the handler
    never sets the commit index: 5 and 3 are sent on the commit channel.
    The follower loop takes 5 and moves the commit index and the last
    applied index to 5; it then takes 3, and the apply step panics because
    the last applied index is above [min(3, 5)].  The step triggered by the
    second request does not leave the commit index at 3. *)
Lemma AppendEntries_commit_trigger_panics :
  ∃ s1 s2 exit s3,
    AppendEntries Examples.proto_Unmarshal Examples.heartbeatCommit5 Examples.followerB_fiveEntries
    = Returns (AppendEntriesResponse.mk "B" 2 true, s1)
    ∧ commitIndex s1 < AppendEntriesRequest.LeaderCommit Examples.heartbeatCommit3
    ∧ AppendEntries Examples.proto_Unmarshal Examples.heartbeatCommit3 s1
      = Returns (AppendEntriesResponse.mk "B" 2 true, s2)
    ∧ serverChannels.commitCh (Server.channels s2) = [5; 3]
    ∧ N.min (AppendEntriesRequest.LeaderCommit Examples.heartbeatCommit3) (lastLogIndex s2) = 3
    ∧ runLoopFollower Examples.proto_Unmarshal Examples.proto_Marshal
        [followerCommitChHead 6] s2
      = Returns ((exit, []), s3)
    ∧ commitIndex s3 = 5
    ∧ serverChannels.commitCh (Server.channels s3) = [3]
    ∧ runLoopFollower Examples.proto_Unmarshal Examples.proto_Marshal
        [followerCommitChHead 6; followerCommitChHead 6] s2
      = Crashes (Panicw "confusing condition: lastAppliedIndex > commitIndex")
    ∧ runLoopFollower Examples.proto_Unmarshal Examples.proto_Marshal
        [followerRPC; followerHandlerRuns (rpcAppendEntries Examples.heartbeatCommit5);
         followerRPC; followerHandlerRuns (rpcAppendEntries Examples.heartbeatCommit3);
         followerCommitChHead 6; followerCommitChHead 6]
        Examples.followerB_fiveEntries
      = Crashes (Panicw "confusing condition: lastAppliedIndex > commitIndex").
Proof.
  eexists _, _, _, _.
  split; [vm_compute; reflexivity|]. split; [reflexivity|].
  split; [vm_compute; reflexivity|]. split; [reflexivity|]. split; [reflexivity|].
  split; [vm_compute; reflexivity|]. split; [reflexivity|]. split; [reflexivity|].
  split; vm_compute; reflexivity.
Qed.

(** ** The [AppendEntries] handler *)

Section AppendEntriesProperties.

Context (proto_Unmarshal : list byte → result Configuration.t).

(** The entries phase, when it returns, leaves everything but the log, the
    index state, the configuration store and the reselect flag. *)
Lemma AppendEntries_entries_phase (request : AppendEntriesRequest.t) (t t2 : Server.t) :
  (if (0 <? length (AppendEntriesRequest.Entries request))%nat
   then appendRequestEntries proto_Unmarshal (AppendEntriesRequest.Entries request) t
   else Returns (tt, t)) = Returns (tt, t2) →
  outsideLog t2 = outsideLog t.
Proof.
  destruct (0 <? length _)%nat.
  - apply appendRequestEntries_outsideLog.
  - by intros [= <-].
Qed.

(** The role after the leader and term steps of the handler. *)
Lemma AppendEntries_prelude_role (request : AppendEntriesRequest.t) (s : Server.t) :
  role (AppendEntries_term request (AppendEntries_leader request s))
  = (if currentTerm s <? AppendEntriesRequest.Term request then Follower else role s).
Proof.
  unfold AppendEntries_term, AppendEntries_leader.
  destruct (negb (String.eqb _ _));
    change (currentTerm (alterLeader _ s)) with (currentTerm s);
    destruct (currentTerm s <? AppendEntriesRequest.Term request); try reflexivity;
    by destruct (negb (ServerRole_eqb _ Follower)) eqn:Hr;
      [|apply negb_false_iff, ServerRole_eqb_eq in Hr].
Qed.

(** X6.  When the handler returns, the server's term is the larger of its
    term and the request's, and the response carries it and the server's
    id.  The server becomes a follower only when the request's term is
    larger: a candidate or leader that gets a request of its own term keeps
    its role.  The vote is never touched. *)
Theorem AppendEntries_term_and_role (request : AppendEntriesRequest.t)
    (s s' : Server.t) (response : AppendEntriesResponse.t) :
  AppendEntries proto_Unmarshal request s = Returns (response, s') →
  currentTerm s' = N.max (currentTerm s) (AppendEntriesRequest.Term request)
  ∧ AppendEntriesResponse.Term response = currentTerm s'
  ∧ AppendEntriesResponse.ServerId response = Server.id s
  ∧ role s' = (if currentTerm s <? AppendEntriesRequest.Term request
               then Follower else role s)
  ∧ lastVoteSummary s' = lastVoteSummary s.
Proof.
  rewrite AppendEntries_unfold.
  destruct (AppendEntriesRequest.Term request <? currentTerm s) eqn:Hstale.
  - intros [= <- <-]. apply N.ltb_lt in Hstale.
    replace (currentTerm s <? AppendEntriesRequest.Term request) with false
      by (symmetry; apply N.ltb_ge; lia).
    repeat split. cbn. lia.
  - apply N.ltb_ge in Hstale. cbv zeta.
    set (t := AppendEntries_term request (AppendEntries_leader request s)).
    destruct (AppendEntries_prelude_frame request s)
      as (_ & _ & _ & _ & _ & Hvote & Hterm & Hrole).
    fold t in Hvote, Hterm, Hrole.
    pose proof (AppendEntries_prelude_role request s) as Hrole'. fold t in Hrole'.
    destruct (prevLogMismatch request (Server.logStore t)).
    + intros [= <- <-]. by repeat split.
    + destruct (if (0 <? length _)%nat then _ else _) as [[[] t2]|fault] eqn:Hphase;
        [|discriminate].
      intros [= <- <-].
      apply AppendEntries_entries_phase in Hphase. unfold outsideLog in Hphase.
      destruct (AppendEntries_commit_frame request t2)
        as (_ & _ & _ & _ & Hvote3 & Hterm3 & Hrole3 & _).
      cbn [AppendEntriesResponse.Term AppendEntriesResponse.ServerId].
      rewrite Hterm3, Hrole3, Hvote3.
      repeat split; congruence.
Qed.

(** X7.  The handler answers [Success = false] exactly when the request's
    term is stale or the previous entry is missing or of another term.  A
    rejected request and a heartbeat leave the log, the last log index, the
    configurations, the commit state and the state machine as they were; a
    rejected request queues no commit index, and a stale one changes
    nothing at all. *)
Theorem AppendEntries_rejection (request : AppendEntriesRequest.t)
    (s s' : Server.t) (response : AppendEntriesResponse.t) :
  AppendEntries proto_Unmarshal request s = Returns (response, s') →
  (AppendEntriesResponse.Success response = false
   ↔ AppendEntriesRequest.Term request < currentTerm s
     ∨ prevLogMismatch request (Server.logStore s) = true)
  ∧ (AppendEntriesResponse.Success response = false
     ∨ AppendEntriesRequest.Entries request = [] →
     Server.logStore s' = Server.logStore s
     ∧ lastLogIndex s' = lastLogIndex s
     ∧ Server.confStore s' = Server.confStore s
     ∧ Server.commit s' = Server.commit s
     ∧ Server.stateMachine s' = Server.stateMachine s)
  ∧ (AppendEntriesResponse.Success response = false →
     Server.channels s' = Server.channels s)
  ∧ (AppendEntriesRequest.Term request < currentTerm s → s' = s).
Proof.
  rewrite AppendEntries_unfold.
  destruct (AppendEntriesRequest.Term request <? currentTerm s) eqn:Hstale.
  - intros [= <- <-]. apply N.ltb_lt in Hstale. cbn. repeat split; auto.
  - apply N.ltb_ge in Hstale. cbv zeta.
    set (t := AppendEntries_term request (AppendEntries_leader request s)).
    destruct (AppendEntries_prelude_frame request s)
      as (Hstore & Hlast & Hcommit & Hch & Hsm & _).
    fold t in Hstore, Hlast, Hcommit, Hch, Hsm.
    assert (Server.confStore t = Server.confStore s) as Hconf.
    { unfold t, AppendEntries_term, AppendEntries_leader.
      destruct (negb (String.eqb _ _));
        destruct (_ <? AppendEntriesRequest.Term request);
        try destruct (negb (ServerRole_eqb _ Follower)); reflexivity. }
    rewrite Hstore.
    destruct (prevLogMismatch request (Server.logStore s)) eqn:Hprev.
    + intros [= <- <-]. cbn. repeat split; auto; lia.
    + destruct (0 <? length (AppendEntriesRequest.Entries request))%nat eqn:Hlen.
      * destruct (appendRequestEntries _ _ t) as [[[] t2]|fault]; [|discriminate].
        intros [= <- <-]. cbn.
        split; [split; [discriminate|intros [?|?]; [lia|discriminate]]|].
        split; [|split; [discriminate|lia]].
        intros [?|Hnil]; [discriminate|]. rewrite Hnil in Hlen. discriminate.
      * intros [= <- <-]. cbn.
        destruct (AppendEntries_commit_frame request t)
          as (Hstore3 & Hlast3 & Hcommit3 & Hsm3 & _).
        assert (Server.confStore (AppendEntries_commit request t) = Server.confStore t)
          as Hconf3 by (unfold AppendEntries_commit; by destruct (_ <? _)).
        split; [split; [discriminate|intros [?|?]; [lia|discriminate]]|].
        split; [|split; [discriminate|lia]].
        intros _. repeat split; congruence.
Qed.

(** X8.  When the first incoming entry is not beyond the last log index and
    the log holds no entry at its index, the handler dereferences nil. *)
Theorem AppendEntries_missing_local_entry (request : AppendEntriesRequest.t)
    (e0 : Log.t) (es : list Log.t) (s : Server.t) :
  currentTerm s ≤ AppendEntriesRequest.Term request →
  prevLogMismatch request (Server.logStore s) = false →
  AppendEntriesRequest.Entries request = e0 :: es →
  logStore.indexOf e0 ≤ lastLogIndex s →
  logStore.Entry (Server.logStore s) (logStore.indexOf e0) = None →
  AppendEntries proto_Unmarshal request s = Crashes NilDereference.
Proof.
  intros Hterm Hprev Hentries Hindex Hmissing.
  rewrite AppendEntries_unfold.
  replace (AppendEntriesRequest.Term request <? currentTerm s) with false
    by (symmetry; apply N.ltb_ge; lia).
  cbv zeta.
  set (t := AppendEntries_term request (AppendEntries_leader request s)).
  destruct (AppendEntries_prelude_frame request s) as (Hstore & Hlast & _).
  fold t in Hstore, Hlast.
  rewrite Hstore, Hprev, Hentries. cbn [length Nat.ltb Nat.leb].
  unfold appendRequestEntries. unfold_M. rewrite Hlast.
  apply N.leb_le in Hindex as Hle. rewrite Hle. cbv beta.
  rewrite Hstore. cbn [scanConflicts].
  replace (lastLogIndex s <? logStore.indexOf e0) with false
    by (symmetry; apply N.ltb_ge; lia).
  by rewrite Hmissing.
Qed.

(** X9.  When the incoming entries lie beyond the last log index and
    [appendLogs] rejects them (the last configuration body does not decode),
    the handler drops the error: it answers [Success = true] although the
    log and the last log index are as before. *)
Theorem AppendEntries_acknowledges_unstored_entries (request : AppendEntriesRequest.t)
    (e0 : Log.t) (es : list Log.t) (body : LogBody.t) (err : error) (s : Server.t) :
  currentTerm s ≤ AppendEntriesRequest.Term request →
  prevLogMismatch request (Server.logStore s) = false →
  AppendEntriesRequest.Entries request = e0 :: es →
  lastLogIndex s < logStore.indexOf e0 →
  last (List.filter isConfiguration (Log.Body <$> e0 :: es)) = Some body →
  proto_Unmarshal (LogBody.Data body) = Err err →
  ∃ response s',
    AppendEntries proto_Unmarshal request s = Returns (response, s')
    ∧ AppendEntriesResponse.Success response = true
    ∧ Server.logStore s' = Server.logStore s
    ∧ lastLogIndex s' = lastLogIndex s.
Proof.
  intros Hterm Hprev Hentries Hindex Hlastconf Herr.
  rewrite AppendEntries_unfold.
  replace (AppendEntriesRequest.Term request <? currentTerm s) with false
    by (symmetry; apply N.ltb_ge; lia).
  cbv zeta.
  set (t := AppendEntries_term request (AppendEntries_leader request s)).
  destruct (AppendEntries_prelude_frame request s) as (Hstore & Hlast & _).
  fold t in Hstore, Hlast.
  rewrite Hstore, Hprev, Hentries. cbn [length Nat.ltb Nat.leb].
  unfold appendRequestEntries. unfold_M. rewrite Hlast.
  replace (logStore.indexOf e0 <=? lastLogIndex s) with false
    by (symmetry; apply N.leb_gt; lia).
  cbv beta. rewrite drop_0.
  assert ((λ e, LogBody.Copy (Log.Body e)) <$> e0 :: es = Log.Body <$> e0 :: es) as ->.
  { apply list_fmap_ext. intros _ e _. apply LogBody_Copy_id. }
  rewrite (appendLogs_decode_error proto_Unmarshal _ body err t Hlastconf Herr).
  destruct (AppendEntries_commit_frame request t) as (Hstore3 & Hlast3 & _).
  eexists _, _. split; [reflexivity|]. split; [reflexivity|]. split; congruence.
Qed.

(** Replacing the part behind the previous index of a contiguous log by
    another contiguous part keeps the log contiguous. *)
Lemma indexed_from_replace_suffix (f p : N) (A B B' : list Log.t) :
  indexed_from f (A ++ B) →
  prefixUpTo A p →
  indexed_from (p + 1) B →
  indexed_from (p + 1) B' →
  indexed_from (match A ++ B with [] => 1 | _ => f end) (A ++ B')
  ∧ logStore.LastIndex (A ++ B') = p + N.of_nat (length B').
Proof.
  intros Hstore [HA HAlast] HB HB'.
  split; [|by apply LastIndex_app_indexed].
  apply indexed_from_app in Hstore as [HAf HBf].
  destruct A as [|a A].
  - cbn in HAlast. subst p. cbn [app]. destruct B as [|b B]; [done|].
    apply indexed_from_cons in HB as [Hb _]. apply indexed_from_cons in HBf as [Hb' _].
    cbn [length] in Hb'. replace f with (0 + 1) by lia. done.
  - cbn [app]. change (a :: A ++ B') with ((a :: A) ++ B').
    apply indexed_from_app. split; [done|].
    pose proof (LastIndex_indexed f (a :: A) HAf ltac:(done)) as H.
    by replace (f + N.of_nat (length (a :: A))) with (p + 1) by lia.
Qed.

(** X10.  On a log that is contiguous and whose last index the server
    holds, a request whose entries are numbered in order behind its previous
    index and none of which finds a stored entry of another term at its
    index only appends: the log keeps every entry it had, stays contiguous
    from the same first index, and the last log index is in step with
    it. *)
Theorem AppendEntries_keeps_log_contiguous (f : N) (request : AppendEntriesRequest.t)
    (s s' : Server.t) (response : AppendEntriesResponse.t) :
  indexed_from f (Server.logStore s) →
  lastLogIndex s = logStore.LastIndex (Server.logStore s) →
  indexed_from (AppendEntriesRequest.PrevLogIndex request + 1)
               (AppendEntriesRequest.Entries request) →
  AppendEntriesRequest.PrevLogIndex request
  + N.of_nat (length (AppendEntriesRequest.Entries request)) < uint64_modulus →
  termConflict (AppendEntriesRequest.Entries request) (Server.logStore s) = false →
  AppendEntries proto_Unmarshal request s = Returns (response, s') →
  (∃ appended, Server.logStore s' = Server.logStore s ++ appended)
  ∧ indexed_from (match Server.logStore s with [] => 1 | _ => f end) (Server.logStore s')
  ∧ lastLogIndex s' = logStore.LastIndex (Server.logStore s').
Proof.
  intros Hstore Hlast Hes Hbound Hfree.
  assert (indexed_from (match Server.logStore s with [] => 1 | _ => f end)
            (Server.logStore s)) as Hsame.
  { destruct (Server.logStore s); [apply indexed_from_nil|done]. }
  assert (∃ appended, Server.logStore s = Server.logStore s ++ appended) as Hkept
    by (exists []; by rewrite app_nil_r).
  rewrite AppendEntries_unfold.
  destruct (AppendEntriesRequest.Term request <? currentTerm s); [by intros [= <- <-]|].
  cbv zeta.
  set (t := AppendEntries_term request (AppendEntries_leader request s)).
  destruct (AppendEntries_prelude_frame request s) as (Hstore_t & Hlast_t & _).
  fold t in Hstore_t, Hlast_t.
  destruct (prevLogMismatch request (Server.logStore t)) eqn:Hprev.
  { intros [= <- <-]. rewrite Hstore_t, Hlast_t. by split. }
  destruct (0 <? length (AppendEntriesRequest.Entries request))%nat eqn:Hlen.
  2:{ intros [= <- <-].
      destruct (AppendEntries_commit_frame request t) as (-> & -> & _).
      rewrite Hstore_t, Hlast_t. by split. }
  assert (AppendEntriesRequest.Entries request ≠ []) as Hne.
  { intros Hnil. rewrite Hnil in Hlen. discriminate. }
  destruct (entries_split_or_crash proto_Unmarshal f request t)
    as [(A & B & HAB & HA & HB)|Hcrash]; try done.
  - by rewrite Hstore_t.
  - by rewrite Hstore_t, Hlast_t.
  - assert (logView A B (AppendEntriesRequest.PrevLogIndex request) t) as Hview.
    { split; [done|]. rewrite Hlast_t, Hlast, <- Hstore_t, HAB.
      destruct HA as [_ HA]. by apply LastIndex_app_indexed. }
    rewrite <- Hstore_t, HAB in Hfree.
    destruct (appendRequestEntries_view proto_Unmarshal A B
                (AppendEntriesRequest.Entries request)
                (AppendEntriesRequest.PrevLogIndex request) t Hne HA HB Hview Hes Hbound
                (termConflict_positions A B _ _ HA HB Hes Hfree))
      as (t2 & -> & _ & [Hstore2 Hlast2] & Happended).
    intros [= <- <-].
    destruct (AppendEntries_commit_frame request t2) as (-> & -> & _).
    rewrite Hstore2, Hlast2, <- Hstore_t, HAB.
    rewrite HAB in Hstore_t. rewrite <- Hstore_t in Hstore.
    destruct (indexed_from_replace_suffix f (AppendEntriesRequest.PrevLogIndex request)
                A B _ Hstore HA HB Happended) as [H1 H2].
    split; [|split; [exact H1|by rewrite H2]].
    unfold appendedLog. destruct (accepted _ _).
    + eexists. by rewrite app_assoc.
    + exists []. by rewrite app_nil_r.
  - by rewrite Hcrash.
Qed.

End AppendEntriesProperties.

(** X6 (witness).  A, a candidate of term 2, gets a heartbeat of term 2 from
    C and stays a candidate. *)
Lemma AppendEntries_term_and_role_witness :
  currentTerm Examples.candidateA_heartbeat = 2
  ∧ AppendEntriesResponse.Term (AppendEntriesResponse.mk "A" 2 true)
    = currentTerm Examples.candidateA_heartbeat
  ∧ AppendEntriesResponse.ServerId (AppendEntriesResponse.mk "A" 2 true)
    = Server.id Examples.candidateA
  ∧ role Examples.candidateA_heartbeat = Candidate
  ∧ lastVoteSummary Examples.candidateA_heartbeat = lastVoteSummary Examples.candidateA.
Proof.
  apply (AppendEntries_term_and_role Examples.proto_Unmarshal Examples.heartbeatFromC
           Examples.candidateA Examples.candidateA_heartbeat
           (AppendEntriesResponse.mk "A" 2 true)).
  reflexivity.
Defined.

(** X7 (witness).  B, at term 2, gets a heartbeat of term 1. *)
Lemma AppendEntries_rejection_witness :
  (AppendEntriesResponse.Success (AppendEntriesResponse.mk "B" 2 false) = false
   ↔ AppendEntriesRequest.Term Examples.staleHeartbeat < currentTerm Examples.followerB
     ∨ prevLogMismatch Examples.staleHeartbeat (Server.logStore Examples.followerB) = true)
  ∧ (AppendEntriesResponse.Success (AppendEntriesResponse.mk "B" 2 false) = false
     ∨ AppendEntriesRequest.Entries Examples.staleHeartbeat = [] →
     Server.logStore Examples.followerB = Server.logStore Examples.followerB
     ∧ lastLogIndex Examples.followerB = lastLogIndex Examples.followerB
     ∧ Server.confStore Examples.followerB = Server.confStore Examples.followerB
     ∧ Server.commit Examples.followerB = Server.commit Examples.followerB
     ∧ Server.stateMachine Examples.followerB = Server.stateMachine Examples.followerB)
  ∧ (AppendEntriesResponse.Success (AppendEntriesResponse.mk "B" 2 false) = false →
     Server.channels Examples.followerB = Server.channels Examples.followerB)
  ∧ (AppendEntriesRequest.Term Examples.staleHeartbeat < currentTerm Examples.followerB →
     Examples.followerB = Examples.followerB).
Proof.
  apply (AppendEntries_rejection Examples.proto_Unmarshal Examples.staleHeartbeat
           Examples.followerB Examples.followerB (AppendEntriesResponse.mk "B" 2 false)).
  reflexivity.
Defined.

(** X8 (witness).  B's log starts at index 2; A sends entry 1. *)
Lemma AppendEntries_missing_local_entry_witness :
  AppendEntries Examples.proto_Unmarshal Examples.sendEntry1 Examples.followerB_trimmed
  = Crashes NilDereference.
Proof.
  apply (AppendEntries_missing_local_entry Examples.proto_Unmarshal Examples.sendEntry1
           (Examples.entry 1 2 "x") [] Examples.followerB_trimmed).
  - by_evaluation.
  - reflexivity.
  - reflexivity.
  - by_evaluation.
  - reflexivity.
Defined.

(** X9 (witness).  A replicates a configuration entry whose payload is no
    configuration; B answers success and stores nothing. *)
Lemma AppendEntries_acknowledges_unstored_entries_witness :
  ∃ response s',
    AppendEntries Examples.Wire.proto_Unmarshal Examples.replicateBrokenConfiguration
      Examples.followerB = Returns (response, s')
    ∧ AppendEntriesResponse.Success response = true
    ∧ Server.logStore s' = Server.logStore Examples.followerB
    ∧ lastLogIndex s' = lastLogIndex Examples.followerB.
Proof.
  apply (AppendEntries_acknowledges_unstored_entries Examples.Wire.proto_Unmarshal
           Examples.replicateBrokenConfiguration
           (Log.mk (LogMeta.mk 1 2) Examples.brokenConfiguration) []
           Examples.brokenConfiguration Examples.Wire.malformed Examples.followerB).
  - by_evaluation.
  - reflexivity.
  - reflexivity.
  - by_evaluation.
  - reflexivity.
  - reflexivity.
Defined.

(** X10 (witness).  B, which holds entry 1, gets the entries 1 and 2. *)
Lemma AppendEntries_keeps_log_contiguous_witness :
  (∃ appended,
     Server.logStore Examples.followerB_twoEntries
     = Server.logStore Examples.followerB_oneEntry ++ appended)
  ∧ indexed_from 1 (Server.logStore Examples.followerB_twoEntries)
  ∧ lastLogIndex Examples.followerB_twoEntries
    = logStore.LastIndex (Server.logStore Examples.followerB_twoEntries).
Proof.
  apply (AppendEntries_keeps_log_contiguous Examples.proto_Unmarshal 1 Examples.twoEntries
           Examples.followerB_oneEntry Examples.followerB_twoEntries
           (AppendEntriesResponse.mk "B" 2 true)).
  - apply indexed_from_cons. split; [reflexivity|]. apply indexed_from_nil.
  - reflexivity.
  - apply indexed_from_cons. split; [reflexivity|].
    apply indexed_from_cons. split; [reflexivity|]. apply indexed_from_nil.
  - reflexivity.
  - reflexivity.
  - vm_compute. reflexivity.
Defined.

(** ** The [RequestVote] handler *)

(** X11.  The handler answers every request and never fails.  The term
    never decreases and the response carries it; a granted vote means that
    the request's term was not stale and that the vote on record is for the
    requesting candidate; the role stays or becomes follower; the log, the
    commit state and the channels are untouched. *)
Theorem RequestVote_answers (request : RequestVoteRequest.t) (s : Server.t) :
  ∃ response s',
    RequestVote request s = Returns (response, s')
    ∧ currentTerm s ≤ currentTerm s'
    ∧ RequestVoteResponse.Term response = currentTerm s'
    ∧ RequestVoteResponse.ServerId response = Server.id s
    ∧ (RequestVoteResponse.Granted response = true →
       currentTerm s ≤ RequestVoteRequest.Term request
       ∧ voteSummary.candidate (lastVoteSummary s') = RequestVoteRequest.CandidateId request)
    ∧ (role s' = role s ∨ role s' = Follower)
    ∧ Server.logStore s' = Server.logStore s
    ∧ Server.commit s' = Server.commit s
    ∧ Server.channels s' = Server.channels s.
Proof.
  destruct (decide (RequestVoteRequest.Term request < currentTerm s)) as [Hstale|Hterm].
  { rewrite (RequestVote_stale request s Hstale). eexists _, _. split; [reflexivity|].
    cbn. repeat split; try done; auto. }
  assert (currentTerm s ≤ RequestVoteRequest.Term request) as Hterm' by lia.
  destruct (decide (currentTerm s ≤ voteSummary.term (lastVoteSummary s))) as [Hvoted|Hnot].
  { rewrite (RequestVote_voted request s Hterm' Hvoted). eexists _, _.
    split; [reflexivity|]. cbn. repeat split; try done; auto.
    by apply String.eqb_eq. }
  rewrite (RequestVote_not_voted request s Hterm') by lia. cbv zeta.
  eexists _, _. split; [reflexivity|].
  cbn [RequestVoteResponse.Term RequestVoteResponse.ServerId RequestVoteResponse.Granted].
  set (stale := _ || _).
  destruct (currentTerm s <? RequestVoteRequest.Term request) eqn:Hadopt;
    rewrite ?N.ltb_lt, ?N.ltb_ge in Hadopt.
  - destruct (negb (ServerRole_eqb (role s) Follower)); destruct stale; cbn;
      unfold currentTerm; cbn; repeat split; auto; lia.
  - assert (RequestVoteRequest.Term request = currentTerm s) as Heq by lia.
    destruct stale; cbn; repeat split; auto; lia.
Qed.

(** ** The candidate loop *)

Lemma quorumReached_mono (c : configuration.t) (a b x y : nat) :
  quorumReached c a b = true → quorumReached c (a + x) (b + y) = true.
Proof.
  unfold quorumReached. destruct (configuration.Joint c).
  - rewrite !andb_true_iff, !Nat.leb_le. lia.
  - rewrite !Nat.leb_le. lia.
Qed.

Section CandidateProperties.

Context (proto_Unmarshal : list byte → result Configuration.t).
Context (proto_Marshal : Configuration.t → result (list byte)).

(** One vote response that is not of a later term, whatever the role. *)
Lemma candidateSelect_vote (c : configuration.t) (r : RequestVoteResponse.t)
    (events : list candidateEvent) (currentVotes nextVotes : nat) (s : Server.t) :
  RequestVoteResponse.Term r ≤ currentTerm s →
  candidateSelect proto_Unmarshal proto_Marshal c (voteResCh r :: events)
    currentVotes nextVotes s
  = let currentVotes' := (currentVotes + fst (tally c [r]))%nat in
    let nextVotes' := (nextVotes + snd (tally c [r]))%nat in
    if quorumReached c currentVotes' nextVotes'
    then Returns (wonElection, becomeLeader s)
    else if shouldReselectLoop s then Returns (reselect, s)
         else if negb (ServerRole_eqb (role s) Candidate) then Returns (roleChanged, s)
              else candidateSelect proto_Unmarshal proto_Marshal c events
                     currentVotes' nextVotes' s.
Proof.
  intros Hterm. cbn [candidateSelect]. unfold_M.
  assert ((currentTerm s <? RequestVoteResponse.Term r) = false) as Hlt
    by (apply N.ltb_ge; lia).
  unfold tally, quorumReached. cbn [fst snd List.filter].
  destruct (configuration.Joint c); cbn [negb andb];
    destruct (config.Contains (configuration.CurrentConfig c) _);
    try destruct (config.Contains (configuration.NextConfig c) _);
    cbn [length]; rewrite ?Nat.add_0_r, ?Nat.add_1_r; cbv zeta;
    repeat match goal with
           | |- context [(?a <=? ?b)%nat] => destruct (a <=? b)%nat
           end; cbn [andb]; rewrite Hlt; try reflexivity;
    destruct (shouldReselectLoop s); try reflexivity;
    cbv beta; by destruct (negb (ServerRole_eqb (role s) Candidate)).
Qed.

(** One vote response that is not of a later term. *)
Lemma candidateLoop_vote (c : configuration.t) (r : RequestVoteResponse.t)
    (events : list candidateEvent) (currentVotes nextVotes : nat) (s : Server.t) :
  role s = Candidate →
  RequestVoteResponse.Term r ≤ currentTerm s →
  candidateLoop proto_Unmarshal proto_Marshal c (voteResCh r :: events)
    currentVotes nextVotes s
  = let currentVotes' := (currentVotes + fst (tally c [r]))%nat in
    let nextVotes' := (nextVotes + snd (tally c [r]))%nat in
    if quorumReached c currentVotes' nextVotes'
    then Returns (wonElection, becomeLeader s)
    else if shouldReselectLoop s then Returns (reselect, s)
         else candidateLoop proto_Unmarshal proto_Marshal c events
                currentVotes' nextVotes' s.
Proof.
  intros Hrole Hterm. unfold candidateLoop. cbn [candidateSelect]. unfold_M. rewrite Hrole.
  change (negb (ServerRole_eqb Candidate Candidate)) with false. cbv iota.
  assert ((currentTerm s <? RequestVoteResponse.Term r) = false) as Hlt
    by (apply N.ltb_ge; lia).
  unfold tally, quorumReached. cbn [fst snd List.filter].
  destruct (configuration.Joint c); cbn [negb andb];
    destruct (config.Contains (configuration.CurrentConfig c) _);
    try destruct (config.Contains (configuration.NextConfig c) _);
    cbn [length]; rewrite ?Nat.add_0_r, ?Nat.add_1_r; cbv zeta;
    repeat match goal with
           | |- context [(?a <=? ?b)%nat] => destruct (a <=? b)%nat
           end; cbn [andb]; rewrite Hlt; try reflexivity;
    destruct (shouldReselectLoop s); try reflexivity;
    cbv beta; rewrite Hrole; reflexivity.
Qed.

Lemma tally_cons (c : configuration.t) (r : RequestVoteResponse.t)
    (responses : list RequestVoteResponse.t) :
  fst (tally c (r :: responses)) = (fst (tally c [r]) + fst (tally c responses))%nat
  ∧ snd (tally c (r :: responses)) = (snd (tally c [r]) + snd (tally c responses))%nat.
Proof.
  unfold tally. cbn [fst snd List.filter].
  destruct (config.Contains (configuration.CurrentConfig c) _);
    destruct (configuration.Joint c && _); cbn [length]; lia.
Qed.

(** X12.  The candidate loop counts every response whose term is not later
    than its own, from a peer of the current set (and of the next set in a
    joint configuration), whether the vote was granted or not.  It wins as
    soon as the counts reach the quorums, becoming leader and its own
    leader; until then it goes on waiting with the counts so far. *)
Theorem candidateLoop_wins_at_quorum (c : configuration.t)
    (responses : list RequestVoteResponse.t) :
  ∀ (currentVotes nextVotes : nat) (s : Server.t),
    role s = Candidate →
    shouldReselectLoop s = false →
    Forall (λ r, RequestVoteResponse.Term r ≤ currentTerm s) responses →
    quorumReached c currentVotes nextVotes = false →
    candidateLoop proto_Unmarshal proto_Marshal c (voteResCh <$> responses)
      currentVotes nextVotes s
    = let currentVotes' := (currentVotes + fst (tally c responses))%nat in
      let nextVotes' := (nextVotes + snd (tally c responses))%nat in
      if quorumReached c currentVotes' nextVotes'
      then Returns (wonElection, becomeLeader s)
      else Returns (awaiting currentVotes' nextVotes', s).
Proof.
  induction responses as [|r responses IH]; intros cv nv s Hrole Hflag Hterms Hnot.
  - unfold candidateLoop. cbn. unfold_M. rewrite Hrole. cbn.
    rewrite !Nat.add_0_r, Hnot. reflexivity.
  - apply Forall_cons in Hterms as [Hterm Hterms].
    change (voteResCh <$> r :: responses) with (voteResCh r :: (voteResCh <$> responses)).
    rewrite (candidateLoop_vote c r _ cv nv s Hrole Hterm). cbv zeta.
    destruct (tally_cons c r responses) as [-> ->]. rewrite !Nat.add_assoc.
    destruct (quorumReached c (cv + fst (tally c [r])) (nv + snd (tally c [r])))
      eqn:Hreached.
    + by rewrite (quorumReached_mono c _ _ _ _ Hreached).
    + rewrite Hflag. by apply IH.
Qed.

Lemma candidateSelect_outcome (c : configuration.t) (events : list candidateEvent) :
  ∀ (currentVotes nextVotes : nat) (s s' : Server.t) (exit : candidateExit),
    role s = Candidate →
    forallb ownCase events = true →
    candidateSelect proto_Unmarshal proto_Marshal c events currentVotes nextVotes s
    = Returns (exit, s') →
    (exit = wonElection ↔ role s' = Leader)
    ∧ (exit ≠ wonElection → role s' = Candidate)
    ∧ lastVoteSummary s' = lastVoteSummary s
    ∧ (exit ≠ localTermStale → currentTerm s' = currentTerm s)
    ∧ currentTerm s ≤ currentTerm s'
    ∧ Server.logStore s' = Server.logStore s.
Proof.
  induction events as [|event events IH]; intros cv nv s s' exit Hrole Hown.
  - cbn. unfold_M. intros [= <- <-]. rewrite Hrole.
    repeat split; try done; try lia.
  - cbn [forallb] in Hown. apply andb_true_iff in Hown as [Hevent Hown].
    cbn [candidateSelect]. unfold_M.
    assert (∀ (x : Server.t) cv' nv',
              role x = Candidate →
              lastVoteSummary x = lastVoteSummary s →
              currentTerm x = currentTerm s →
              Server.logStore x = Server.logStore s →
              (if shouldReselectLoop x then λ s1 : Server.t, Returns (reselect, s1)
               else λ s1 : Server.t,
                      (if negb (ServerRole_eqb (role s1) Candidate)
                       then λ s2 : Server.t, Returns (roleChanged, s2)
                       else candidateSelect proto_Unmarshal proto_Marshal c events cv' nv')
                        s1) x
              = Returns (exit, s') →
              (exit = wonElection ↔ role s' = Leader)
              ∧ (exit ≠ wonElection → role s' = Candidate)
              ∧ lastVoteSummary s' = lastVoteSummary s
              ∧ (exit ≠ localTermStale → currentTerm s' = currentTerm s)
              ∧ currentTerm s ≤ currentTerm s'
              ∧ Server.logStore s' = Server.logStore s) as Hcontinue.
    { intros x cv' nv' Hx Hvote Hterm Hstore.
      destruct (shouldReselectLoop x).
      - intros [= <- <-]. rewrite Hx, Hvote, Hterm, Hstore. repeat split; try done; try lia.
      - cbv beta. rewrite Hx.
        change (negb (ServerRole_eqb Candidate Candidate)) with false. cbv iota.
        intros H. apply IH in H; [|done|done].
        rewrite <- Hvote, <- Hterm, <- Hstore. exact H. }
    assert (∀ fuel ci (x : Server.t),
              role x = Candidate →
              lastVoteSummary x = lastVoteSummary s →
              currentTerm x = currentTerm s →
              Server.logStore x = Server.logStore s →
              match commitAndApply proto_Unmarshal proto_Marshal fuel ci x with
              | Some (Returns (_, x')) =>
                  (if shouldReselectLoop x' then λ s1 : Server.t, Returns (reselect, s1)
                   else λ s1 : Server.t,
                          (if negb (ServerRole_eqb (role s1) Candidate)
                           then λ s2 : Server.t, Returns (roleChanged, s2)
                           else candidateSelect proto_Unmarshal proto_Marshal c events cv nv)
                            s1) x'
              | Some (Crashes f) => Crashes f
              | None => Returns (applyOutOfFuel, x)
              end = Returns (exit, s') →
              (exit = wonElection ↔ role s' = Leader)
              ∧ (exit ≠ wonElection → role s' = Candidate)
              ∧ lastVoteSummary s' = lastVoteSummary s
              ∧ (exit ≠ localTermStale → currentTerm s' = currentTerm s)
              ∧ currentTerm s ≤ currentTerm s'
              ∧ Server.logStore s' = Server.logStore s) as Happly.
    { intros fuel ci x Hx Hvote Hterm Hstore.
      destruct (commitAndApply _ _ fuel ci x) as [[[[] x1]|f]|] eqn:Hstep.
      - apply commitAndApply_outsideCommit in Hstep.
        unfold outsideCommit in Hstep.
        assert (Server.state x1 = Server.state x ∧ Server.logStore x1 = Server.logStore x)
          as [Hstate1 Hstore1] by (split; congruence).
        apply Hcontinue; unfold role, lastVoteSummary, currentTerm in *; congruence.
      - done.
      - intros [= <- <-]. rewrite Hx, Hvote, Hterm, Hstore.
        repeat split; try done; try lia. }
    destruct event as [response| |fuel ci|c'| | |fuel|Restore|Restore|rpc];
      try discriminate Hevent.
    + destruct (currentTerm s <? RequestVoteResponse.Term response) eqn:Hstale.
      * intros [= <- <-]. apply N.ltb_lt in Hstale.
        unfold role, currentTerm, lastVoteSummary in *. cbn in *.
        repeat split; intros; try done; try congruence; lia.
      * assert (∀ exit0 s0,
                  Returns (wonElection,
                           alterLeader (configuration.Peer (confStore_Latest (alterRole Leader s))
                                          (Server.id (alterRole Leader s)))
                             (alterRole Leader s)) = Returns (exit0, s0) →
                  (exit0 = wonElection ↔ role s0 = Leader)
                  ∧ (exit0 ≠ wonElection → role s0 = Candidate)
                  ∧ lastVoteSummary s0 = lastVoteSummary s
                  ∧ (exit0 ≠ localTermStale → currentTerm s0 = currentTerm s)
                  ∧ currentTerm s ≤ currentTerm s0
                  ∧ Server.logStore s0 = Server.logStore s) as Hwin.
        { intros exit0 s0 [= <- <-].
          unfold role, currentTerm, lastVoteSummary in *. cbn in *.
          repeat split; intros; try done; try congruence; lia. }
        destruct (negb (configuration.Joint c)).
        -- destruct (_ <=? _)%nat; [apply Hwin|by apply Hcontinue].
        -- destruct ((_ <=? _)%nat && (_ <=? _)%nat); [apply Hwin|by apply Hcontinue].
    + intros [= <- <-]. rewrite Hrole. repeat split; try done; try lia.
    + by apply Happly.
    + by apply Hcontinue.
    + by apply Hcontinue.
    + intros [= <- <-]. rewrite Hrole. repeat split; try done; try lia.
    + unfold takeCommitCh.
      destruct (serverChannels.commitCh (Server.channels s)) as [|ci rest].
      * intros [= <- <-]. rewrite Hrole. repeat split; try done; try lia.
      * by apply Happly.
Qed.

(** X13.  As long as no handler goroutine runs and nothing is restored
    while the candidate loop runs: however the loop ends, the server has
    voted for itself in the term that follows the one it started with; it is
    leader exactly when the election was won and candidate otherwise; its
    term is the new one unless a response of a later term ended the loop; the
    log is untouched. *)
Theorem runLoopCandidate_outcome (before after : list candidateEvent)
    (s s' : Server.t) (exit : candidateExit) :
  role s = Candidate →
  forallb ownCase (before ++ after) = true →
  runLoopCandidate proto_Unmarshal proto_Marshal before after s = Returns (exit, s') →
  (exit = wonElection ↔ role s' = Leader)
  ∧ (exit ≠ wonElection → role s' = Candidate)
  ∧ lastVoteSummary s' = voteSummary.mk (u64_add (currentTerm s) 1) (Server.id s)
  ∧ (exit ≠ localTermStale → currentTerm s' = u64_add (currentTerm s) 1)
  ∧ u64_add (currentTerm s) 1 ≤ currentTerm s'
  ∧ Server.logStore s' = Server.logStore s.
Proof.
  intros Hrole Hown. unfold runLoopCandidate. unfold bind at 1.
  destruct (startElection_state s) as [out ->]. unfold candidateLoop. unfold_M.
  set (s1 := setLastVoteSummary _ _ _).
  change (role s1) with (role s). rewrite Hrole.
  change (negb (ServerRole_eqb Candidate Candidate)) with false. cbv iota.
  intros H. apply candidateSelect_outcome in H; [exact H|exact Hrole|].
  rewrite forallb_app in Hown. apply andb_true_iff in Hown as [Hbefore Hafter].
  rewrite forallb_app. cbn [forallb ownCase]. by rewrite Hbefore, Hafter.
Qed.

(** A request of a later term makes the handler step down to follower in
    that term. *)
Lemma AppendEntries_later_term (request : AppendEntriesRequest.t) (s s' : Server.t)
    (response : AppendEntriesResponse.t) :
  currentTerm s < AppendEntriesRequest.Term request →
  AppendEntries proto_Unmarshal request s = Returns (response, s') →
  role s' = Follower ∧ currentTerm s' = AppendEntriesRequest.Term request.
Proof.
  intros Hlater. rewrite AppendEntries_unfold.
  replace (AppendEntriesRequest.Term request <? currentTerm s) with false
    by (symmetry; apply N.ltb_ge; lia).
  cbv zeta.
  set (t := AppendEntries_term request (AppendEntries_leader request s)).
  destruct (AppendEntries_prelude_frame request s) as (_ & _ & _ & _ & _ & _ & Hterm & _).
  fold t in Hterm. rewrite N.max_r in Hterm by lia.
  pose proof (AppendEntries_prelude_role request s) as Hrole. fold t in Hrole.
  apply N.ltb_lt in Hlater as Hlater'. rewrite Hlater' in Hrole.
  destruct (prevLogMismatch request (Server.logStore t)); [by intros [= _ <-]|].
  destruct (if (0 <? length _)%nat then _ else _) as [[[] t2]|fault] eqn:Hphase;
    [|discriminate].
  intros [= _ <-].
  apply AppendEntries_entries_phase in Hphase. unfold outsideLog in Hphase.
  destruct (AppendEntries_commit_frame request t2) as (_ & _ & _ & _ & _ & -> & -> & _).
  split; congruence.
Qed.

(** X29.  A candidate waits in the [select] of its loop while a handler
    goroutine handles an AppendEntries request of a later term: the server
    steps down to follower in that term.  The loop notices the new role only
    after its next [select] case: when that case is a vote response that
    completes the quorum, the server becomes leader all the same, in the
    term it has adopted from the request; otherwise the loop ends. *)
Theorem candidate_that_stepped_down_still_wins (c : configuration.t)
    (request : AppendEntriesRequest.t) (r : RequestVoteResponse.t)
    (events : list candidateEvent) (currentVotes nextVotes : nat) (s s1 : Server.t)
    (response : AppendEntriesResponse.t) :
  role s = Candidate →
  currentTerm s < AppendEntriesRequest.Term request →
  AppendEntries proto_Unmarshal request s = Returns (response, s1) →
  RequestVoteResponse.Term r ≤ AppendEntriesRequest.Term request →
  role s1 = Follower
  ∧ currentTerm s1 = AppendEntriesRequest.Term request
  ∧ candidateLoop proto_Unmarshal proto_Marshal c
      (handlerRuns (rpcAppendEntries request) :: voteResCh r :: events)
      currentVotes nextVotes s
    = (if quorumReached c (currentVotes + fst (tally c [r])) (nextVotes + snd (tally c [r]))
       then Returns (wonElection, becomeLeader s1)
       else Returns (if shouldReselectLoop s1 then reselect else roleChanged, s1))
  ∧ role (becomeLeader s1) = Leader
  ∧ currentTerm (becomeLeader s1) = AppendEntriesRequest.Term request.
Proof.
  intros Hrole Hlater Hrun Hr.
  destruct (AppendEntries_later_term request s s1 response Hlater Hrun) as [Hrole1 Hterm1].
  split; [exact Hrole1|]. split; [exact Hterm1|]. split; [|by split].
  unfold candidateLoop. unfold bind at 1. unfold gets at 1. rewrite Hrole.
  change (negb (ServerRole_eqb Candidate Candidate)) with false. cbv iota.
  change (candidateSelect proto_Unmarshal proto_Marshal c
            (handlerRuns (rpcAppendEntries request) :: voteResCh r :: events)
            currentVotes nextVotes s)
    with (match handleRPC proto_Unmarshal (rpcAppendEntries request) s with
          | Returns (_, s') =>
              candidateSelect proto_Unmarshal proto_Marshal c (voteResCh r :: events)
                currentVotes nextVotes s'
          | Crashes f => Crashes f
          end).
  unfold handleRPC. unfold bind, ret. rewrite Hrun.
  rewrite candidateSelect_vote by (rewrite Hterm1; exact Hr).
  cbv zeta. destruct (quorumReached c _ _); [reflexivity|].
  destruct (shouldReselectLoop s1); [reflexivity|]. by rewrite Hrole1.
Qed.

End CandidateProperties.

(** X12 (witness).  A counts its own response and B's, which grants
    nothing, and wins. *)
Lemma candidateLoop_wins_at_quorum_witness :
  candidateLoop Examples.proto_Unmarshal Examples.proto_Marshal Examples.clusterABC
    (voteResCh <$> Examples.answersToA) 0 0 Examples.candidateA
  = Returns (wonElection, becomeLeader Examples.candidateA).
Proof.
  apply (candidateLoop_wins_at_quorum Examples.proto_Unmarshal Examples.proto_Marshal
           Examples.clusterABC Examples.answersToA 0%nat 0%nat Examples.candidateA).
  - reflexivity.
  - reflexivity.
  - repeat constructor; by_evaluation.
  - reflexivity.
Defined.

(** X13 (witness).  A starts an election at term 2 and wins it. *)
Lemma runLoopCandidate_outcome_witness :
  (wonElection = wonElection ↔ role Examples.electedA = Leader)
  ∧ (wonElection ≠ wonElection → role Examples.electedA = Candidate)
  ∧ lastVoteSummary Examples.electedA = voteSummary.mk 3 "A"
  ∧ (wonElection ≠ localTermStale → currentTerm Examples.electedA = 3)
  ∧ 3 ≤ currentTerm Examples.electedA
  ∧ Server.logStore Examples.electedA = Server.logStore Examples.candidateA.
Proof.
  apply (runLoopCandidate_outcome Examples.proto_Unmarshal Examples.proto_Marshal
           [] [voteResCh Examples.rejectionFromB] Examples.candidateA Examples.electedA
           wonElection).
  - reflexivity.
  - reflexivity.
  - vm_compute. reflexivity.
Defined.

(** X29 (witness).  A, a candidate of term 2 that has counted its own
    vote, waits; a heartbeat of C, the leader of term 3, is handled and A
    steps down; then B's response arrives, and A becomes leader of term 3. *)
Lemma candidate_that_stepped_down_still_wins_witness :
  ∃ s1,
    AppendEntries Examples.proto_Unmarshal Examples.heartbeatOfTerm3 Examples.candidateA
    = Returns (AppendEntriesResponse.mk "A" 3 true, s1)
    ∧ role s1 = Follower
    ∧ currentTerm s1 = 3
    ∧ candidateLoop Examples.proto_Unmarshal Examples.proto_Marshal Examples.clusterABC
        [handlerRuns (rpcAppendEntries Examples.heartbeatOfTerm3);
         voteResCh Examples.rejectionFromB] 1 0 Examples.candidateA
      = Returns (wonElection, becomeLeader s1)
    ∧ role (becomeLeader s1) = Leader
    ∧ currentTerm (becomeLeader s1) = 3.
Proof.
  eexists. split; [vm_compute; reflexivity|].
  refine (candidate_that_stepped_down_still_wins Examples.proto_Unmarshal
            Examples.proto_Marshal Examples.clusterABC Examples.heartbeatOfTerm3
            Examples.rejectionFromB [] 1%nat 0%nat Examples.candidateA _
            (AppendEntriesResponse.mk "A" 3 true) _ _ _ _).
  - reflexivity.
  - reflexivity.
  - vm_compute. reflexivity.
  - vm_compute. discriminate.
Defined.

(** ** [Serve] and [Apply] *)

Section ServeProperties.

Context (proto_Unmarshal : list byte → result Configuration.t).
Context (proto_Marshal : Configuration.t → result (list byte)).

(** [Serve] on a server whose latest configuration lists no peer: the
    state it leaves when the configuration of the server alone is encoded
    and decoded back. *)
Lemma Serve_bootstrap (s : Server.t) (data : list byte) :
  let self := Peer.mk (Server.id s) (Server.trans s) in
  let pbConfiguration := Configuration.mk (Config.mk [self]) None in
  let index := lastLogIndex s + 1 in
  let log := Log.mk (LogMeta.mk index (currentTerm s))
                    (LogBody.mk LogType_CONFIGURATION data) in
  Server.serveFlag s = 0 →
  configuration.Peers (confStore_Latest s) = [] →
  proto_Marshal pbConfiguration = Ok data →
  proto_Unmarshal data = Ok pbConfiguration →
  lastLogIndex s + 1 < uint64_modulus →
  Serve proto_Unmarshal proto_Marshal s
  = Returns (Ok tt,
             appendLogs_done (Some (newConfiguration pbConfiguration index)) [log]
               (Server.with_serveFlag 1 s)).
Proof.
  intros self pbConfiguration index log Hflag Hpeers Hmarshal Hunmarshal Hroom.
  unfold Serve. unfold_M. rewrite Hflag.
  change (negb (0 =? 0)) with false. cbv beta iota.
  change (confStore_Latest (Server.with_serveFlag 1 s)) with (confStore_Latest s).
  rewrite Hpeers. cbn [length Nat.ltb Nat.leb].
  change (Server.id (Server.with_serveFlag 1 s)) with (Server.id s).
  change (Server.trans (Server.with_serveFlag 1 s)) with (Server.trans s).
  fold self. fold pbConfiguration. rewrite Hmarshal.
  rewrite appendLogs_unfold. cbv zeta.
  change (lastLogIndex (Server.with_serveFlag 1 s)) with (lastLogIndex s).
  change (currentTerm (Server.with_serveFlag 1 s)) with (currentTerm s).
  unfold appendLogs_decoded, newLogs.
  cbn [imap length lastConfArrayIndex_from Log.Body LogBody.Copy LogBody.Type_
       LogBody.Data lookup list_lookup Log.Meta LogMeta.Index].
  rewrite Hunmarshal.
  change (N.of_nat 0) with 0.
  rewrite (u64_add_small (lastLogIndex s) 1) by lia.
  rewrite (u64_add_small (lastLogIndex s + 1) 0) by lia.
  rewrite N.add_0_r. reflexivity.
Qed.

(** X14.  The first [Serve] of a server whose configuration lists no peer
    appends one configuration entry that lists the server alone under its
    own endpoint, makes it the latest configuration and asks the loop to
    reselect; the role and the term stay. *)
Theorem Serve_bootstraps_first_node (s : Server.t) (data : list byte) :
  let self := Peer.mk (Server.id s) (Server.trans s) in
  let pbConfiguration := Configuration.mk (Config.mk [self]) None in
  Server.serveFlag s = 0 →
  configuration.Peers (confStore_Latest s) = [] →
  proto_Marshal pbConfiguration = Ok data →
  proto_Unmarshal data = Ok pbConfiguration →
  lastLogIndex s + 1 < uint64_modulus →
  ∃ s',
    Serve proto_Unmarshal proto_Marshal s = Returns (Ok tt, s')
    ∧ Server.serveFlag s' = 1
    ∧ Server.logStore s'
      = Server.logStore s
        ++ [Log.mk (LogMeta.mk (lastLogIndex s + 1) (currentTerm s))
                   (LogBody.mk LogType_CONFIGURATION data)]
    ∧ confStore_Latest s' = newConfiguration pbConfiguration (lastLogIndex s + 1)
    ∧ configuration.Peers (confStore_Latest s') = [self]
    ∧ configuration.Joint (confStore_Latest s') = false
    ∧ shouldReselectLoop s' = true
    ∧ role s' = role s
    ∧ currentTerm s' = currentTerm s.
Proof.
  intros self pbConfiguration Hflag Hpeers Hmarshal Hunmarshal Hroom.
  rewrite (Serve_bootstrap s data Hflag Hpeers Hmarshal Hunmarshal Hroom).
  eexists. split; [reflexivity|]. by repeat split.
Qed.

(** X15.  Whatever a call of [Serve] returned, every later call returns the
    error "Serve() can only be called once" and changes nothing. *)
Theorem Serve_only_once (s s' : Server.t) (r : result unit) :
  Serve proto_Unmarshal proto_Marshal s = Returns (r, s') →
  Serve proto_Unmarshal proto_Marshal s'
  = Returns (Err (errors_New "Serve() can only be called once"), s').
Proof.
  intros Hfirst.
  assert (Server.serveFlag s' ≠ 0) as Hflag.
  { revert Hfirst. unfold Serve. unfold_M.
    destruct (Server.serveFlag s =? 0) eqn:Hzero; cbn [negb].
    - change (confStore_Latest (Server.with_serveFlag 1 s)) with (confStore_Latest s).
      destruct (0 <? length (configuration.Peers (confStore_Latest s)))%nat.
      + cbv zeta. by destruct (Serve_checkPeers _ _ _).
      + destruct (proto_Marshal _) as [bytes|err]; [|by intros [= _ <-]].
        destruct (appendLogs_outsideLog proto_Unmarshal
                    [LogBody.mk LogType_CONFIGURATION bytes] (Server.with_serveFlag 1 s))
          as (r0 & s0 & -> & Hout).
        destruct r0; [|done]. intros [= _ <-].
        unfold outsideLog in Hout.
        assert (Server.serveFlag s0 = Server.serveFlag (Server.with_serveFlag 1 s)) as ->
          by congruence.
        done.
    - intros [= _ <-]. by apply N.eqb_neq. }
  unfold Serve. unfold_M. by apply N.eqb_neq in Hflag as ->.
Qed.

End ServeProperties.

(** X14 (witness).  A, just created, serves. *)
Lemma Serve_bootstraps_first_node_witness :
  ∃ s',
    Serve Examples.Wire.proto_Unmarshal Examples.Wire.proto_Marshal Examples.freshA
    = Returns (Ok tt, s')
    ∧ Server.serveFlag s' = 1
    ∧ Server.logStore s'
      = [Log.mk (LogMeta.mk 1 0) (LogBody.mk LogType_CONFIGURATION Examples.aloneA_encoded)]
    ∧ confStore_Latest s' = newConfiguration Examples.aloneA 1
    ∧ configuration.Peers (confStore_Latest s') = [Examples.peerA]
    ∧ configuration.Joint (confStore_Latest s') = false
    ∧ shouldReselectLoop s' = true
    ∧ role s' = Follower
    ∧ currentTerm s' = 0.
Proof.
  apply (Serve_bootstraps_first_node Examples.Wire.proto_Unmarshal Examples.Wire.proto_Marshal
           Examples.freshA Examples.aloneA_encoded); reflexivity.
Defined.

(** X15 (witness).  A serves a second time. *)
Lemma Serve_only_once_witness :
  Serve Examples.Wire.proto_Unmarshal Examples.Wire.proto_Marshal Examples.servedA
  = Returns (Err (errors_New "Serve() can only be called once"), Examples.servedA).
Proof.
  apply (Serve_only_once Examples.Wire.proto_Unmarshal Examples.Wire.proto_Marshal
           Examples.freshA Examples.servedA (Ok tt)).
  vm_compute. reflexivity.
Defined.

(** ** The server loops *)

Section LoopProperties.

Context (proto_Unmarshal : list byte → result Configuration.t).
Context (proto_Marshal : Configuration.t → result (list byte)).

(** The follower timer makes the server a candidate and ends the loop. *)
Lemma followerLoop_timer (events : list followerEvent)
    (results : list (result (list LogMeta.t))) (s : Server.t) :
  role s = Follower →
  followerLoop proto_Unmarshal proto_Marshal (followerTimer :: events) results s
  = Returns ((loopReselect, results), reselectLoop (alterRole Candidate s)).
Proof.
  intros Hrole. unfold followerLoop. cbn [followerSelect]. unfold_M. by rewrite Hrole.
Qed.

(** A candidate that is the only peer of a stable latest configuration wins
    with its own vote. *)
Lemma runLoopCandidate_alone (after : list candidateEvent) (peer : Peer.t) (s : Server.t) :
  role s = Candidate →
  configuration.Current (confStore_Latest s) = config.mk [peer] →
  configuration.Next (confStore_Latest s) = None →
  Peer.Id peer = Server.id s →
  runLoopCandidate proto_Unmarshal proto_Marshal [] after s
  = Returns (wonElection,
             becomeLeader (setLastVoteSummary (u64_add (currentTerm s) 1) (Server.id s)
                             (alterTerm (u64_add (currentTerm s) 1) s))).
Proof.
  intros Hrole Hcurrent Hnext Hid.
  unfold runLoopCandidate. unfold bind at 1.
  assert (startElection s
          = Returns ((RequestVoteRequest.mk (u64_add (currentTerm s) 1) (Server.id s)
                        (match logStore.LastEntry (Server.logStore s) with
                         | Some log => logStore.indexOf log | None => 0 end)
                        (match logStore.LastEntry (Server.logStore s) with
                         | Some log => logStore.termOf log | None => 0 end),
                      List.filter (λ p, negb (String.eqb (Peer.Id p) (Server.id s)))
                        (configuration.Peers (confStore_Latest s)),
                      RequestVoteResponse.mk (Server.id s) (u64_add (currentTerm s) 1) true),
                     setLastVoteSummary (u64_add (currentTerm s) 1) (Server.id s)
                       (alterTerm (u64_add (currentTerm s) 1) s))) as ->.
  { unfold startElection. unfold_M. cbv beta.
    cbn [Server.logStore alterTerm setCurrentTerm setLastVoteSummary Server.with_state].
    by destruct (logStore.LastEntry (Server.logStore s)). }
  set (s1 := setLastVoteSummary _ _ _).
  unfold bind at 1. unfold gets at 1. cbn [snd app].
  change (confStore_Latest s1) with (confStore_Latest s).
  rewrite (candidateLoop_vote proto_Unmarshal proto_Marshal); [|done|cbn; lia].
  cbv zeta. unfold tally, quorumReached, configuration.Joint, configuration.CurrentConfig,
    config.Contains, config.Quorum.
  rewrite Hnext, Hcurrent. cbn [fst snd List.filter config.Peers existsb length
                                RequestVoteResponse.ServerId].
  rewrite Hid, String.eqb_refl. reflexivity.
Qed.

(** X17.  A fresh server that serves and whose follower timer fires before
    anything else arrives elects itself: after the follower pass and the
    candidate pass of the main loop it is the leader of the next term, has
    voted for itself and knows itself as the leader, without any response
    of another server. *)
Theorem first_node_elects_itself (s : Server.t) (data : list byte)
    (first second : iteration) :
  let self := Peer.mk (Server.id s) (Server.trans s) in
  let pbConfiguration := Configuration.mk (Config.mk [self]) None in
  Server.serveFlag s = 0 →
  configuration.Peers (confStore_Latest s) = [] →
  proto_Marshal pbConfiguration = Ok data →
  proto_Unmarshal data = Ok pbConfiguration →
  role s = Follower →
  lastLogIndex s + 1 < uint64_modulus →
  currentTerm s + 1 < uint64_modulus →
  whenFollower first = [followerTimer] →
  fst (whenCandidate second) = [] →
  ∃ s1 s2,
    Serve proto_Unmarshal proto_Marshal s = Returns (Ok tt, s1)
    ∧ runMainLoop proto_Unmarshal proto_Marshal [first; second] [] s1
      = Returns ((mainRunning, []), s2)
    ∧ role s2 = Leader
    ∧ currentTerm s2 = currentTerm s + 1
    ∧ Leader_ s2 = self
    ∧ lastVoteSummary s2 = voteSummary.mk (currentTerm s + 1) (Server.id s)
    ∧ configuration.Peers (confStore_Latest s2) = [self].
Proof.
  intros self pbConfiguration Hflag Hpeers Hmarshal Hunmarshal Hrole Hroom Hterm
    Hfirst Hsecond.
  rewrite (Serve_bootstrap proto_Unmarshal proto_Marshal s data
             Hflag Hpeers Hmarshal Hunmarshal Hroom).
  fold self. fold pbConfiguration.
  set (s1 := appendLogs_done _ _ _).
  exists s1.
  assert (role s1 = Follower) as Hrole1 by exact Hrole.
  cbn [runMainLoop]. unfold bind at 1. unfold modify at 1.
  unfold bind at 1. unfold gets at 1.
  change (role (resetReselectLoop s1)) with (role s1). rewrite Hrole1.
  unfold bind at 1. unfold runLoopFollower. rewrite Hfirst.
  rewrite followerLoop_timer by exact Hrole1.
  cbn [fst snd app].
  unfold bind at 1. unfold modify at 1. unfold bind at 1. unfold gets at 1.
  set (s2 := resetReselectLoop (reselectLoop (alterRole Candidate (resetReselectLoop s1)))).
  change (role s2) with Candidate. cbv iota.
  unfold bind at 1. destruct (whenCandidate second) as [before after].
  cbn [fst snd] in *. subst before.
  rewrite (runLoopCandidate_alone after self s2); try done.
  change (currentTerm s2) with (currentTerm s).
  change (Server.id s2) with (Server.id s).
  rewrite (u64_add_small (currentTerm s) 1) by lia.
  eexists. split; [reflexivity|]. split; [reflexivity|].
  repeat split.
  unfold Leader_, becomeLeader, configuration.Peer, configuration.Peers.
  cbn. by rewrite String.eqb_refl.
Qed.

(** One append operation served by the leader loop. *)
Lemma leaderLoop_append (bodies : list LogBody.t) (s : Server.t) :
  role s = Leader →
  ∃ exit r s',
    appendLogs proto_Unmarshal bodies s = Returns (r, s')
    ∧ runLoopLeader proto_Unmarshal proto_Marshal [leaderLogOpsCh bodies] s
      = Returns ((exit, [r]), s').
Proof.
  intros Hrole.
  destruct (appendLogs_outsideLog proto_Unmarshal bodies s) as (r & s' & Happend & Hout).
  assert (role s' = Leader) as Hrole' by (unfold outsideLog in Hout; congruence).
  unfold runLoopLeader, leaderLoop. cbn [leaderSelect]. unfold_M. rewrite Hrole.
  change (negb (ServerRole_eqb Leader Leader)) with false. cbv beta iota.
  rewrite Happend.
  destruct (shouldReselectLoop s'); [by exists loopReselect, r, s'|].
  cbv beta. rewrite Hrole'. by exists loopAwaiting, r, s'.
Qed.

(** X18.  One command applied on the leader: the leader loop appends it as
    the entry behind the last log index, in the current term, and the
    future of [Apply] completes with that index and term.  A configuration
    body that does not decode is not stored, and the future completes with
    the decoder's error. *)
Theorem Apply_on_the_leader (body : LogBody.t)
    (transport : option ApplyLogResponse.t * option error) (s : Server.t) :
  role s = Leader →
  lastLogIndex s + 1 < uint64_modulus →
  ∃ exit r s',
    runLoopLeader proto_Unmarshal proto_Marshal [leaderLogOpsCh [LogBody.Copy body]] s
    = Returns ((exit, [r]), s')
    ∧ (if accepted proto_Unmarshal [body]
       then r = Ok [LogMeta.mk (lastLogIndex s + 1) (currentTerm s)]
            ∧ Server.logStore s'
              = Server.logStore s
                ++ [Log.mk (LogMeta.mk (lastLogIndex s + 1) (currentTerm s)) body]
            ∧ Apply r transport s
              = ([setResult (Some (LogMeta.mk (lastLogIndex s + 1) (currentTerm s))) None],
                 Returns tt)
       else ∃ err, r = Err err
                   ∧ s' = s
                   ∧ Apply r transport s = ([setResult None (Some err)], Returns tt)).
Proof.
  intros Hrole Hroom.
  destruct (leaderLoop_append [LogBody.Copy body] s Hrole)
    as (exit & r & s' & Happend & Hloop).
  exists exit, r, s'. split; [exact Hloop|].
  rewrite appendLogs_unfold in Happend. cbv zeta in Happend.
  pose proof (appendLogs_decoded_accepted proto_Unmarshal (lastLogIndex s) (currentTerm s)
                [LogBody.Copy body]) as Hdec.
  rewrite LogBody_Copy_id in *.
  assert (newLogs (lastLogIndex s) (currentTerm s) [body]
          = [Log.mk (LogMeta.mk (lastLogIndex s + 1) (currentTerm s)) body]) as Hlogs.
  { unfold newLogs. cbn [imap]. rewrite LogBody_Copy_id. change (N.of_nat 0) with 0.
    rewrite (u64_add_small (lastLogIndex s) 1) by lia.
    rewrite (u64_add_small (lastLogIndex s + 1) 0) by lia.
    by rewrite N.add_0_r. }
  rewrite Hlogs in *.
  assert (ServerRole_eqb (role s) Leader = true) as Hleader by (by rewrite Hrole).
  unfold Apply. rewrite Hleader.
  destruct (appendLogs_decoded proto_Unmarshal _) as [conf|err].
  - rewrite <- Hdec. injection Happend as <- <-. repeat split. by destruct conf.
  - rewrite <- Hdec. injection Happend as <- <-. by exists err.
Qed.

Lemma takeLogOpsCh_submitAppendOp (bodies : list LogBody.t) (s : Server.t) :
  serverChannels.logOpsCh (Server.channels s) = [] →
  takeLogOpsCh (submitAppendOp bodies s) = Some (bodies, s).
Proof.
  destruct s as [id flag leader state commit [commitCh logOpsCh] conf machine store trans
                 again].
  cbn. by intros ->.
Qed.

(** X16.  A command forwarded to the leader, end to end.  The [ApplyLog]
    handler of the leader submits the body to the leader loop as an append
    operation; the loop, taking it from the queue, appends it as the entry
    behind the last log index, in the current term, and completes the
    operation with that index and term; [Apply], called by the handler,
    passes this meta on and the handler replies with it; and [Apply] on the
    server that is not the leader, whose transport delivers this reply,
    completes its future with the meta of the entry the leader stored. *)
Theorem Apply_proxy_delivers_the_answer
    (internalResult : result (list LogMeta.t)) (body : LogBody.t)
    (leader follower : Server.t) :
  role follower ≠ Leader →
  role leader = Leader →
  serverChannels.logOpsCh (Server.channels leader) = [] →
  lastLogIndex leader + 1 < uint64_modulus →
  accepted proto_Unmarshal [body] = true →
  let meta := LogMeta.mk (lastLogIndex leader + 1) (currentTerm leader) in
  ∃ response leader1 exit leader2,
    ApplyLog (Ok meta) (ApplyLogRequest.mk body) leader = Returns (response, leader1)
    ∧ serverChannels.logOpsCh (Server.channels leader1) = [[LogBody.Copy body]]
    ∧ runLoopLeader proto_Unmarshal proto_Marshal [leaderLogOpsChHead] leader1
      = Returns ((exit, [Ok [meta]]), leader2)
    ∧ Server.logStore leader2 = Server.logStore leader ++ [Log.mk meta body]
    ∧ serverChannels.logOpsCh (Server.channels leader2) = []
    ∧ (∀ transport,
         Apply (Ok [meta]) transport leader = ([setResult (Some meta) None], Returns tt))
    ∧ response = ApplyLogResponse.mk (Some (ApplyLogResponse_Meta meta))
    ∧ Apply internalResult (GRPCTransport_ApplyLog None (Some response)) follower
      = ([setResult (Some meta) None], Returns tt).
Proof.
  intros Hfollower Hleader Hqueue Hroom Haccepted meta.
  apply ServerRole_eqb_neq in Hfollower.
  assert (ServerRole_eqb (role leader) Leader = true) as Hleader'
    by (by rewrite Hleader).
  destruct (leaderLoop_append [LogBody.Copy body] leader Hleader)
    as (exit & r & leader2 & Happend & _).
  assert (r = Ok [meta]
          ∧ Server.logStore leader2 = Server.logStore leader ++ [Log.mk meta body]
          ∧ Server.channels leader2 = Server.channels leader
          ∧ role leader2 = Leader) as (-> & Hstore & Hchannels & Hrole2).
  { pose proof (appendLogs_outsideLog proto_Unmarshal [LogBody.Copy body] leader)
      as (r0 & x & Hx & Hout).
    rewrite Happend in Hx. injection Hx as <- <-.
    unfold outsideLog in Hout.
    assert (Server.channels leader2 = Server.channels leader ∧ role leader2 = role leader)
      as [Hch Hr] by (split; congruence).
    rewrite appendLogs_unfold in Happend. cbv zeta in Happend.
    pose proof (appendLogs_decoded_accepted proto_Unmarshal (lastLogIndex leader)
                  (currentTerm leader) [LogBody.Copy body]) as Hdec.
    rewrite LogBody_Copy_id in *. rewrite Haccepted in Hdec.
    assert (newLogs (lastLogIndex leader) (currentTerm leader) [body]
            = [Log.mk meta body]) as Hlogs.
    { unfold newLogs, meta. cbn [imap]. rewrite LogBody_Copy_id. change (N.of_nat 0) with 0.
      rewrite (u64_add_small (lastLogIndex leader) 1) by lia.
      rewrite (u64_add_small (lastLogIndex leader + 1) 0) by lia.
      by rewrite N.add_0_r. }
    rewrite Hlogs in *.
    destruct (appendLogs_decoded proto_Unmarshal _) as [conf|err]; [|discriminate Hdec].
    injection Happend as <- <-. rewrite Hleader in Hr.
    split; [reflexivity|]. split; [by destruct conf|]. by split. }
  exists (ApplyLogResponse.mk (Some (ApplyLogResponse_Meta meta))),
    (submitAppendOp [LogBody.Copy body] leader),
    (if shouldReselectLoop leader2 then loopReselect else loopAwaiting), leader2.
  split; [|split; [|split; [|split; [|split; [|split; [|split]]]]]].
  - unfold ApplyLog. unfold_M. by rewrite Hleader'.
  - cbn. by rewrite Hqueue.
  - unfold runLoopLeader, leaderLoop. cbn [leaderSelect]. unfold_M.
    change (role (submitAppendOp [LogBody.Copy body] leader)) with (role leader).
    rewrite Hleader'. cbn [negb].
    rewrite (takeLogOpsCh_submitAppendOp _ _ Hqueue), Happend.
    destruct (shouldReselectLoop leader2); [reflexivity|].
    cbv beta. by rewrite Hrole2.
  - exact Hstore.
  - by rewrite Hchannels.
  - intros transport. unfold Apply. by rewrite Hleader'.
  - reflexivity.
  - unfold Apply. by rewrite Hfollower.
Qed.

End LoopProperties.

(** The command payloads of a contiguous part of the log that holds
    commands only. *)
Lemma commandsFrom_commands (store B : list Log.t) (b : N) :
  (∀ k : nat, logStore.Entry store (b + N.of_nat k) = B !! k) →
  Forall (λ e, isConfiguration (Log.Body e) = false) B →
  ∀ m : nat,
    commandsFrom store b m = take m ((λ e, LogBody.Data (Log.Body e)) <$> B).
Proof.
  intros Hentry Hcmd m. revert store B b Hentry Hcmd.
  induction m as [|m IH]; intros store B b Hentry Hcmd; [by rewrite take_0|].
  cbn [commandsFrom].
  pose proof (Hentry 0%nat) as H0. rewrite N.add_0_r in H0. rewrite H0.
  destruct B as [|e B]; cbn [lookup list_lookup].
  - rewrite (IH store [] (b + 1)); [by rewrite fmap_nil, !take_nil| |done].
    intros k. replace (b + 1 + N.of_nat k) with (b + N.of_nat (S k)) by lia.
    by rewrite Hentry.
  - apply Forall_cons in Hcmd as [He Hcmd]. unfold isConfiguration in He.
    destruct (LogBody.Type_ (Log.Body e)); [|done].
    cbn [fmap list_fmap take app]. f_equal.
    apply (IH store B (b + 1)); [|done].
    intros k. replace (b + 1 + N.of_nat k) with (b + N.of_nat (S k)) by lia.
    by rewrite Hentry.
Qed.

Section ReplicationProperties.

Context (proto_Unmarshal : list byte → result Configuration.t).
Context (proto_Marshal : Configuration.t → result (list byte)).

(** X19.  Replication end to end on a follower that is in step with the
    request's previous index: the handler stores the command entries and
    queues the leader's commit index, and the follower loop that receives
    this commit index hands the payloads up to it to the state machine, in
    the order of the request, and moves the applied and commit index
    there. *)
Theorem follower_applies_replicated_commands
    (request : AppendEntriesRequest.t) (s : Server.t) (fuel : nat) :
  let p := AppendEntriesRequest.PrevLogIndex request in
  let es := AppendEntriesRequest.Entries request in
  let leaderCommit := AppendEntriesRequest.LeaderCommit request in
  let target := N.min leaderCommit (p + N.of_nat (length es)) in
  role s = Follower →
  currentTerm s ≤ AppendEntriesRequest.Term request →
  prevLogMismatch request (Server.logStore s) = false →
  Forall (λ e, logStore.indexOf e ≤ lastLogIndex s) (Server.logStore s) →
  lastLogIndex s = logStore.LastIndex (Server.logStore s) →
  lastLogIndex s = p →
  commitIndex s = p →
  LogMeta.Index (lastApplied s) = p →
  es ≠ [] →
  indexed_from (p + 1) es →
  Forall (λ e, isConfiguration (Log.Body e) = false) es →
  p + N.of_nat (length es) + 1 < uint64_modulus →
  p < leaderCommit →
  (N.to_nat (target - p) < fuel)%nat →
  ∃ response s1 exit s2,
    AppendEntries proto_Unmarshal request s = Returns (response, s1)
    ∧ AppendEntriesResponse.Success response = true
    ∧ serverChannels.commitCh (Server.channels s1)
      = serverChannels.commitCh (Server.channels s) ++ [leaderCommit]
    ∧ runLoopFollower proto_Unmarshal proto_Marshal [followerCommitCh fuel leaderCommit] s1
      = Returns ((exit, []), s2)
    ∧ Server.stateMachine s2
      = Server.stateMachine s
        ++ take (N.to_nat (target - p)) ((λ e, LogBody.Data (Log.Body e)) <$> es)
    ∧ LogMeta.Index (lastApplied s2) = target
    ∧ commitIndex s2 = target.
Proof.
  intros p es leaderCommit target Hrole Hterm Hprev Hbelow Hagree Hlast Hcommit Happlied
    Hne Hes Hcmd Hroom Hlc Hfuel.
  rewrite AppendEntries_unfold.
  replace (AppendEntriesRequest.Term request <? currentTerm s) with false
    by (symmetry; apply N.ltb_ge; lia).
  cbv zeta.
  set (t := AppendEntries_term request (AppendEntries_leader request s)).
  destruct (AppendEntries_prelude_frame request s)
    as (Hstore_t & Hlast_t & Hcommit_t & Hch_t & Hsm_t & _ & _ & _).
  fold t in Hstore_t, Hlast_t, Hcommit_t, Hch_t, Hsm_t.
  assert (role t = Follower) as Hrole_t.
  { unfold t. rewrite AppendEntries_prelude_role, Hrole. by destruct (_ <? _). }
  rewrite Hstore_t, Hprev. fold es.
  destruct es as [|e0 es'] eqn:Hentries; [done|]. clear Hne.
  cbn [length Nat.ltb Nat.leb].
  (* the entries phase appends all bodies *)
  set (bodies := (λ e, LogBody.Copy (Log.Body e)) <$> e0 :: es').
  set (logs := newLogs p (currentTerm t) bodies).
  assert (appendRequestEntries proto_Unmarshal (e0 :: es') t
          = Returns (tt, appendLogs_done None logs t)) as ->.
  { unfold appendRequestEntries. unfold_M. rewrite Hlast_t, Hlast.
    destruct (proj1 (indexed_from_cons _ _ _) Hes) as [He0 _]. rewrite He0.
    replace (p + 1 <=? p) with false by (symmetry; apply N.leb_gt; lia).
    cbv beta. rewrite drop_0. fold bodies.
    rewrite (appendLogs_commands_only proto_Unmarshal bodies t).
    - by rewrite Hlast_t, Hlast.
    - unfold bodies. apply Forall_fmap. eapply Forall_impl; [exact Hcmd|].
      cbn. intros e He. by rewrite LogBody_Copy_id. }
  set (t2 := appendLogs_done None logs t).
  assert (length logs = length (e0 :: es')) as Hlen.
  { unfold logs. rewrite newLogs_length. unfold bodies. by rewrite length_fmap. }
  assert (indexed_from (p + 1) logs) as Hlogs.
  { unfold logs. apply newLogs_indexed. unfold bodies. rewrite length_fmap. lia. }
  assert (Server.logStore t2 = Server.logStore s ++ logs) as Hstore2.
  { unfold t2. cbn. unfold logStore.AppendLogs. by rewrite Hstore_t. }
  assert (lastLogIndex t2 = p + N.of_nat (length (e0 :: es'))) as Hlast2.
  { transitivity (logStore.LastIndex (logStore.AppendLogs (Server.logStore t) logs));
      [reflexivity|].
    unfold logStore.AppendLogs. rewrite Hstore_t.
    rewrite (LastIndex_app_indexed _ logs p); [by rewrite Hlen| |done].
    by rewrite <- Hagree. }
  set (s1 := AppendEntries_commit request t2).
  destruct (AppendEntries_commit_frame request t2)
    as (Hstore3 & Hlast3 & Hcommit3 & Hsm3 & _ & _ & Hrole3 & Hch3).
  fold s1 in Hstore3, Hlast3, Hcommit3, Hsm3, Hrole3, Hch3.
  assert (commitIndex t2 = p) as Hci2.
  { unfold commitIndex in *. change (Server.commit t2) with (Server.commit t).
    by rewrite Hcommit_t. }
  rewrite Hci2 in Hch3. fold leaderCommit in Hch3.
  apply N.ltb_lt in Hlc as Hlc'. rewrite Hlc' in Hch3.
  change (Server.channels t2) with (Server.channels t) in Hch3. rewrite Hch_t in Hch3.
  (* the apply step *)
  assert (LogMeta.Index (lastApplied s1) = p) as Happlied1.
  { unfold lastApplied in *. rewrite Hcommit3.
    change (Server.commit t2) with (Server.commit t). by rewrite Hcommit_t. }
  assert (∀ k : nat, logStore.Entry (Server.logStore s1) (p + 1 + N.of_nat k) = logs !! k)
    as Hentry.
  { intros k. rewrite Hstore3, Hstore2, Entry_app_skip; [by apply Entry_indexed|].
    eapply Forall_impl; [exact Hbelow|]. cbn. intros; lia. }
  assert (N.min leaderCommit (lastLogIndex s1) = target) as Htarget.
  { unfold target. by rewrite Hlast3, Hlast2. }
  destruct (commitAndApply_run proto_Unmarshal proto_Marshal fuel leaderCommit s1)
    as (s2 & Hstep & Hsm & Hla & Hci & _ & Hstate).
  { rewrite Htarget, Happlied1. unfold target. lia. }
  { rewrite Htarget, Happlied1. intros k Hk.
    replace k with (p + 1 + N.of_nat (N.to_nat (k - p - 1))) by lia.
    rewrite Hentry. apply lookup_lt_is_Some. rewrite Hlen. unfold target in Hk. lia. }
  { rewrite Htarget. unfold target. lia. }
  { right. rewrite Htarget, Happlied1. intros k log Hk.
    replace k with (p + 1 + N.of_nat (N.to_nat (k - p - 1))) by lia.
    rewrite Hentry. intros Hlog.
    assert (Forall (λ e, isConfiguration (Log.Body e) = false) logs) as Hcmd_logs.
    { apply Forall_lookup_2. intros i e He. unfold logs in He.
      rewrite newLogs_lookup in He. unfold bodies in He. rewrite list_lookup_fmap in He.
      destruct ((e0 :: es') !! i) as [x|] eqn:Hx; [|done]. cbn in He.
      injection He as <-. cbn. rewrite !LogBody_Copy_id.
      by apply (Forall_lookup_1 _ _ _ _ Hcmd Hx). }
    by apply (Forall_lookup_1 _ _ _ _ Hcmd_logs Hlog). }
  { by rewrite Htarget, Happlied1. }
  assert (role s1 = Follower) as Hrole1 by (by rewrite Hrole3).
  assert (∃ exit, runLoopFollower proto_Unmarshal proto_Marshal
                    [followerCommitCh fuel leaderCommit] s1
                  = Returns ((exit, []), s2)) as [exit Hloop].
  { unfold runLoopFollower, followerLoop. cbn [followerSelect]. unfold_M. rewrite Hrole1.
    change (negb (ServerRole_eqb Follower Follower)) with false. cbv beta iota.
    rewrite Hstep.
    assert (role s2 = Follower) as Hrole2.
    { unfold role in *. by rewrite Hstate. }
    destruct (shouldReselectLoop s2); [by exists loopReselect|].
    cbv beta. rewrite Hrole2. by exists loopAwaiting. }
  exists (AppendEntriesResponse.mk (Server.id s) (currentTerm t) true), s1, exit, s2.
  split; [reflexivity|]. split; [reflexivity|]. split; [exact Hch3|].
  split; [exact Hloop|].
  rewrite Htarget in Hla. rewrite Htarget, Happlied1 in Hsm, Hci.
  split; [|split; [exact Hla|]].
  - rewrite Hsm, Hsm3. change (Server.stateMachine t2) with (Server.stateMachine t).
    rewrite Hsm_t. f_equal.
    rewrite (commandsFrom_commands _ logs (p + 1) Hentry).
    + f_equal. unfold logs. apply list_eq. intros i.
      rewrite !list_lookup_fmap, newLogs_lookup. unfold bodies.
      rewrite list_lookup_fmap.
      destruct ((e0 :: es') !! i) as [[meta [type data]]|]; [|done]. reflexivity.
    + apply Forall_lookup_2. intros i e He. unfold logs in He.
      rewrite newLogs_lookup in He. unfold bodies in He. rewrite list_lookup_fmap in He.
      destruct ((e0 :: es') !! i) as [x|] eqn:Hx; [|done]. cbn in He.
      injection He as <-. cbn. rewrite !LogBody_Copy_id.
      by apply (Forall_lookup_1 _ _ _ _ Hcmd Hx).
  - assert (p < target) as Hlt by (unfold target; cbn [length]; lia).
    by destruct (Hci Hlt) as [-> _].
Qed.

End ReplicationProperties.

(** X17 (witness).  A, just created, with the wire codec. *)
Lemma first_node_elects_itself_witness :
  ∃ s1 s2,
    Serve Examples.Wire.proto_Unmarshal Examples.Wire.proto_Marshal Examples.freshA
    = Returns (Ok tt, s1)
    ∧ runMainLoop Examples.Wire.proto_Unmarshal Examples.Wire.proto_Marshal
        [Examples.timerFires; Examples.nothingArrives] [] s1
      = Returns ((mainRunning, []), s2)
    ∧ role s2 = Leader
    ∧ currentTerm s2 = 1
    ∧ Leader_ s2 = Examples.peerA
    ∧ lastVoteSummary s2 = voteSummary.mk 1 "A"
    ∧ configuration.Peers (confStore_Latest s2) = [Examples.peerA].
Proof.
  apply (first_node_elects_itself Examples.Wire.proto_Unmarshal Examples.Wire.proto_Marshal
           Examples.freshA Examples.aloneA_encoded Examples.timerFires
           Examples.nothingArrives); reflexivity.
Defined.

(** X18 (witness).  The leader A applies the command y. *)
Lemma Apply_on_the_leader_witness :
  ∃ exit r s',
    runLoopLeader Examples.proto_Unmarshal Examples.proto_Marshal
      [leaderLogOpsCh [LogBody.Copy (Examples.command "y")]] Examples.leaderA
    = Returns ((exit, [r]), s')
    ∧ r = Ok [LogMeta.mk 2 3]
    ∧ Server.logStore s'
      = Server.logStore Examples.leaderA ++ [Log.mk (LogMeta.mk 2 3) (Examples.command "y")]
    ∧ Apply r (None, None) Examples.leaderA
      = ([setResult (Some (LogMeta.mk 2 3)) None], Returns tt).
Proof.
  apply (Apply_on_the_leader Examples.proto_Unmarshal Examples.proto_Marshal
           (Examples.command "y") (None, None) Examples.leaderA); reflexivity.
Defined.

(** X16 (witness).  B forwards the command y to the leader A, which holds
    one entry and is in term 3: A stores y as entry 2 of term 3, and B's
    future completes with (2, 3). *)
Lemma Apply_proxy_delivers_the_answer_witness :
  ∃ response leader1 exit leader2,
    ApplyLog (Ok (LogMeta.mk 2 3)) (ApplyLogRequest.mk (Examples.command "y")) Examples.leaderA
    = Returns (response, leader1)
    ∧ serverChannels.logOpsCh (Server.channels leader1)
      = [[LogBody.Copy (Examples.command "y")]]
    ∧ runLoopLeader Examples.proto_Unmarshal Examples.proto_Marshal [leaderLogOpsChHead] leader1
      = Returns ((exit, [Ok [LogMeta.mk 2 3]]), leader2)
    ∧ Server.logStore leader2
      = Server.logStore Examples.leaderA ++ [Log.mk (LogMeta.mk 2 3) (Examples.command "y")]
    ∧ serverChannels.logOpsCh (Server.channels leader2) = []
    ∧ (∀ transport,
         Apply (Ok [LogMeta.mk 2 3]) transport Examples.leaderA
         = ([setResult (Some (LogMeta.mk 2 3)) None], Returns tt))
    ∧ response = ApplyLogResponse.mk (Some (ApplyLogResponse_Meta (LogMeta.mk 2 3)))
    ∧ Apply (Ok []) (GRPCTransport_ApplyLog None (Some response)) Examples.followerOfA
      = ([setResult (Some (LogMeta.mk 2 3)) None], Returns tt).
Proof.
  apply (Apply_proxy_delivers_the_answer Examples.proto_Unmarshal Examples.proto_Marshal
           (Ok []) (Examples.command "y") Examples.leaderA Examples.followerOfA).
  - discriminate.
  - reflexivity.
  - reflexivity.
  - reflexivity.
  - reflexivity.
Defined.

(** X19 (witness).  B, with an empty log, gets the entries 1 and 2 with
    commit index 2 and applies both. *)
Lemma follower_applies_replicated_commands_witness :
  ∃ response s1 exit s2,
    AppendEntries Examples.proto_Unmarshal Examples.twoEntriesCommitted Examples.followerB
    = Returns (response, s1)
    ∧ AppendEntriesResponse.Success response = true
    ∧ serverChannels.commitCh (Server.channels s1) = [2]
    ∧ runLoopFollower Examples.proto_Unmarshal Examples.proto_Marshal
        [followerCommitCh 3 2] s1
      = Returns ((exit, []), s2)
    ∧ Server.stateMachine s2 = [["x"%byte]; ["y"%byte]]
    ∧ LogMeta.Index (lastApplied s2) = 2
    ∧ commitIndex s2 = 2.
Proof.
  apply (follower_applies_replicated_commands Examples.proto_Unmarshal Examples.proto_Marshal
           Examples.twoEntriesCommitted Examples.followerB 3).
  - reflexivity.
  - by_evaluation.
  - reflexivity.
  - constructor.
  - reflexivity.
  - reflexivity.
  - reflexivity.
  - reflexivity.
  - discriminate.
  - apply indexed_from_cons. split; [reflexivity|].
    apply indexed_from_cons. split; [reflexivity|]. apply indexed_from_nil.
  - repeat constructor.
  - reflexivity.
  - reflexivity.
  - by_evaluation.
Defined.

(** ** The key-value state machine *)

Section KVProperties.

Context (DecodeCommand : list byte → KV.Command.t).
Context (msgpack_Decode : list byte → result (gmap string (list byte))).

Lemma Value_Apply (key : string) (command : list byte) (m : KV.StateMachine.t) :
  KV.Value key (KV.Apply DecodeCommand command m)
  = if writesKey DecodeCommand key command then
      match KV.Command.Type_ (DecodeCommand command) with
      | KV.CommandSet => (KV.Command.Value (DecodeCommand command), true)
      | _ => ([], false)
      end
    else KV.Value key m.
Proof.
  unfold KV.Value, KV.Apply, writesKey.
  destruct (KV.Command.Type_ (DecodeCommand command)); cbn [KV.StateMachine.states].
  - destruct (String.eqb_spec (KV.Command.Key (DecodeCommand command)) key) as [->|Hne].
    + by rewrite lookup_insert_eq.
    + by rewrite lookup_insert_ne.
  - destruct (String.eqb_spec (KV.Command.Key (DecodeCommand command)) key) as [->|Hne].
    + by rewrite lookup_delete_eq.
    + by rewrite lookup_delete_ne.
  - reflexivity.
Qed.

(** X20.  After any sequence of commands, the value of a key is what the
    last command that sets or unsets this key left: the value it set, or
    "absent" after an unset; without such a command it is what it was. *)
Theorem Value_is_the_last_write (commands : list (list byte)) (key : string)
    (m : KV.StateMachine.t) :
  KV.Value key (applyAll DecodeCommand commands m)
  = match last (List.filter (writesKey DecodeCommand key) commands) with
    | Some command =>
        match KV.Command.Type_ (DecodeCommand command) with
        | KV.CommandSet => (KV.Command.Value (DecodeCommand command), true)
        | _ => ([], false)
        end
    | None => KV.Value key m
    end.
Proof.
  induction commands as [|command commands IH] using rev_ind; [reflexivity|].
  unfold applyAll in *. rewrite foldl_app. cbn [foldl].
  rewrite Value_Apply, List.filter_app. cbn [List.filter].
  destruct (writesKey DecodeCommand key command).
  - by rewrite last_snoc.
  - by rewrite app_nil_r.
Qed.

(** X21.  [Keys] lists every key that has a value, each once, and no
    other. *)
Theorem Keys_are_the_present_keys (m : KV.StateMachine.t) :
  NoDup (KV.Keys m) ∧ ∀ key, key ∈ KV.Keys m ↔ snd (KV.Value key m) = true.
Proof.
  unfold KV.Keys, KV.Value. split; [apply NoDup_fst_map_to_list|].
  intros key. rewrite list_elem_of_fmap. split.
  - intros ([k v] & -> & Hin). apply elem_of_map_to_list in Hin. cbn. by rewrite Hin.
  - destruct (KV.StateMachine.states m !! key) as [v|] eqn:Hv; [|done].
    intros _. exists (key, v). split; [done|]. by apply elem_of_map_to_list.
Qed.

Lemma machineStep_index_term (m : KV.StateMachine.t) (call : machineCall) :
  KV.StateMachine.index (machineStep DecodeCommand msgpack_Decode m call)
  = KV.StateMachine.index m
  ∧ KV.StateMachine.term (machineStep DecodeCommand msgpack_Decode m call)
    = KV.StateMachine.term m.
Proof.
  destruct call as [command|[bytes|err]]; cbn.
  - unfold KV.Apply. by destruct (KV.Command.Type_ _).
  - by destruct (msgpack_Decode bytes).
  - done.
Qed.

(** X22.  Neither [Apply] nor [Restore] sets the index or the term of the
    state machine: whatever a new state machine is asked to do, its
    snapshot is taken without an error and reports index 0 and term 0. *)
Theorem Snapshot_index_and_term_stay_zero (calls : list machineCall) :
  ∃ snapshot,
    KV.Snapshot (foldl (machineStep DecodeCommand msgpack_Decode) KV.NewStateMachine calls)
    = Ok snapshot
    ∧ KV.Index snapshot = 0
    ∧ KV.Term snapshot = 0.
Proof.
  eexists. split; [reflexivity|]. cbn.
  induction calls as [|call calls IH] using rev_ind; [done|].
  rewrite foldl_app. cbn [foldl].
  destruct (machineStep_index_term
              (foldl (machineStep DecodeCommand msgpack_Decode) KV.NewStateMachine calls)
              call) as [-> ->].
  exact IH.
Qed.

End KVProperties.

(** ** The gRPC transport *)

Section TransportProperties.

Import GRPCTransport.

Context (grpc_Dial : nat → string → option error).
Context (isErrShutdown : error → bool).

Ltac unfold_T :=
  unfold mbind, mret, T_bind, T_ret, inspect, update, RLock, RUnlock, Lock, Unlock in *.

Ltac reduce_T :=
  cbv beta;
  cbn [clients clientsMu closed dials with_clients with_clientsMu with_closed
       with_dials RWMutex.readers RWMutex.writer orb andb Nat.ltb Nat.leb fst snd target]
    in *;
  repeat match goal with
         | |- context [(0 <? ?z)%Z] =>
             let b := eval vm_compute in (0 <? z)%Z in change (0 <? z)%Z with b
         end;
  cbv beta iota;
  rewrite ?lookup_insert_eq, ?lookup_delete_eq;
  repeat match goal with
         | H : ?c !! ?k = _ |- context [?c !! ?k] => rewrite H
         | H : ?f ?n ?c ?v = (_, _) |- context [?f ?n ?c ?v] => rewrite H
         | H : isErrShutdown ?e = _ |- context [isErrShutdown ?e] => rewrite H
         | H : grpc_Dial ?n ?ep = _ |- context [grpc_Dial ?n ?ep] => rewrite H
         end.

Ltac case_T :=
  match goal with
  | |- context [match ?c !! ?k with _ => _ end] =>
      let H := fresh "Hclient" in destruct (c !! k) eqn:H
  | |- context [match fst (?f ?n ?c ?v) with _ => _ end] =>
      let e := fresh "called" in
      let H := fresh "Hcalled" in
      destruct (f n c v) as [e ?] eqn:H; destruct e
  | |- context [if isErrShutdown ?e then _ else _] =>
      let H := fresh "Hshutdown" in destruct (isErrShutdown e) eqn:H
  | |- context [match grpc_Dial ?n ?ep with _ => _ end] =>
      let H := fresh "Hdial" in destruct (grpc_Dial n ep) eqn:H
  end.

(** [tryClient] on a transport whose lock is free. *)
Lemma tryClient_run {V} (peer : Peer.t)
    (fn : nat → grpcTransClient → V → option error * V) (v : V) (x : t) :
  clientsMu x = RWMutex.unlocked →
  ∃ err calls v' x',
    tryClient grpc_Dial isErrShutdown peer fn v x = Returned (Some (err, calls, v')) x'
    ∧ clientsMu x' = RWMutex.unlocked
    ∧ (calls ≤ 2)%nat
    ∧ (calls = 2%nat →
       ∃ client err0,
         clients x !! Peer.Id peer = Some client
         ∧ fst (fn 0%nat client v) = Some err0
         ∧ isErrShutdown err0 = true)
    ∧ (err = None →
       is_Some (clients x' !! Peer.Id peer)
       ∧ ∃ n client v0, fn n client v0 = (None, v'))
    ∧ (calls = 0%nat → v' = v ∧ err ≠ None)
    ∧ (dials x ≤ dials x' ≤ dials x + 2)%nat.
Proof.
  destruct x as [cl mu cls d]. cbn [clientsMu clients dials]. intros ->.
  unfold tryClient, RWMutex.unlocked. cbn [retryClient].
  unfold connectLocked, disconnectLocked. unfold_T.
  repeat (reduce_T; try case_T).
  all: eexists _, _, _, _; (split; [reflexivity|]); reduce_T.
  all: split; [reflexivity|]; split; [lia|].
  all: split; [first [by intros; lia
                     |intros _; eexists _, _; split; [reflexivity|];
                      rewrite Hcalled; split; [reflexivity|assumption]]|].
  all: split; [first [done|intros _; split; [eauto|eauto]]|].
  all: split; [first [by intros; lia|by intros _]|lia].
Qed.

(** X23.  [tryClient] on a transport whose lock is free returns with the
    lock free again and calls the callback at most twice; it calls twice
    only when a client was connected and the first call failed with
    [rpc.ErrShutdown].  A nil error means that the peer is connected and
    that the last call of the callback succeeded; without any call the
    captured variables are untouched and the error is not nil.  At most two
    connections are dialed. *)
Theorem tryClient_calls_at_most_twice {V} (peer : Peer.t)
    (fn : nat → grpcTransClient → V → option error * V) (v : V) (x : t) :
  clientsMu x = RWMutex.unlocked →
  ∃ err calls v' x',
    tryClient grpc_Dial isErrShutdown peer fn v x = Returned (Some (err, calls, v')) x'
    ∧ clientsMu x' = RWMutex.unlocked
    ∧ (calls ≤ 2)%nat
    ∧ (calls = 2%nat →
       ∃ client err0,
         clients x !! Peer.Id peer = Some client
         ∧ fst (fn 0%nat client v) = Some err0
         ∧ isErrShutdown err0 = true)
    ∧ (err = None →
       is_Some (clients x' !! Peer.Id peer)
       ∧ ∃ n client v0, fn n client v0 = (None, v'))
    ∧ (calls = 0%nat → v' = v ∧ err ≠ None)
    ∧ (dials x ≤ dials x' ≤ dials x + 2)%nat.
Proof. apply tryClient_run. Qed.

(** X24.  [ApplyLog] of the transport returns a response or an error, never
    both and never neither; a response is one that the client's call
    returned. *)
Theorem ApplyLog_response_or_error
    (client_ApplyLog : nat → grpcTransClient → result ApplyLogResponse.t)
    (peer : Peer.t) (x : t) :
  clientsMu x = RWMutex.unlocked →
  ∃ response err x',
    ApplyLog grpc_Dial isErrShutdown client_ApplyLog peer x
    = Returned (Some (response, err)) x'
    ∧ (response = None ↔ err ≠ None)
    ∧ (∀ r, response = Some r → ∃ n client, client_ApplyLog n client = Ok r)
    ∧ clientsMu x' = RWMutex.unlocked.
Proof.
  intros Hmu. unfold ApplyLog.
  set (fn := λ (n : nat) (c : grpcTransClient) (response : option ApplyLogResponse.t),
               match client_ApplyLog n c with
               | Err err => (Some err, response)
               | Ok r => (None, Some r)
               end).
  destruct (tryClient_run peer fn None x Hmu)
    as (err & calls & v' & x' & Hrun & Hmu' & _ & _ & Hok & _).
  unfold_T. rewrite Hrun. destruct err as [err|]; cbn [GRPCTransport_ApplyLog].
  - exists None, (Some err), x'. split; [reflexivity|]. split; [by split|]. by split.
  - destruct (Hok eq_refl) as (_ & n & client & v0 & Hfn). unfold fn in Hfn.
    destruct (client_ApplyLog n client) as [r|e] eqn:Hcall; [|done].
    injection Hfn as <-.
    exists (Some r), None, x'. split; [reflexivity|]. split; [by split|].
    split; [|done]. intros r' [= <-]. by exists n, client.
Qed.

(** X25.  [Connect] to a peer that is connected already returns nil but
    keeps the read lock.  From then on [Disconnect], [DisconnectAll], and
    [Connect] and [tryClient] for a peer that is not connected wait for the
    lock. *)
Theorem Connect_keeps_the_read_lock (peer : Peer.t) (client : grpcTransClient) (x : t) :
  clientsMu x = RWMutex.unlocked →
  clients x !! Peer.Id peer = Some client →
  ∃ x',
    Connect grpc_Dial peer x = Returned None x'
    ∧ clientsMu x' = RWMutex.mk 1 false
    ∧ clients x' = clients x
    ∧ (∀ q, Disconnect q x' = Blocked)
    ∧ DisconnectAll x' = Blocked
    ∧ (∀ q, clients x !! Peer.Id q = None → Connect grpc_Dial q x' = Blocked)
    ∧ (∀ V q (fn : nat → grpcTransClient → V → option error * V) v,
         clients x !! Peer.Id q = None →
         tryClient grpc_Dial isErrShutdown q fn v x' = Blocked).
Proof.
  destruct x as [cl mu cls d]. cbn [clientsMu clients]. intros -> Hclient.
  unfold Connect, RWMutex.unlocked. unfold_T. repeat reduce_T.
  eexists. split; [reflexivity|]. repeat reduce_T. split; [reflexivity|]. split; [reflexivity|].
  split; [|split; [|split]].
  - intros q. unfold Disconnect. unfold_T. by repeat reduce_T.
  - unfold DisconnectAll. unfold_T. by repeat reduce_T.
  - intros q Hq. unfold Connect. unfold_T. by repeat reduce_T.
  - intros V q fn v Hq. unfold tryClient. cbn [retryClient]. unfold_T.
    by repeat reduce_T.
Qed.

(** X26.  [Connect] to a peer that is not connected dials its endpoint and
    registers the client; [Disconnect] then closes that connection and
    leaves the clients as they were before; the lock is free after both. *)
Theorem Connect_then_Disconnect (peer : Peer.t) (x : t) :
  clientsMu x = RWMutex.unlocked →
  clients x !! Peer.Id peer = None →
  grpc_Dial (dials x) (Peer.Endpoint peer) = None →
  ∃ x1 x2,
    Connect grpc_Dial peer x = Returned None x1
    ∧ clients x1 = <[Peer.Id peer := mkClient (Peer.Endpoint peer)]> (clients x)
    ∧ clientsMu x1 = RWMutex.unlocked
    ∧ Disconnect peer x1 = Returned tt x2
    ∧ clients x2 = clients x
    ∧ closed x2 = closed x ++ [Peer.Endpoint peer]
    ∧ clientsMu x2 = RWMutex.unlocked.
Proof.
  destruct x as [cl mu cls d]. cbn [clientsMu clients dials closed].
  intros -> Hclient Hdial.
  unfold Connect, Disconnect, connectLocked, RWMutex.unlocked. unfold_T. repeat reduce_T.
  eexists _, _. split; [reflexivity|]. repeat reduce_T. split; [reflexivity|].
  split; [reflexivity|]. split; [reflexivity|]. repeat reduce_T.
  split; [by apply delete_insert_id|]. by split.
Qed.

End TransportProperties.

(** X23 (witness).  A is connected; the first call fails because the
    connection is shut down, the second succeeds. *)
Lemma tryClient_calls_at_most_twice_witness :
  ∃ err calls v' x',
    GRPCTransport.tryClient Examples.grpc_Dial Examples.isErrShutdown Examples.peerA
      Examples.failsOnce tt Examples.transportToA
    = GRPCTransport.Returned (Some (err, calls, v')) x'
    ∧ GRPCTransport.clientsMu x' = RWMutex.unlocked
    ∧ (calls ≤ 2)%nat
    ∧ (calls = 2%nat →
       ∃ client err0,
         GRPCTransport.clients Examples.transportToA !! Peer.Id Examples.peerA = Some client
         ∧ fst (Examples.failsOnce 0%nat client tt) = Some err0
         ∧ Examples.isErrShutdown err0 = true)
    ∧ (err = None →
       is_Some (GRPCTransport.clients x' !! Peer.Id Examples.peerA)
       ∧ ∃ n client v0, Examples.failsOnce n client v0 = (None, v'))
    ∧ (calls = 0%nat → v' = tt ∧ err ≠ None)
    ∧ (GRPCTransport.dials Examples.transportToA ≤ GRPCTransport.dials x'
       ≤ GRPCTransport.dials Examples.transportToA + 2)%nat.
Proof.
  apply (tryClient_calls_at_most_twice Examples.grpc_Dial Examples.isErrShutdown
           Examples.peerA Examples.failsOnce tt Examples.transportToA).
  reflexivity.
Defined.

(** X24 (witness).  B asks the leader A through a transport with no client
    yet. *)
Lemma ApplyLog_response_or_error_witness :
  ∃ response err x',
    GRPCTransport.ApplyLog Examples.grpc_Dial Examples.isErrShutdown Examples.client_ApplyLog
      Examples.peerA Examples.transport
    = GRPCTransport.Returned (Some (response, err)) x'
    ∧ (response = None ↔ err ≠ None)
    ∧ (∀ r, response = Some r → ∃ n client, Examples.client_ApplyLog n client = Ok r)
    ∧ GRPCTransport.clientsMu x' = RWMutex.unlocked.
Proof.
  apply (ApplyLog_response_or_error Examples.grpc_Dial Examples.isErrShutdown
           Examples.client_ApplyLog Examples.peerA Examples.transport).
  reflexivity.
Defined.

(** X25 (witness).  A is connected, and [Connect] is called for A again. *)
Lemma Connect_keeps_the_read_lock_witness :
  ∃ x',
    GRPCTransport.Connect Examples.grpc_Dial Examples.peerA Examples.transportToA
    = GRPCTransport.Returned None x'
    ∧ GRPCTransport.clientsMu x' = RWMutex.mk 1 false
    ∧ GRPCTransport.clients x' = GRPCTransport.clients Examples.transportToA
    ∧ (∀ q, GRPCTransport.Disconnect q x' = GRPCTransport.Blocked)
    ∧ GRPCTransport.DisconnectAll x' = GRPCTransport.Blocked
    ∧ (∀ q, GRPCTransport.clients Examples.transportToA !! Peer.Id q = None →
            GRPCTransport.Connect Examples.grpc_Dial q x' = GRPCTransport.Blocked)
    ∧ (∀ V q (fn : nat → GRPCTransport.grpcTransClient → V → option error * V) v,
         GRPCTransport.clients Examples.transportToA !! Peer.Id q = None →
         GRPCTransport.tryClient Examples.grpc_Dial Examples.isErrShutdown q fn v x'
         = GRPCTransport.Blocked).
Proof.
  apply (Connect_keeps_the_read_lock Examples.grpc_Dial Examples.isErrShutdown Examples.peerA
           (GRPCTransport.mkClient "10.0.0.1:5000") Examples.transportToA); reflexivity.
Defined.

(** X26 (witness).  A transport with no client connects to A and
    disconnects. *)
Lemma Connect_then_Disconnect_witness :
  ∃ x1 x2,
    GRPCTransport.Connect Examples.grpc_Dial Examples.peerA Examples.transport
    = GRPCTransport.Returned None x1
    ∧ GRPCTransport.clients x1
      = <[Peer.Id Examples.peerA := GRPCTransport.mkClient (Peer.Endpoint Examples.peerA)]>
          (GRPCTransport.clients Examples.transport)
    ∧ GRPCTransport.clientsMu x1 = RWMutex.unlocked
    ∧ GRPCTransport.Disconnect Examples.peerA x1 = GRPCTransport.Returned tt x2
    ∧ GRPCTransport.clients x2 = GRPCTransport.clients Examples.transport
    ∧ GRPCTransport.closed x2
      = GRPCTransport.closed Examples.transport ++ [Peer.Endpoint Examples.peerA]
    ∧ GRPCTransport.clientsMu x2 = RWMutex.unlocked.
Proof.
  apply (Connect_then_Disconnect Examples.grpc_Dial Examples.peerA Examples.transport);
    reflexivity.
Defined.
